(** * Blueprint image pipelines: wall extractor and floor filler

    A shallow embedding of [scripts/remove_interior_lines.py] and
    [scripts/generate_floor_mask.py].

    NumPy 2-D arrays are lists of rows of integers, indexed [a[y, x]] with
    integer coordinates.  A Python list used as a stack keeps its top at
    the head of the Rocq list ([append] is cons, [pop] takes the head).
    The [while stack:] loops take a fuel argument and return [None] when it
    runs out; the fuel the pipelines pass is shown to be enough.  Array
    elements are unbounded integers: the uint8 and int32 arrays of the
    scripts hold values that fit (pixel values, zeros and ones, labels and
    areas of an image of fewer than 2^31 pixels).  The float64 arithmetic
    of [otsu_threshold] is a parameter of its embedding, given by the laws
    the proofs use; Rocq's primitive binary64 floats are the instance the
    loop is run on.  The minimum and maximum filters of Pillow are
    modelled from the specification. *)

From stdpp Require Import base tactics option list numbers sorting strings gmap.
From Stdlib Require Import ZArith Lia.
From Stdlib Require Floats Uint63.

Local Open Scope Z_scope.

(** ** Two-dimensional arrays *)

Abbreviation grid := (list (list Z)).
Abbreviation pixel := (Z * Z)%type.

Module Grid.

(** [h, w = a.shape]; an array without rows has width 0 here. *)
Definition height (g : grid) : Z := Z.of_nat (length g).

Definition width (g : grid) : Z :=
  match g with
  | [] => 0
  | r :: _ => Z.of_nat (length r)
  end.

(** Every row has the width of the array. *)
Definition rect (g : grid) : Prop :=
  Forall (λ r : list Z, Z.of_nat (length r) = width g) g.

(** [a[y, x]].  Every read of the scripts is at coordinates inside the
    array: the loops range over it and the neighbour tests check the
    bounds first.  Where NumPy would raise (past the end) the model reads
    0, and a negative coordinate, which NumPy would wrap around, is read
    as coordinate 0. *)
Definition get2 (g : grid) (y x : Z) : Z :=
  match g !! Z.to_nat y with
  | Some r => default 0 (r !! Z.to_nat x)
  | None => 0
  end.

(** [a[y, x] = v], at coordinates inside the array (elsewhere the model
    leaves the array as it is). *)
Definition set2 (g : grid) (y x v : Z) : grid :=
  alter (λ r : list Z, <[Z.to_nat x := v]> r) (Z.to_nat y) g.

(** [np.zeros_like(a)] and [-np.ones_like(a)] keep the shape of [a]. *)
Definition full_like (g : grid) (v : Z) : grid :=
  map (λ r : list Z, map (λ _ : Z, v) r) g.

Definition inb (h w : Z) (p : pixel) : Prop :=
  0 ≤ p.1 < w ∧ 0 ≤ p.2 < h.

Definition same_shape (a b : grid) : Prop :=
  height a = height b ∧ width a = width b ∧ rect a ∧ rect b.

(** The coordinates [(x, y)] of an [h] by [w] array in row-major order:
    [for y in range(h): for x in range(w)]. *)
Definition coords (h w : Z) : list pixel :=
  y ← seqZ 0 h; (λ x, (x, y)) <$> seqZ 0 w.

End Grid.

Import Grid.

(** ** Pixels, neighbours and paths *)

(** The value of an array at a pixel [(x, y)]. *)
Definition px (g : grid) (p : pixel) : Z := get2 g p.2 p.1.

(** [for dx, dy in ((1, 0), (-1, 0), (0, 1), (0, -1))] *)
Definition directions : list pixel := [(1, 0); (-1, 0); (0, 1); (0, -1)].

(** [nx, ny = cx + dx, cy + dy] for each direction. *)
Definition neighbours (c : pixel) : list pixel :=
  (λ d : pixel, (c.1 + d.1, c.2 + d.2)) <$> directions.

(** Two pixels are 4-adjacent when they share an edge. *)
Definition adj4 (p q : pixel) : Prop :=
  Z.abs (p.1 - q.1) + Z.abs (p.2 - q.2) = 1.

(** [path ok p q]: [q] is reached from [p] by steps between 4-adjacent
    pixels, every pixel stepped onto satisfying [ok]. *)
Inductive path (ok : pixel → Prop) (p : pixel) : pixel → Prop :=
  | path_here : path ok p p
  | path_step q r : path ok p q → adj4 q r → ok r → path ok p r.

(** ** scripts/generate_floor_mask.py: the outside mask and the floor *)

Module FloorMask.

Definition WALL_THRESHOLD : Z := 40.
Definition MIN_FLOOR_AREA_PX : Z := 500.
Definition SMOOTH_ITERATIONS : Z := 1.

(** [walls = (gray < WALL_THRESHOLD).astype(np.uint8)] *)
Definition binarize (gray : grid) (t : Z) : grid :=
  map (λ r : list Z, map (λ v : Z, if v <? t then 1 else 0) r) gray.

(** The closure [push_if_valid(x, y)]; the arrays [outside] and [stack] it
    updates are passed in and returned. *)
Definition push_if_valid (walls : grid) (h w : Z)
    (st : grid * list pixel) (x y : Z) : grid * list pixel :=
  let '(outside, stack) := st in
  if (0 <=? x) && (x <? w) && (0 <=? y) && (y <? h)
     && (get2 walls y x =? 0) && (get2 outside y x =? 0)
  then (set2 outside y x 1, (x, y) :: stack)
  else st.

(** The two seeding loops over the border. *)
Definition seed_border (walls : grid) (h w : Z)
    (st : grid * list pixel) : grid * list pixel :=
  let st1 :=
    foldl (λ st x,
             push_if_valid walls h w (push_if_valid walls h w st x 0) x (h - 1))
          st (seqZ 0 w) in
  foldl (λ st y,
           push_if_valid walls h w (push_if_valid walls h w st 0 y) (w - 1) y)
        st1 (seqZ 0 h).

(** [while stack:] with the neighbour test written inline, as in the
    script. *)
Fixpoint flood_loop (fuel : nat) (walls : grid) (h w : Z)
    (outside : grid) (stack : list pixel) : option grid :=
  match stack with
  | [] => Some outside
  | (cx, cy) :: stack' =>
      match fuel with
      | O => None
      | S fuel' =>
          let st :=
            foldl (λ (st : grid * list pixel) (d : pixel),
                     let '(dx, dy) := d in
                     let nx := cx + dx in
                     let ny := cy + dy in
                     if (0 <=? nx) && (nx <? w) && (0 <=? ny) && (ny <? h)
                        && (get2 walls ny nx =? 0) && (get2 st.1 ny nx =? 0)
                     then (set2 st.1 ny nx 1, (nx, ny) :: st.2)
                     else st)
                  (outside, stack') directions in
          flood_loop fuel' walls h w st.1 st.2
      end
  end.

(** Fuel for [flood_loop]: a pixel is pushed at most once and popped at
    most once. *)
Definition flood_fuel (h w : Z) : nat := (2 * length (coords h w))%nat.

(** Step 2 of [generate_floor_mask]: the "outside" array. *)
Definition outside_mask (walls : grid) : option grid :=
  let h := height walls in
  let w := width walls in
  let outside := full_like walls 0 in
  let st := seed_border walls h w (outside, []) in
  flood_loop (flood_fuel h w) walls h w st.1 st.2.

(** [floor = ((walls == 0) & (outside == 0)).astype(np.uint8)] *)
Definition candidate_floor (walls outside : grid) : grid :=
  zip_with (zip_with (λ a b : Z, if (a =? 0) && (b =? 0) then 1 else 0))
           walls outside.

(** The pixels on the first or last row or column. *)
Definition border (h w : Z) (p : pixel) : Prop :=
  p.1 = 0 ∨ p.1 = w - 1 ∨ p.2 = 0 ∨ p.2 = h - 1.

(** A pixel of the array that is not a wall. *)
Definition open (walls : grid) (p : pixel) : Prop :=
  inb (height walls) (width walls) p ∧ px walls p = 0.

(** Reachable from an open border pixel through open pixels. *)
Definition border_reachable (walls : grid) (p : pixel) : Prop :=
  ∃ q, border (height walls) (width walls) q ∧ open walls q
       ∧ path (open walls) q p.

(** The candidate pixels of the seeding loops, in the order tried. *)
Definition border_list (h w : Z) : list pixel :=
  (x ← seqZ 0 w; [(x, 0); (x, h - 1)]) ++ (y ← seqZ 0 h; [(0, y); (w - 1, y)]).

End FloorMask.

Import FloorMask.

(** ** connected_components (the same function in both scripts) *)

Module Labeler.

(** A row [x, y, w, h, area] of the stats array. *)
Record Stat := mkStat {
  st_x : Z;
  st_y : Z;
  st_w : Z;
  st_h : Z;
  st_area : Z
}.

(** The running values of one flood fill: [area], [min_x], [max_x],
    [min_y], [max_y]. *)
Record Box := mkBox {
  area : Z;
  min_x : Z;
  max_x : Z;
  min_y : Z;
  max_y : Z
}.

(** The bookkeeping at the head of the [while stack:] body. *)
Definition grow (b : Box) (c : pixel) : Box :=
  let '(cx, cy) := c in
  {| area := area b + 1;
     min_x := Z.min (min_x b) cx;
     max_x := Z.max (max_x b) cx;
     min_y := Z.min (min_y b) cy;
     max_y := Z.max (max_y b) cy |}.

(** [while stack:] of the labeler. *)
Fixpoint fill_component (fuel : nat) (mask : grid) (h w current : Z)
    (labels : grid) (stack : list pixel) (b : Box) : option (grid * Box) :=
  match stack with
  | [] => Some (labels, b)
  | (cx, cy) :: stack' =>
      match fuel with
      | O => None
      | S fuel' =>
          let b' := grow b (cx, cy) in
          let st :=
            foldl (λ (st : grid * list pixel) (d : pixel),
                     let '(dx, dy) := d in
                     let nx := cx + dx in
                     let ny := cy + dy in
                     if (nx <? 0) || (nx >=? w) || (ny <? 0) || (ny >=? h)
                     then st
                     else if (get2 mask ny nx =? 0)
                             || negb (get2 st.1 ny nx =? -1)
                     then st
                     else (set2 st.1 ny nx current, (nx, ny) :: st.2))
                  (labels, stack') directions in
          fill_component fuel' mask h w current st.1 st.2 b'
      end
  end.

(** The state of the scan: [labels], [stats] and [current].  The list
    [stack] of the script is empty whenever the scan moves on, so it is
    local to the fill here. *)
Record Scan := mkScan {
  labels : grid;
  stats : list Stat;
  current : Z
}.

(** The body of [for x in range(w)] at the pixel [(x, y)]. *)
Definition scan_pixel (fuel : nat) (mask : grid) (h w : Z)
    (s : option Scan) (p : pixel) : option Scan :=
  s ← s;
  let '(x, y) := p in
  if (get2 mask y x =? 0) || negb (get2 (labels s) y x =? -1)
  then Some s
  else
    r ← fill_component fuel mask h w (current s)
           (set2 (labels s) y x (current s)) [(x, y)]
           {| area := 0; min_x := x; max_x := x; min_y := y; max_y := y |};
    let b := r.2 in
    Some {| labels := r.1;
            stats := stats s ++
                       [ {| st_x := min_x b;
                            st_y := min_y b;
                            st_w := max_x b - min_x b + 1;
                            st_h := max_y b - min_y b + 1;
                            st_area := area b |} ];
            current := current s + 1 |}.

(** Fuel for one fill: a pixel is pushed at most once and popped at most
    once. *)
Definition fill_fuel (h w : Z) : nat := (2 * length (coords h w))%nat.

Definition connected_components (mask : grid) : option (grid * list Stat) :=
  let h := height mask in
  let w := width mask in
  let start := {| labels := full_like mask (-1); stats := []; current := 0 |} in
  s ← foldl (λ s y,
               foldl (λ s x, scan_pixel (fill_fuel h w) mask h w s (x, y))
                     s (seqZ 0 w))
            (Some start) (seqZ 0 h);
  Some (labels s, stats s).

(** Foreground pixels of a mask, and 4-connectivity through them. *)
Definition fg (mask : grid) (p : pixel) : Prop :=
  inb (height mask) (width mask) p ∧ px mask p ≠ 0.

Definition connected (mask : grid) (p q : pixel) : Prop :=
  path (fg mask) p q.

(** Row-major order of pixels [(x, y)]. *)
Definition rm_lt (p q : pixel) : Prop :=
  p.2 < q.2 ∨ (p.2 = q.2 ∧ p.1 < q.1).

Definition rm_le (p q : pixel) : Prop := p = q ∨ rm_lt p q.

(** [s] is the first pixel, in row-major order, of its component. *)
Definition first_of (h w : Z) (lbl : grid) (s : pixel) : Prop :=
  inb h w s ∧ ∀ p, inb h w p → px lbl p = px lbl s → rm_le s p.

(** Number of pixels carrying the label [i], and of foreground pixels. *)
Definition label_count (h w : Z) (lbl : grid) (i : Z) : nat :=
  length (filter (λ p, px lbl p = i) (coords h w)).

Definition fg_count (mask : grid) : nat :=
  length (filter (λ p, px mask p ≠ 0) (coords (height mask) (width mask))).

(** [st] is the exact summary of the pixel list [l]: its length and its
    minimal bounding box. *)
Definition summarises (st : Stat) (l : list pixel) : Prop :=
  st_area st = Z.of_nat (length l)
  ∧ (∀ p, p ∈ l → st_x st ≤ p.1 < st_x st + st_w st
                  ∧ st_y st ≤ p.2 < st_y st + st_h st)
  ∧ (∃ p, p ∈ l ∧ p.1 = st_x st)
  ∧ (∃ p, p ∈ l ∧ p.1 = st_x st + st_w st - 1)
  ∧ (∃ p, p ∈ l ∧ p.2 = st_y st)
  ∧ (∃ p, p ∈ l ∧ p.2 = st_y st + st_h st - 1).

End Labeler.

Import Labeler.

(** ** Dropping small components (both pipelines) *)

Module Filter.

Definition MIN_COMPONENT_AREA_PX : Z := 1200.

(** [for idx, (_, _, _, _, area) in enumerate(stats):
       if area >= MIN: keep.add(idx)], from index [idx] on. *)
Fixpoint keep_from (min_area idx : Z) (sts : list Stat) (keep : gset Z)
    : gset Z :=
  match sts with
  | [] => keep
  | st :: rest =>
      keep_from min_area (idx + 1) rest
        (if st_area st >=? min_area then {[idx]} ∪ keep else keep)
  end.

Definition keep_large (min_area : Z) (sts : list Stat) : gset Z :=
  keep_from min_area 0 sts ∅.

(** [clean[labels == idx] = 1] *)
Definition paint (lbl clean : grid) (idx : Z) : grid :=
  zip_with (zip_with (λ l c : Z, if l =? idx then 1 else c)) lbl clean.

(** [clean = np.zeros_like(arr); for idx in keep: clean[labels == idx] = 1];
    the set is walked in the order of [elements]. *)
Definition clean_mask (mask lbl : grid) (keep : gset Z) : grid :=
  foldl (paint lbl) (full_like mask 0) (elements keep).

(** The filtering step on a mask: label, select, repaint. *)
Definition drop_small (min_area : Z) (mask : grid) : option grid :=
  r ← connected_components mask;
  Some (clean_mask mask r.1 (keep_large min_area r.2)).

End Filter.

Import Filter.

(** ** scripts/remove_interior_lines.py: Otsu's threshold *)

Module Otsu.

(** The float64 arithmetic of [otsu_threshold]: [sum_b], [w_b], [w_f],
    [m_b], [m_f], [var_between] and [max_var] are float64 values.
    [of_int] converts an integer operand ([hist[t]], [total], [sum_total],
    the literals [0.0] and [-1.0]), [fsqr x] is [x ** 2], [fis0 x] is
    [x == 0] and [fgt x y] is [x > y]. *)
Class Float64 (F : Type) := {
  of_int : Z → F;
  fadd : F → F → F;
  fsub : F → F → F;
  fmul : F → F → F;
  fdiv : F → F → F;
  fsqr : F → F;
  fis0 : F → bool;
  fgt : F → F → bool
}.

(** Sums of integers, differences of integers and tests against zero are
    exact on integers from 0 up to [B] (for float64, up to [2^53]). *)
Class Exact {F : Type} `{!Float64 F} (B : Z) : Prop := {
  fadd_exact a b :
    0 ≤ a → 0 ≤ b → a + b ≤ B → fadd (of_int a) (of_int b) = of_int (a + b);
  fsub_exact a b :
    0 ≤ b ≤ a → a ≤ B → fsub (of_int a) (of_int b) = of_int (a - b);
  fis0_exact a : 0 ≤ a ≤ B → fis0 (of_int a) = (a =? 0)
}.

(** [w_b * w_f * (m_b - m_f) ** 2] with [m_b = sb / wb] and
    [m_f = sf / wf], from the integer weights and sums of the two
    classes. *)
Definition variance {F : Type} `{!Float64 F} (wb wf sb sf : Z) : F :=
  fmul (fmul (of_int wb) (of_int wf))
       (fsqr (fsub (fdiv (of_int sb) (of_int wb))
                   (fdiv (of_int sf) (of_int wf)))).

(** What the loop needs of [>] on float64.  No two values are each
    greater than the other.  When [x > y], a value [z] that is itself
    greater than some value (NaN is greater than none) lies below [x] or
    above [y].  And the variance of two non-empty classes of 8-bit pixels,
    at most [B / 255] pixels in all, lies above the sentinel -1.0 (for
    float64 it is a finite number that is not negative, up to [2^53]). *)
Class Ordered {F : Type} `{!Float64 F} (B : Z) : Prop := {
  fgt_asym x y : fgt x y = true → fgt y x = false;
  fgt_cotrans x y z w :
    fgt x y = true → fgt z w = true → fgt x z = true ∨ fgt z y = true;
  fgt_sentinel wb wf sb sf :
    0 < wb → 0 < wf → 0 ≤ sb ≤ 255 * wb → 0 ≤ sf ≤ 255 * wf →
    255 * (wb + wf) ≤ B →
    fgt (variance wb wf sb sf) (of_int (-1)) = true
}.

Section otsu.
Context {F : Type} `{!Float64 F}.

(** The variables the loop updates. *)
Record State := mkState {
  sum_b : F;
  w_b : F;
  max_var : F;
  threshold : Z
}.

(** [np.histogram(gray, bins=256, range=(0, 256))]: bin [t] counts the
    pixels of value [t]. *)
Definition histogram (gray : grid) : list Z :=
  (λ t : Z, Z.of_nat (length (filter (λ v : Z, v = t) (concat gray))))
    <$> seqZ 0 256.

(** [hist[t]] *)
Definition hist_at (hist : list Z) (t : Z) : Z :=
  default 0 (hist !! Z.to_nat t).

(** [gray.size] *)
Definition size (gray : grid) : Z := Z.of_nat (length (concat gray)).

Definition sum_Z (l : list Z) : Z := foldr Z.add 0 l.

(** [np.dot(np.arange(256), hist)] *)
Definition dot_arange (hist : list Z) : Z :=
  sum_Z (zip_with Z.mul (seqZ 0 256) hist).

(** A float64 division.  A divisor equal to zero is the error of the
    model (NumPy would warn and give inf or nan), so that a run that
    returns [Some] has divided by no zero. *)
Definition checked_div (a b : F) : option F :=
  if fis0 b then None else Some (fdiv a b).

(** [for t in range(256)] over the thresholds [ts] still to try;
    [continue] goes on with the next one and [break] returns. *)
Fixpoint otsu_loop (hist : list Z) (total sum_total : Z)
    (ts : list Z) (st : State) : option State :=
  match ts with
  | [] => Some st
  | t :: ts' =>
      let w_b' := fadd (w_b st) (of_int (hist_at hist t)) in
      if fis0 w_b'
      then otsu_loop hist total sum_total ts'
             (mkState (sum_b st) w_b' (max_var st) (threshold st))
      else
        let w_f := fsub (of_int total) w_b' in
        if fis0 w_f
        then Some (mkState (sum_b st) w_b' (max_var st) (threshold st))
        else
          let sum_b' := fadd (sum_b st) (of_int (t * hist_at hist t)) in
          m_b ← checked_div sum_b' w_b';
          m_f ← checked_div (fsub (of_int sum_total) sum_b') w_f;
          let var_between := fmul (fmul w_b' w_f) (fsqr (fsub m_b m_f)) in
          if fgt var_between (max_var st)
          then otsu_loop hist total sum_total ts'
                 (mkState sum_b' w_b' var_between t)
          else otsu_loop hist total sum_total ts'
                 (mkState sum_b' w_b' (max_var st) (threshold st))
  end.

(** [otsu_threshold] up to its [return]: the final values of the loop
    variables. *)
Definition otsu_run (gray : grid) : option State :=
  let hist := histogram gray in
  otsu_loop hist (size gray) (dot_arange hist) (seqZ 0 256)
    (mkState (of_int 0) (of_int 0) (of_int (-1)) 0).

Definition otsu_threshold (gray : grid) : option Z :=
  threshold <$> otsu_run gray.

(** The pixels with value at most [t] (the background class of the
    candidate [t]) and the sum of their values. *)
Definition class_weight (hist : list Z) (t : Z) : Z :=
  sum_Z (take (Z.to_nat (t + 1)) hist).

Definition class_sum (hist : list Z) (t : Z) : Z :=
  sum_Z (take (Z.to_nat (t + 1)) (zip_with Z.mul (seqZ 0 256) hist)).

(** A candidate threshold that leaves neither class empty. *)
Definition candidate (hist : list Z) (total t : Z) : Prop :=
  0 ≤ t ≤ 255 ∧ class_weight hist t ≠ 0 ∧ total - class_weight hist t ≠ 0.

(** The between-class variance [w_b * w_f * (m_b - m_f) ** 2] of the
    candidate [t]. *)
Definition between_var (hist : list Z) (total sum_total t : Z) : F :=
  let wb := class_weight hist t in
  let wf := total - wb in
  let sb := class_sum hist t in
  fmul (fmul (of_int wb) (of_int wf))
       (fsqr (fsub (fdiv (of_int sb) (of_int wb))
                   (fdiv (of_int (sum_total - sb)) (of_int wf)))).

(** An 8-bit image. *)
Definition gray8 (gray : grid) : Prop :=
  ∀ v, v ∈ concat gray → 0 ≤ v ≤ 255.

End otsu.

(** [binary = (gray < t).astype(np.uint8) * 255] *)
Definition binary (gray : grid) (t : Z) : grid :=
  map (λ r : list Z, map (λ v : Z, (if v <? t then 1 else 0) * 255) r) gray.

End Otsu.

Import Otsu.

(** ** Erosion and dilation *)

Module Morphology.

(** An array given by its value at every pixel. *)
Definition tabulate (h w : Z) (f : pixel → Z) : grid :=
  (λ y : Z, (λ x : Z, f (x, y)) <$> seqZ 0 w) <$> seqZ 0 h.

(** The [size] by [size] square of pixels around [p], without the
    positions outside the [h] by [w] image. *)
Definition window (h w size : Z) (p : pixel) : list pixel :=
  filter (λ q : pixel, 0 ≤ q.1 < w ∧ 0 ≤ q.2 < h)
    (y ← seqZ (p.2 - size / 2) size;
     (λ x : Z, (x, y)) <$> seqZ (p.1 - size / 2) size).

(** Modelled from the spec: [ImageFilter.MinFilter(size)] of Pillow is not
    part of the repository; the spec gives erosion as the minimum over the
    neighbourhood clipped to the image bounds. *)
Definition min_filter (size : Z) (img : grid) : grid :=
  tabulate (height img) (width img)
    (λ p, foldr Z.min (px img p)
            (px img <$> window (height img) (width img) size p)).

(** Modelled from the spec: [ImageFilter.MaxFilter(size)] of Pillow is not
    part of the repository; the spec gives dilation as the maximum over the
    neighbourhood clipped to the image bounds. *)
Definition max_filter (size : Z) (img : grid) : grid :=
  tabulate (height img) (width img)
    (λ p, foldr Z.max (px img p)
            (px img <$> window (height img) (width img) size p)).

(** The kernel sizes of the scripts. *)
Definition MIN_WALL_THICKNESS_PX : Z := 6.

(** [size = max(1, MIN_WALL_THICKNESS_PX | 1)] *)
Definition opening_size : Z := Z.max 1 (Z.lor MIN_WALL_THICKNESS_PX 1).

(** [erosion_size = max(1, (MIN_WALL_THICKNESS_PX // 2) | 1)] *)
Definition erosion_size : Z := Z.max 1 (Z.lor (MIN_WALL_THICKNESS_PX / 2) 1).

(** [size = 3] of the smoothing of [generate_floor_mask]. *)
Definition smoothing_size : Z := 3.

(** [max(1, n | 1)]: the size of the opening for [n = MIN_WALL_THICKNESS_PX]
    and of the thinning for [n = MIN_WALL_THICKNESS_PX // 2]. *)
Definition kernel_size (n : Z) : Z := Z.max 1 (Z.lor n 1).

End Morphology.

Import Morphology.

(** ** scripts/generate_floor_mask.py: tiling and compositing *)

Abbreviation rgb := (Z * Z * Z)%type.
Abbreviation image := (list (list rgb)).

Module Composite.

(** [img[y, x]] of an RGB array, [None] outside of it. *)
Definition iget (img : image) (y x : Z) : option rgb :=
  r ← img !! Z.to_nat y; r !! Z.to_nat x.

(** [np.tile(tex_arr, (reps_y, reps_x, 1))] *)
Definition tile (reps_y reps_x : Z) (tex : image) : image :=
  concat (replicate (Z.to_nat reps_y)
            ((λ row : list rgb, concat (replicate (Z.to_nat reps_x) row))
               <$> tex)).

(** [a[:h, :w, :]] *)
Definition crop (h w : Z) (img : image) : image :=
  take (Z.to_nat h) (take (Z.to_nat w) <$> img).

(** [th, tw, _ = tex_arr.shape] *)
Definition tex_height (tex : image) : Z := Z.of_nat (length tex).

Definition tex_width (tex : image) : Z :=
  match tex with
  | [] => 0
  | r :: _ => Z.of_nat (length r)
  end.

(** Step 4 of [generate_floor_mask]: the texture tiled over the canvas. *)
Definition tiled_texture (h w : Z) (tex : image) : image :=
  let th := tex_height tex in
  let tw := tex_width tex in
  let reps_y := (h + th - 1) / th in
  let reps_x := (w + tw - 1) / tw in
  crop h w (tile reps_y reps_x tex).

(** [np.full((h, w, 3), 255, dtype=np.uint8)] *)
Definition white_canvas (h w : Z) : image :=
  replicate (Z.to_nat h) (replicate (Z.to_nat w) (255, 255, 255)).

(** [out[mask == 1] = v] for one colour [v]; the mask has the shape of
    [out]. *)
Definition paint_where (mask : grid) (v : rgb) (out : image) : image :=
  zip_with (zip_with (λ (m : Z) (o : rgb), if m =? 1 then v else o)) mask out.

(** [src[mask == 1]]: the selected pixels of one row, then of the array,
    in row-major order. *)
Fixpoint select_row (m : list Z) (s : list rgb) : list rgb :=
  match m, s with
  | mv :: m', sv :: s' =>
      if mv =? 1 then sv :: select_row m' s' else select_row m' s'
  | _, _ => []
  end.

Definition select (mask : grid) (src : image) : list rgb :=
  concat (zip_with select_row mask src).

(** [out[mask == 1] = vals]: the selected positions take the values in
    row-major order; the values left over are returned with the row.
    NumPy refuses a value list of another length than the selection, so
    the case of too few values does not arise. *)
Fixpoint place_row (m : list Z) (o vals : list rgb) : list rgb * list rgb :=
  match m, o with
  | mv :: m', ov :: o' =>
      if mv =? 1
      then match vals with
           | v :: vals' =>
               let r := place_row m' o' vals' in (v :: r.1, r.2)
           | [] =>
               let r := place_row m' o' [] in (ov :: r.1, r.2)
           end
      else let r := place_row m' o' vals in (ov :: r.1, r.2)
  | _, _ => (o, vals)
  end.

Fixpoint place (mask : grid) (out : image) (vals : list rgb) : image :=
  match mask, out with
  | m :: mask', o :: out' =>
      let r := place_row m o vals in
      r.1 :: place mask' out' r.2
  | _, _ => out
  end.

(** Steps 4 and 5 of [generate_floor_mask]: white canvas, walls black,
    kept floor textured. *)
Definition compose (walls clean : grid) (tex : image) : image :=
  let h := height walls in
  let w := width walls in
  let tiled := tiled_texture h w tex in
  let out := white_canvas h w in
  let out := paint_where walls (0, 0, 0) out in
  place clean out (select clean tiled).

(** The meaning of a masked copy, pixel by pixel. *)
Fixpoint blend_row (m : list Z) (s o : list rgb) : list rgb :=
  match m, s, o with
  | mv :: m', sv :: s', ov :: o' =>
      (if mv =? 1 then sv else ov) :: blend_row m' s' o'
  | _, _, _ => o
  end.

Fixpoint blend (mask : grid) (src out : image) : image :=
  match mask, src, out with
  | m :: mask', s :: src', o :: out' =>
      blend_row m s o :: blend mask' src' out'
  | _, _, _ => out
  end.

(** A rectangular RGB array of [th] rows and [tw] columns. *)
Definition image_shape (th tw : Z) (img : image) : Prop :=
  Z.of_nat (length img) = th
  ∧ ∀ r, r ∈ img → Z.of_nat (length r) = tw.

End Composite.

Import Composite.

(** ** The command-line entry points *)

Module Cli.

Inductive Script := RemoveInteriorLines | GenerateFloorMask.

(** What an entry point does, in order: print a line, leave with a
    status, call the pipeline of the script on two paths, or fail on a
    missing [sys.argv] entry. *)
Inductive Event :=
  | Print (line : string)
  | Exit (status : Z)
  | Invoke (script : Script) (input_path output_path : string)
  | IndexError.

Definition usage (s : Script) : string :=
  match s with
  | RemoveInteriorLines =>
      "Usage: python3 scripts/remove_interior_lines.py <input_image> <output_image>"
  | GenerateFloorMask =>
      "Usage: python3 scripts/generate_floor_mask.py <walls_only.png> <floor_mask.png>"
  end%string.

(** The [if __name__ == "__main__":] block of either script;
    [sys.exit(1)] ends the run. *)
Definition main (s : Script) (argv : list string) : list Event :=
  if Z.of_nat (length argv) <? 3
  then [Print (usage s); Exit 1]
  else match argv !! 1%nat, argv !! 2%nat with
       | Some input_path, Some output_path =>
           [Invoke s input_path output_path]
       | _, _ => [IndexError]
       end.

(** The arguments after the program name. *)
Definition positional (argv : list string) : list string := tail argv.

End Cli.

Import Cli.

(** ** The two pipelines

    The image decoded by [Image.open(...).convert("L")] is the argument
    [gray], the decoded texture is [tex], and the array handed to
    [Image.fromarray(...).save] is the result. *)

Module Pipeline.

Definition DILATION_ITERATIONS : nat := 2.
Definition EROSION_ITERATIONS : nat := 6.

(** [(a > 0).astype(np.uint8)] *)
Definition positive (a : grid) : grid :=
  map (λ r : list Z, map (λ v : Z, if 0 <? v then 1 else 0) r) a.

(** [(a * 255).astype(np.uint8)] on a mask of zeros and ones. *)
Definition scale255 (a : grid) : grid :=
  map (λ r : list Z, map (λ v : Z, v * 255) r) a.

(** [(1 - clean) * 255] *)
Definition invert255 (a : grid) : grid :=
  map (λ r : list Z, map (λ v : Z, (1 - v) * 255) r) a.

(** [remove_interior_lines]: the array saved as the walls-only image. *)
Definition remove_interior_lines {F : Type} `{!Float64 F} (gray : grid)
    : option grid :=
  t ← otsu_threshold gray;
  let size := opening_size in
  let opened := max_filter size (min_filter size (binary gray t)) in
  let dilated := Nat.iter DILATION_ITERATIONS (max_filter size) opened in
  let arr := positive dilated in
  clean ← drop_small MIN_COMPONENT_AREA_PX arr;
  let thinned :=
    Nat.iter EROSION_ITERATIONS (min_filter erosion_size) (scale255 clean) in
  Some (invert255 (positive thinned)).

(** [generate_floor_mask]: the array saved as the filled floor image. *)
Definition generate_floor_mask (gray : grid) (tex : image) : option image :=
  let walls := binarize gray WALL_THRESHOLD in
  outside ← outside_mask walls;
  let floor := candidate_floor walls outside in
  clean ← drop_small MIN_FLOOR_AREA_PX floor;
  let clean :=
    if 0 <? SMOOTH_ITERATIONS
    then positive
           (Nat.iter (Z.to_nat SMOOTH_ITERATIONS)
              (λ pil, min_filter smoothing_size (max_filter smoothing_size pil))
              (scale255 clean))
    else clean in
  Some (compose walls clean tex).

(** The filters [ImageFilter.MinFilter] and [ImageFilter.MaxFilter] come
    from Pillow.  The two pipelines once more, with the erosion and the
    dilation as parameters. *)

(** [remove_interior_lines] with the erosion and the dilation as
    parameters. *)
Definition remove_interior_lines_with {F : Type} `{!Float64 F}
    (erode dilate : Z → grid → grid) (gray : grid) : option grid :=
  t ← otsu_threshold gray;
  let size := opening_size in
  let opened := dilate size (erode size (binary gray t)) in
  let dilated := Nat.iter DILATION_ITERATIONS (dilate size) opened in
  let arr := positive dilated in
  clean ← drop_small MIN_COMPONENT_AREA_PX arr;
  let thinned :=
    Nat.iter EROSION_ITERATIONS (erode erosion_size) (scale255 clean) in
  Some (invert255 (positive thinned)).

(** [generate_floor_mask] with the erosion and the dilation as
    parameters. *)
Definition generate_floor_mask_with (erode dilate : Z → grid → grid)
    (gray : grid) (tex : image) : option image :=
  let walls := binarize gray WALL_THRESHOLD in
  outside ← outside_mask walls;
  let floor := candidate_floor walls outside in
  clean ← drop_small MIN_FLOOR_AREA_PX floor;
  let clean :=
    if 0 <? SMOOTH_ITERATIONS
    then positive
           (Nat.iter (Z.to_nat SMOOTH_ITERATIONS)
              (λ pil, erode smoothing_size (dilate smoothing_size pil))
              (scale255 clean))
    else clean in
  Some (compose walls clean tex).

End Pipeline.

Import Pipeline.

(** * Properties of the embedded programs *)

Section grid_facts.
Implicit Types (g : grid) (r : list Z) (x y v : Z).

Lemma width_rows g r : rect g → r ∈ g → Z.of_nat (length r) = width g.
Proof. unfold rect. rewrite Forall_forall. auto. Qed.

Lemma lookup_row g y :
  0 ≤ y < height g → ∃ r, g !! Z.to_nat y = Some r.
Proof.
  unfold height. intros Hy.
  apply lookup_lt_is_Some_2. lia.
Qed.

Lemma lookup_cell g y x r :
  rect g → g !! Z.to_nat y = Some r → 0 ≤ x < width g →
  ∃ v, r !! Z.to_nat x = Some v.
Proof.
  intros Hg Hr Hx.
  apply lookup_lt_is_Some_2.
  pose proof (width_rows g r Hg (list_elem_of_lookup_2 _ _ _ Hr)). lia.
Qed.

Lemma height_set2 g y x v : height (set2 g y x v) = height g.
Proof. unfold height, set2. by rewrite length_alter. Qed.

Lemma width_set2 g y x v : width (set2 g y x v) = width g.
Proof.
  unfold set2. destruct g as [|r g]; [done|].
  destruct (Z.to_nat y); simpl; [|done].
  by rewrite length_insert.
Qed.

Lemma rect_set2 g y x v : rect g → rect (set2 g y x v).
Proof.
  unfold rect. rewrite width_set2. unfold set2. intros Hg.
  rewrite Forall_forall in Hg. rewrite Forall_forall. intros r Hr.
  apply list_elem_of_lookup in Hr as [i Hi].
  rewrite list_lookup_alter in Hi.
  case_decide.
  - subst i. destruct (g !! Z.to_nat y) as [r'|] eqn:E; [|done].
    injection Hi as <-.
    rewrite length_insert. eauto using list_elem_of_lookup_2.
  - eauto using list_elem_of_lookup_2.
Qed.

Lemma get2_set2_eq g y x v :
  rect g → 0 ≤ y < height g → 0 ≤ x < width g →
  get2 (set2 g y x v) y x = v.
Proof.
  intros Hg Hy Hx. unfold get2, set2.
  rewrite list_lookup_alter_eq.
  destruct (lookup_row g y Hy) as [r Hr]. rewrite Hr. simpl.
  destruct (lookup_cell g y x r Hg Hr Hx) as [v' Hv'].
  rewrite list_lookup_insert_eq; [done|].
  by eapply lookup_lt_Some.
Qed.

Lemma get2_set2_ne g y x v y' x' :
  0 ≤ y → 0 ≤ x → 0 ≤ y' → 0 ≤ x' → (x', y') ≠ (x, y) →
  get2 (set2 g y x v) y' x' = get2 g y' x'.
Proof.
  intros Hy Hx Hy' Hx' Hne. unfold get2, set2.
  destruct (decide (Z.to_nat y = Z.to_nat y')) as [E|E].
  - rewrite <- E, list_lookup_alter_eq.
    destruct (g !! Z.to_nat y) as [r|]; simpl; [|done].
    rewrite list_lookup_insert_ne; [done|].
    intros E'. apply Hne. f_equal; lia.
  - by rewrite list_lookup_alter_ne.
Qed.

Lemma same_shape_set2 a g y x v : same_shape a g → same_shape a (set2 g y x v).
Proof.
  intros (Hh & Hw & Ha & Hg). unfold same_shape.
  rewrite height_set2, width_set2. eauto using rect_set2.
Qed.

Lemma height_full_like g v : height (full_like g v) = height g.
Proof. unfold height, full_like. by rewrite length_map. Qed.

Lemma width_full_like g v : width (full_like g v) = width g.
Proof. destruct g; simpl; [done|]. by rewrite length_map. Qed.

Lemma rect_full_like g v : rect g → rect (full_like g v).
Proof.
  unfold rect. rewrite width_full_like. unfold full_like.
  rewrite !Forall_forall. intros Hg r Hr.
  apply list_elem_of_fmap in Hr as (r' & -> & Hr').
  rewrite length_map. auto.
Qed.

Lemma same_shape_full_like g v : rect g → same_shape g (full_like g v).
Proof.
  intros Hg. unfold same_shape.
  rewrite height_full_like, width_full_like. eauto using rect_full_like.
Qed.

Lemma get2_full_like g v y x :
  rect g → 0 ≤ y < height g → 0 ≤ x < width g →
  get2 (full_like g v) y x = v.
Proof.
  intros Hg Hy Hx. unfold get2, full_like.
  rewrite list_lookup_fmap.
  destruct (lookup_row g y Hy) as [r Hr]. rewrite Hr. simpl.
  rewrite list_lookup_fmap.
  destruct (lookup_cell g y x r Hg Hr Hx) as [v' ->]. done.
Qed.

Lemma elem_of_coords h w p : p ∈ coords h w ↔ inb h w p.
Proof.
  unfold coords, inb. rewrite list_elem_of_bind. split.
  - intros (y & Hp & Hy). apply list_elem_of_fmap in Hp as (x & -> & Hx).
    apply elem_of_seqZ in Hx, Hy. simpl. lia.
  - intros [Hx Hy]. exists p.2. split.
    + apply list_elem_of_fmap. exists p.1. split; [by destruct p|].
      apply elem_of_seqZ. lia.
    + apply elem_of_seqZ. lia.
Qed.

Lemma NoDup_coords h w : NoDup (coords h w).
Proof.
  unfold coords. apply NoDup_bind.
  - intros y1 y2 p _ _ H1 H2.
    apply list_elem_of_fmap in H1 as (x1 & -> & _).
    apply list_elem_of_fmap in H2 as (x2 & E & _). by simplify_eq.
  - intros y _. apply NoDup_fmap_2; [|apply NoDup_seqZ].
    intros x1 x2 E. by simplify_eq.
  - apply NoDup_seqZ.
Qed.

End grid_facts.

(** ** Counting with filters *)

Section filter_count.
Context {A : Type}.

Lemma filter_length_ext (P Q : A → Prop)
    `{!∀ x, Decision (P x)} `{!∀ x, Decision (Q x)} (l : list A) :
  (∀ x, x ∈ l → (P x ↔ Q x)) →
  length (filter P l) = length (filter Q l).
Proof.
  induction l as [|a l IH]; intros Hext; [done|].
  rewrite !filter_cons.
  assert (P a ↔ Q a) as Ha by (apply Hext; left).
  assert (length (filter P l) = length (filter Q l)) as Hl.
  { apply IH. intros x Hx. apply Hext. by right. }
  repeat case_decide; simpl; tauto || lia.
Qed.

Lemma filter_length_flip (P Q : A → Prop)
    `{!∀ x, Decision (P x)} `{!∀ x, Decision (Q x)} (l : list A) (a : A) :
  NoDup l → a ∈ l → P a → ¬ Q a →
  (∀ x, x ∈ l → x ≠ a → (P x ↔ Q x)) →
  length (filter P l) = S (length (filter Q l)).
Proof.
  induction l as [|b l IH]; intros Hnd Ha HP HQ Hext.
  - by apply elem_of_nil in Ha.
  - apply NoDup_cons in Hnd as [Hb Hnd].
    rewrite !filter_cons.
    apply elem_of_cons in Ha as [<-|Ha'].
    + rewrite decide_True by done. rewrite decide_False by done. simpl.
      f_equal. apply filter_length_ext.
      intros x Hx. apply Hext; [by right|]. by intros ->.
    + assert (b ≠ a) as Hne by (by intros ->).
      assert (P b ↔ Q b) as Hb' by (apply Hext; [left|done]).
      assert (length (filter P l) = S (length (filter Q l))) as Hl.
      { apply IH; try done. intros x Hx. apply Hext. by right. }
      repeat case_decide; simpl; tauto || lia.
Qed.

Lemma filter_length_compl (P : A → Prop) `{!∀ x, Decision (P x)} (l : list A) :
  (length (filter P l) + length (filter (λ x, ¬ P x) l) = length l)%nat.
Proof.
  induction l as [|a l IH]; [done|].
  rewrite !filter_cons. repeat case_decide; simpl; tauto || lia.
Qed.

Lemma filter_length_all (P : A → Prop) `{!∀ x, Decision (P x)} (l : list A) :
  (∀ x, x ∈ l → P x) → length (filter P l) = length l.
Proof.
  induction l as [|a l IH]; intros Hall; [done|].
  rewrite filter_cons. rewrite decide_True by (apply Hall; left).
  simpl. f_equal. apply IH. intros x Hx. apply Hall. by right.
Qed.

End filter_count.

(** ** Facts about paths *)

Section path_facts.
Implicit Types (p q r : pixel).

Lemma adj4_neighbours p q : adj4 p q ↔ q ∈ neighbours p.
Proof.
  unfold adj4, neighbours, directions. destruct p as [px py], q as [qx qy].
  simpl. rewrite !elem_of_cons, elem_of_nil.
  split.
  - intros H.
    assert ((qx = px + 1 ∧ qy = py + 0) ∨ (qx = px + -1 ∧ qy = py + 0) ∨
            (qx = px + 0 ∧ qy = py + 1) ∨ (qx = px + 0 ∧ qy = py + -1)) as Hc by lia.
    destruct Hc as [[-> ->]|[[-> ->]|[[-> ->]|[-> ->]]]]; auto.
  - intros [E|[E|[E|[E|[]]]]]; simplify_eq; lia.
Qed.

Lemma adj4_sym p q : adj4 p q → adj4 q p.
Proof. unfold adj4. lia. Qed.

Lemma path_weaken (ok ok' : pixel → Prop) p q :
  (∀ r, ok r → ok' r) → path ok p q → path ok' p q.
Proof. intros H. induction 1; [constructor|]. econstructor; eauto. Qed.

Lemma path_trans ok p q r : path ok p q → path ok q r → path ok p r.
Proof. intros Hpq. induction 1; [done|]. econstructor; eauto. Qed.

Lemma path_first ok p q r : ok q → adj4 p q → path ok q r → path ok p r.
Proof.
  intros Hq Ha Hp. eapply path_trans; [|done].
  econstructor; [constructor|done..].
Qed.

(** A path between two [ok] pixels can be walked backwards. *)
Lemma path_sym ok p q : ok p → path ok p q → path ok q p.
Proof.
  intros Hp. induction 1 as [|q r Hpq IH Ha Hr]; [constructor|].
  destruct Hpq as [|q' q Hpq' Ha' Hq].
  - econstructor; [constructor| by apply adj4_sym |done].
  - eapply path_first; [| by apply adj4_sym, Ha |apply IH]. done.
Qed.

Lemma path_ok ok p q : ok p → path ok p q → ok q.
Proof. intros Hp. by destruct 1. Qed.

End path_facts.

(** ** The stack-driven flood fill

    Both scripts fill a region with the same loop: pop a pixel, look at
    its four neighbours, and mark and push each neighbour that lies inside
    the array, passes the pixel test of the script and is not marked yet.
    [passable] is that pixel test, [fresh] recognises the values of the
    mark array that mean "not marked yet", [mark] is the value written,
    and [visit] is the bookkeeping done on each popped pixel. *)

Section fill.
Context {A : Type}.
Variables (h w : Z) (passable : pixel → bool) (fresh : Z → bool) (mark : Z).
Variable visit : A → pixel → A.

Definition try_mark (st : grid * list pixel) (n : pixel) : grid * list pixel :=
  if (0 <=? n.1) && (n.1 <? w) && (0 <=? n.2) && (n.2 <? h)
     && passable n && fresh (px st.1 n)
  then (set2 st.1 n.2 n.1 mark, n :: st.2)
  else st.

Fixpoint drain (fuel : nat) (marks : grid) (stack : list pixel) (acc : A)
    : option (grid * A) :=
  match stack with
  | [] => Some (marks, acc)
  | c :: stack' =>
      match fuel with
      | O => None
      | S fuel' =>
          let st := foldl try_mark (marks, stack') (neighbours c) in
          drain fuel' st.1 st.2 (visit acc c)
      end
  end.

(** Number of pixels that are not marked yet. *)
Definition nfresh (m : grid) : nat :=
  length (filter (λ p, fresh (px m p) = true) (coords h w)).

Hypothesis fresh_mark : fresh mark = false.

Variables (m0 : grid) (S0 : list pixel).

(** A pixel the fill may step onto, and the region it has to cover. *)
Definition free (q : pixel) : Prop :=
  inb h w q ∧ passable q = true ∧ fresh (px m0 q) = true.

Definition region (p : pixel) : Prop := ∃ s, s ∈ S0 ∧ path free s p.

(** The loop invariant; [l] lists the pixels marked so far, on the stack
    or already popped. *)
Record fill_inv (m : grid) (l : list pixel) : Prop := {
  inv_shape : height m = h ∧ width m = w ∧ rect m;
  inv_nodup : NoDup l;
  inv_marked : ∀ p, p ∈ l ↔ inb h w p ∧ px m p = mark;
  inv_region : ∀ p, p ∈ l → region p;
  inv_frame : ∀ p, inb h w p → px m p ≠ mark → px m p = px m0 p;
  inv_count : (nfresh m + length l = nfresh m0 + length S0)%nat;
  inv_init : ∀ s, s ∈ S0 → s ∈ l
}.

(** Every passable neighbour of a popped pixel has been looked at. *)
Definition closed (m : grid) (vis : list pixel) : Prop :=
  ∀ p q, p ∈ vis → adj4 p q → inb h w q → passable q = true →
    fresh (px m q) = false.

Lemma fill_inv_perm m l l' : l ≡ₚ l' → fill_inv m l → fill_inv m l'.
Proof.
  intros Hp [H1 H2 H3 H4 H5 H6 H7]. split; try done.
  - by rewrite <- Hp.
  - intros p. rewrite <- Hp. apply H3.
  - intros p. rewrite <- Hp. apply H4.
  - by rewrite <- Hp.
  - intros p. rewrite <- Hp. apply H7.
Qed.

Lemma try_mark_cases m s n :
  (try_mark (m, s) n = (m, s) ∧
     ¬ (inb h w n ∧ passable n = true ∧ fresh (px m n) = true)) ∨
  (try_mark (m, s) n = (set2 m n.2 n.1 mark, n :: s) ∧
     inb h w n ∧ passable n = true ∧ fresh (px m n) = true).
Proof.
  unfold try_mark, inb. simpl.
  destruct (0 <=? n.1) eqn:E1, (n.1 <? w) eqn:E2, (0 <=? n.2) eqn:E3,
    (n.2 <? h) eqn:E4, (passable n) eqn:E5, (fresh (px m n)) eqn:E6;
    simpl; try (left; split; [done|]; intros (? & ? & ?); (done || lia)).
  right. split; [done|]. repeat split; try done; lia.
Qed.

Lemma px_set2_eq m p v :
  height m = h ∧ width m = w ∧ rect m → inb h w p →
  px (set2 m p.2 p.1 v) p = v.
Proof.
  intros (Hh & Hw & Hr) [Hx Hy]. unfold px.
  apply get2_set2_eq; [done|lia..].
Qed.

Lemma px_set2_ne m p q v :
  inb h w p → inb h w q → q ≠ p → px (set2 m p.2 p.1 v) q = px m q.
Proof.
  intros [Hx Hy] [Hx' Hy'] Hne. unfold px.
  apply get2_set2_ne; try lia. by destruct p, q.
Qed.

Lemma shape_set2 m p v :
  height m = h ∧ width m = w ∧ rect m →
  height (set2 m p.2 p.1 v) = h ∧ width (set2 m p.2 p.1 v) = w
    ∧ rect (set2 m p.2 p.1 v).
Proof.
  intros (Hh & Hw & Hr).
  rewrite height_set2, width_set2. eauto using rect_set2.
Qed.

Lemma nfresh_set2 m p :
  height m = h ∧ width m = w ∧ rect m → inb h w p →
  fresh (px m p) = true →
  nfresh m = S (nfresh (set2 m p.2 p.1 mark)).
Proof.
  intros Hs Hp Hf. unfold nfresh.
  apply (filter_length_flip _ _ _ p).
  - apply NoDup_coords.
  - by apply elem_of_coords.
  - done.
  - rewrite px_set2_eq by done. by rewrite fresh_mark.
  - intros q Hq Hne. apply elem_of_coords in Hq.
    by rewrite px_set2_ne.
Qed.

(** Marking one neighbour of a pixel that was already reached. *)
Lemma try_mark_inv m stack vis c n :
  fill_inv m (stack ++ vis) → c ∈ stack ++ vis → adj4 c n →
  let st := try_mark (m, stack) n in
  fill_inv st.1 (st.2 ++ vis)
  ∧ (length stack ≤ length st.2)%nat
  ∧ (∀ q, q ∈ stack → q ∈ st.2)
  ∧ (∀ q, inb h w q → fresh (px m q) = false → fresh (px st.1 q) = false)
  ∧ (inb h w n → passable n = true → fresh (px st.1 n) = false).
Proof.
  intros Hinv Hc Hadj.
  destruct (try_mark_cases m stack n) as [[-> Hno]|(-> & Hn & Hpass & Hfr)];
    simpl.
  - split; [done|]. split; [done|]. split; [done|]. split; [done|].
    intros Hn Hpass. destruct (fresh (px m n)) eqn:E; [|done].
    by destruct Hno.
  - destruct Hinv as [Hs Hnd Hm Hreg Hfrm Hcnt Hini].
    assert (px m n ≠ mark) as Hnm.
    { intros E. rewrite E, fresh_mark in Hfr. done. }
    assert (n ∉ stack ++ vis) as Hnl.
    { rewrite Hm. tauto. }
    split; [split|repeat split].
    + by apply shape_set2.
    + by apply NoDup_cons.
    + intros p. rewrite elem_of_cons. split.
      * intros [->|Hp]; [by rewrite px_set2_eq|].
        apply Hm in Hp as Hp'. destruct Hp' as [Hpi Hpm].
        split; [done|]. rewrite px_set2_ne; try done. by intros ->.
      * intros [Hpi Hpm]. destruct (decide (p = n)) as [->|Hne]; [by left|].
        right. apply Hm. rewrite px_set2_ne in Hpm by done. done.
    + intros p [->|Hp]%elem_of_cons; [|by apply Hreg].
      destruct (Hreg c Hc) as (s & Hs0 & Hpath).
      exists s. split; [done|]. eapply path_step; [done..|].
      split; [done|]. split; [done|]. rewrite <- Hfrm; done.
    + intros p Hpi Hpm. destruct (decide (p = n)) as [->|Hne].
      * by rewrite px_set2_eq in Hpm.
      * rewrite px_set2_ne in * by done. by apply Hfrm.
    + simpl. rewrite (nfresh_set2 m n) in Hcnt by done. lia.
    + intros s Hs0. right. by apply Hini.
    + simpl. lia.
    + intros q Hq. by right.
    + intros q Hq Hfq. destruct (decide (q = n)) as [->|Hne].
      * by rewrite px_set2_eq.
      * by rewrite px_set2_ne.
    + intros _ _. by rewrite px_set2_eq.
Qed.

Lemma fold_try_mark_inv vis c ns : ∀ m stack,
  fill_inv m (stack ++ vis) → c ∈ stack ++ vis → (∀ n, n ∈ ns → adj4 c n) →
  let st := foldl try_mark (m, stack) ns in
  fill_inv st.1 (st.2 ++ vis)
  ∧ (length stack ≤ length st.2)%nat
  ∧ (∀ q, q ∈ stack → q ∈ st.2)
  ∧ (∀ q, inb h w q → fresh (px m q) = false → fresh (px st.1 q) = false)
  ∧ (∀ n, n ∈ ns → inb h w n → passable n = true →
       fresh (px st.1 n) = false).
Proof.
  induction ns as [|n ns IH]; intros m stack Hinv Hc Hadj; simpl.
  - repeat (split; [done|]). by intros n Hn%elem_of_nil.
  - destruct (try_mark_inv m stack vis c n Hinv Hc) as (H1 & H2 & H3 & H4 & H5).
    { apply Hadj. left. }
    destruct (try_mark (m, stack) n) as [m1 s1] eqn:E. simpl in *.
    destruct (IH m1 s1 H1) as (K1 & K2 & K3 & K4 & K5).
    { apply elem_of_app in Hc as [Hc|Hc]; apply elem_of_app; auto. }
    { intros n' Hn'. apply Hadj. by right. }
    split; [done|]. split; [lia|]. split; [auto|]. split; [auto|].
    intros n' [->|Hn']%elem_of_cons Hi Hpass; auto.
Qed.

(** With fuel for the pixels still to mark and the stack still to pop,
    the loop ends with its invariant. *)
Lemma drain_inv fuel : ∀ m stack vis acc,
  fill_inv m (stack ++ vis) → closed m vis →
  (2 * nfresh m + length stack ≤ fuel)%nat →
  ∃ m' vis', drain fuel m stack acc = Some (m', foldl visit acc vis')
    ∧ fill_inv m' (vis' ++ vis) ∧ closed m' (vis' ++ vis).
Proof.
  induction fuel as [|fuel IH]; intros m stack vis acc Hinv Hcl Hfuel.
  - destruct stack as [|c stack]; [|simpl in Hfuel; lia].
    exists m, []. done.
  - destruct stack as [|c stack]; [by exists m, []|].
    cbn [length] in Hfuel.
    assert (fill_inv m (stack ++ c :: vis)) as Hinv'.
    { eapply fill_inv_perm; [|done]. simpl. by rewrite Permutation_middle. }
    destruct (fold_try_mark_inv (c :: vis) c (neighbours c) m stack Hinv')
      as (K1 & K2 & K3 & K4 & K5).
    { apply elem_of_app. right. left. }
    { intros n. by rewrite adj4_neighbours. }
    cbn [drain].
    destruct (foldl try_mark (m, stack) (neighbours c)) as [m1 s1].
    cbn [fst snd] in *.
    destruct (IH m1 s1 (c :: vis) (visit acc c) K1) as (m' & vis' & Hd & L1 & L2).
    { intros p q [->|Hp]%elem_of_cons Hadj Hq Hpass.
      - apply K5; [|done..]. by apply adj4_neighbours.
      - apply K4; [done|]. by eapply Hcl. }
    { pose proof (inv_count _ _ K1) as C1.
      pose proof (inv_count _ _ Hinv') as C2.
      rewrite !length_app in C1, C2. cbn [length] in *. lia. }
    exists m', (c :: vis'). split; [exact Hd|]. split.
    + eapply fill_inv_perm; [|done]. simpl. by rewrite Permutation_middle.
    + intros p q Hp. apply L2.
      rewrite elem_of_app, elem_of_cons.
      cbn [app] in Hp. rewrite elem_of_cons, elem_of_app in Hp. tauto.
Qed.

(** The fill from a stack [S0] holding exactly the pixels that carry the
    mark: it ends, marks exactly the region of [S0] and leaves the other
    pixels as they were; [vis'] lists the popped pixels in order. *)
Theorem drain_correct fuel acc :
  height m0 = h ∧ width m0 = w ∧ rect m0 →
  NoDup S0 →
  (∀ p, p ∈ S0 ↔ inb h w p ∧ px m0 p = mark) →
  (2 * nfresh m0 + length S0 ≤ fuel)%nat →
  ∃ m' vis', drain fuel m0 S0 acc = Some (m', foldl visit acc vis')
    ∧ (height m' = h ∧ width m' = w ∧ rect m')
    ∧ NoDup vis'
    ∧ (∀ p, p ∈ vis' ↔ region p)
    ∧ (∀ p, region p → inb h w p ∧ px m' p = mark)
    ∧ (∀ p, inb h w p → ¬ region p → px m' p = px m0 p ∧ px m' p ≠ mark)
    ∧ (nfresh m' + length vis' = nfresh m0 + length S0)%nat.
Proof.
  intros Hs Hnd Hm Hfuel.
  destruct (drain_inv fuel m0 S0 [] acc) as (m' & vis' & Hd & Hinv & Hcl).
  { rewrite app_nil_r. split; try done.
    intros s Hs0. exists s. split; [done|constructor]. }
  { by intros p q Hp%elem_of_nil. }
  { done. }
  rewrite app_nil_r in Hinv, Hcl.
  destruct Hinv as [I1 I2 I3 I4 I5 I6 I7].
  assert (∀ p, region p → p ∈ vis') as Hcomplete.
  { intros p (s & Hs0 & Hpath).
    induction Hpath as [|q r Hpq IHq Hadj (Hri & Hrp & Hrf)]; [by apply I7|].
    pose proof (Hcl q r IHq Hadj Hri Hrp) as Hnf.
    destruct (decide (px m' r = mark)) as [E|E]; [apply I3; done|].
    rewrite (I5 r Hri E) in Hnf. congruence. }
  exists m', vis'. split; [done|]. split; [done|]. split; [done|].
  split; [|split; [|split]].
  - intros p. split; auto.
  - intros p Hp. by apply I3, Hcomplete.
  - intros p Hp Hnr.
    assert (px m' p ≠ mark) as E.
    { intros E. apply Hnr, I4, I3. done. }
    split; [by apply I5|done].
  - done.
Qed.

(** Marking a list of candidate pixels, as the seeding of a fill does:
    the stack receives exactly the candidates that are inside the array,
    passable and not marked yet. *)
Lemma foldl_try_mark_seed cs : ∀ m s,
  height m = h ∧ width m = w ∧ rect m → NoDup s →
  (∀ p, p ∈ s ↔ inb h w p ∧ px m p = mark) →
  let st := foldl try_mark (m, s) cs in
  (height st.1 = h ∧ width st.1 = w ∧ rect st.1)
  ∧ NoDup st.2
  ∧ (∀ p, p ∈ st.2 ↔ inb h w p ∧ px st.1 p = mark)
  ∧ (∀ p, p ∈ st.2 ↔
       p ∈ s ∨ (p ∈ cs ∧ inb h w p ∧ passable p = true
                ∧ fresh (px m p) = true))
  ∧ (∀ p, inb h w p → p ∉ st.2 → px st.1 p = px m p)
  ∧ (nfresh st.1 + length st.2 = nfresh m + length s)%nat.
Proof.
  induction cs as [|c cs IH]; intros m s Hs Hnd Hm; cbn [foldl].
  - cbn [fst snd]. split; [done|]. split; [done|]. split; [done|].
    split; [|done]. intros p. rewrite elem_of_nil. tauto.
  - destruct (try_mark_cases m s c) as [[-> Hno]|(-> & Hc & Hpass & Hfr)].
    + destruct (IH m s Hs Hnd Hm) as (K1 & K2 & K3 & K4 & K5 & K6).
      split; [done|]. split; [done|]. split; [done|]. split; [|done].
      intros p. rewrite K4, elem_of_cons.
      split; [tauto|]. intros [?|([->|?] & ? & ? & ?)]; tauto.
    + assert (px m c ≠ mark) as Hnm.
      { intros E. rewrite E, fresh_mark in Hfr. done. }
      assert (c ∉ s) as Hcs by (rewrite Hm; tauto).
      destruct (IH (set2 m c.2 c.1 mark) (c :: s)) as (K1 & K2 & K3 & K4 & K5 & K6).
      { by apply shape_set2. }
      { by apply NoDup_cons. }
      { intros p. rewrite elem_of_cons. split.
        - intros [->|Hp]; [by rewrite px_set2_eq|].
          apply Hm in Hp as Hp'. destruct Hp' as [Hpi Hpm].
          split; [done|]. rewrite px_set2_ne; try done. by intros ->.
        - intros [Hpi Hpm]. destruct (decide (p = c)) as [->|Hne]; [by left|].
          right. apply Hm. rewrite px_set2_ne in Hpm by done. done. }
      split; [done|]. split; [done|]. split; [done|]. split; [|split].
      * intros p. rewrite K4, !elem_of_cons.
        destruct (decide (p = c)) as [->|Hne].
        { split; [|tauto]. intros _. right. tauto. }
        split.
        { intros [[?|?]|(? & ? & ? & Hf)]; [done|tauto|].
          rewrite px_set2_ne in Hf by done. tauto. }
        { intros [?|([?|?] & Hi & ? & ?)]; [tauto|done|].
          right. rewrite px_set2_ne by done. tauto. }
      * intros p Hp Hnp. rewrite K5 by done.
        apply px_set2_ne; try done. intros ->. apply Hnp, K4. left. left.
      * rewrite K6. cbn [length]. rewrite (nfresh_set2 m c) by done. lia.
Qed.

End fill.

(** ** The outside mask of the floor filler *)

Section floor_mask_facts.
Variable walls : grid.
Let h := height walls.
Let w := width walls.
Let passable := λ p : pixel, px walls p =? 0.
Let fresh := λ v : Z, v =? 0.

Lemma push_if_valid_try_mark st x y :
  push_if_valid walls h w st x y = try_mark h w passable fresh 1 st (x, y).
Proof. by destruct st. Qed.

Lemma seed_border_try_mark st :
  seed_border walls h w st
  = foldl (try_mark h w passable fresh 1) st (border_list h w).
Proof.
  unfold seed_border, border_list. rewrite foldl_app.
  assert (∀ (f : Z → list pixel)
            (g : grid * list pixel → Z → grid * list pixel) l st,
    (∀ st x, g st x = foldl (try_mark h w passable fresh 1) st (f x)) →
    foldl g st l = foldl (try_mark h w passable fresh 1) st (x ← l; f x)) as Hb.
  { intros f g l. induction l as [|a l IH]; intros st' Hg; [done|].
    cbn [foldl]. rewrite IH by done. rewrite Hg.
    by rewrite bind_cons, foldl_app. }
  rewrite <- (Hb (λ x, [(x, 0); (x, h - 1)])
    (λ st x, push_if_valid walls h w (push_if_valid walls h w st x 0) x (h - 1))).
  2: { intros st' x. by rewrite !push_if_valid_try_mark. }
  rewrite <- (Hb (λ y, [(0, y); (w - 1, y)])
    (λ st y, push_if_valid walls h w (push_if_valid walls h w st 0 y) (w - 1) y)).
  2: { intros st' y. by rewrite !push_if_valid_try_mark. }
  done.
Qed.

Lemma flood_loop_drain fuel : ∀ outside stack,
  flood_loop fuel walls h w outside stack
  = fst <$> drain h w passable fresh 1 (λ _ _, tt) fuel outside stack tt.
Proof.
  induction fuel as [|fuel IH]; intros outside stack.
  - by destruct stack as [|[cx cy] stack].
  - destruct stack as [|[cx cy] stack]; [done|].
    cbn [flood_loop drain]. rewrite <- IH. done.
Qed.

Lemma elem_of_border_list p :
  p ∈ border_list h w ∧ inb h w p ↔ inb h w p ∧ border h w p.
Proof.
  unfold border_list, border, inb. destruct p as [x y]. cbn [fst snd].
  rewrite elem_of_app, !list_elem_of_bind. split.
  - intros [[(a & Hp & Ha)|(a & Hp & Ha)] Hi];
      rewrite !elem_of_cons, elem_of_nil in Hp;
      destruct Hp as [?|[?|[]]]; simplify_eq; lia.
  - intros [[Hx Hy] Hb]. split; [|done].
    destruct (decide (x = 0 ∨ x = w - 1)) as [Hc|Hc].
    + right. exists y. rewrite elem_of_seqZ, !elem_of_cons.
      split; [|lia]. destruct Hc as [->| ->]; auto.
    + left. exists x. rewrite elem_of_seqZ, !elem_of_cons.
      split; [|lia]. assert (y = 0 ∨ y = h - 1) as [->| ->] by lia; auto.
Qed.

Hypothesis walls_rect : rect walls.

(** What the flood fill of [generate_floor_mask] computes. *)
Lemma outside_mask_spec :
  ∃ outside, outside_mask walls = Some outside
    ∧ (height outside = h ∧ width outside = w ∧ rect outside)
    ∧ (∀ p, border_reachable walls p → open walls p)
    ∧ (∀ p, inb h w p →
         (px outside p = 1 ∧ border_reachable walls p)
         ∨ (px outside p = 0 ∧ ¬ border_reachable walls p)).
Proof.
  assert (fresh 1 = false) as Hfm by done.
  set (zeros := full_like walls 0).
  assert (height zeros = h ∧ width zeros = w ∧ rect zeros) as Hz.
  { unfold zeros. rewrite height_full_like, width_full_like.
    eauto using rect_full_like. }
  assert (∀ p, inb h w p → px zeros p = 0) as Hz0.
  { intros p [Hx Hy]. unfold px, zeros. by apply get2_full_like. }
  destruct (foldl_try_mark_seed h w passable fresh 1 Hfm (border_list h w)
              zeros [] Hz) as (S1 & S2 & S3 & S4 & S5 & S6).
  { constructor. }
  { intros p. rewrite elem_of_nil. split; [done|].
    intros [Hp E]. rewrite Hz0 in E by done. done. }
  unfold outside_mask. fold h w zeros.
  rewrite seed_border_try_mark.
  destruct (foldl (try_mark h w passable fresh 1) (zeros, []) (border_list h w))
    as [m0 S0].
  cbn [fst snd] in *.
  rewrite flood_loop_drain.
  destruct (drain_correct h w passable fresh 1 (λ _ _, tt) Hfm m0 S0
              (flood_fuel h w) tt S1 S2 S3)
    as (m' & vis & Hd & D1 & D2 & D3 & D4 & D5 & D6).
  { unfold flood_fuel.
    assert (nfresh h w fresh zeros ≤ length (coords h w))%nat
      by apply length_filter.
    cbn [length] in S6. lia. }
  rewrite Hd. cbn. exists m'. split; [done|]. split; [done|].
  assert (∀ p, p ∈ S0 ↔ inb h w p ∧ border h w p ∧ px walls p = 0) as HS0.
  { intros p. rewrite S4, elem_of_nil. split.
    - intros [[]|(Hb & Hi & Hpass & _)].
      apply Z.eqb_eq in Hpass.
      pose proof (proj1 (elem_of_border_list p) (conj Hb Hi)). tauto.
    - intros (Hi & Hb & Hw). right.
      pose proof (proj2 (elem_of_border_list p) (conj Hi Hb)) as [? _].
      split; [done|]. split; [done|]. split; [by apply Z.eqb_eq|].
      unfold fresh. by rewrite Hz0. }
  assert (∀ p, border_reachable walls p → open walls p) as Hopen.
  { intros p (q & Hb & Hq & Hpath). by eapply path_ok. }
  assert (∀ p, region h w passable fresh m0 S0 p ↔ border_reachable walls p)
    as Hreg.
  { intros p. split.
    - intros (s & Hs & Hpath). apply HS0 in Hs as (Hi & Hb & Hw).
      exists s. split; [done|]. split; [done|].
      eapply path_weaken; [|done].
      intros r (Hri & Hrp & _). split; [done|]. by apply Z.eqb_eq.
    - intros (q & Hb & [Hqi Hqw] & Hpath).
      induction Hpath as [|r r' Hqr IH Hadj [Hri Hrw]].
      + exists q. split; [|constructor]. apply HS0. done.
      + destruct (decide (r' ∈ S0)) as [Hin|Hnin].
        { exists r'. split; [done|constructor]. }
        destruct IH as (s & Hs & Hsp). exists s. split; [done|].
        eapply path_step; [done..|].
        split; [done|]. split; [by apply Z.eqb_eq|].
        unfold fresh. rewrite S5, Hz0; done. }
  split; [done|].
  intros p Hp. destruct (decide (p ∈ vis)) as [Hv|Hv].
  - left. apply D3 in Hv. split; [by apply D4|by apply Hreg].
  - right. rewrite D3 in Hv.
    assert (¬ border_reachable walls p) as Hbr by (by rewrite <- Hreg).
    split; [|done].
    destruct (D5 p Hp) as [E _]; [done|].
    rewrite E, S5, Hz0; try done.
    intros Hin. apply Hbr, Hreg. exists p. split; [done|constructor].
Qed.

End floor_mask_facts.

(** ** Arrays computed element by element *)

Section grid_map.
Implicit Types (g a b : grid) (x y : Z).

Lemma height_map2 (f : Z → Z) g : height (map (map f) g) = height g.
Proof. unfold height. by rewrite length_map. Qed.

Lemma width_map2 (f : Z → Z) g : width (map (map f) g) = width g.
Proof. destruct g; simpl; [done|]. by rewrite length_map. Qed.

Lemma rect_map2 (f : Z → Z) g : rect g → rect (map (map f) g).
Proof.
  unfold rect. rewrite width_map2. rewrite !Forall_forall. intros Hg r Hr.
  apply list_elem_of_fmap in Hr as (r' & -> & Hr').
  rewrite length_map. auto.
Qed.

Lemma get2_map2 (f : Z → Z) g y x :
  rect g → 0 ≤ y < height g → 0 ≤ x < width g →
  get2 (map (map f) g) y x = f (get2 g y x).
Proof.
  intros Hg Hy Hx. unfold get2.
  change (map (map f) g) with (map f <$> g). rewrite list_lookup_fmap.
  destruct (lookup_row g y Hy) as [r Hr]. rewrite Hr. simpl.
  change (map f r) with (f <$> r). rewrite list_lookup_fmap.
  destruct (lookup_cell g y x r Hg Hr Hx) as [v' ->]. done.
Qed.

Lemma get2_zip2 (f : Z → Z → Z) a b y x :
  rect a → rect b → height a = height b → width a = width b →
  0 ≤ y < height a → 0 ≤ x < width a →
  get2 (zip_with (zip_with f) a b) y x = f (get2 a y x) (get2 b y x).
Proof.
  intros Ha Hb Hh Hw Hy Hx. unfold get2.
  rewrite lookup_zip_with.
  destruct (lookup_row a y Hy) as [ra Hra].
  destruct (lookup_row b y) as [rb Hrb]; [lia|].
  rewrite Hra, Hrb. simpl. rewrite lookup_zip_with.
  destruct (lookup_cell a y x ra Ha Hra Hx) as [va ->].
  destruct (lookup_cell b y x rb Hb Hrb) as [vb ->]; [lia|]. done.
Qed.

Lemma shape_zip2 (f : Z → Z → Z) a b :
  rect a →
  height b = height a ∧ width b = width a ∧ rect b →
  height (zip_with (zip_with f) a b) = height a
  ∧ width (zip_with (zip_with f) a b) = width a
  ∧ rect (zip_with (zip_with f) a b).
Proof.
  intros Ha (Hh & Hw & Hb).
  assert (∀ r, r ∈ zip_with (zip_with f) a b →
               Z.of_nat (length r) = width a) as Hrows.
  { intros r Hr. apply list_elem_of_lookup in Hr as [i Hi].
    apply lookup_zip_with_Some in Hi as (ra & rb & -> & Hra & Hrb).
    rewrite length_zip_with.
    pose proof (width_rows a ra Ha (list_elem_of_lookup_2 _ _ _ Hra)).
    pose proof (width_rows b rb Hb (list_elem_of_lookup_2 _ _ _ Hrb)).
    lia. }
  assert (width (zip_with (zip_with f) a b) = width a) as Hwid.
  { destruct a as [|ra a], b as [|rb b]; try done.
    cbn [zip_with width]. rewrite length_zip_with.
    cbn [width] in Hw. lia. }
  split; [|split].
  - unfold height in *. rewrite length_zip_with. lia.
  - done.
  - unfold rect. apply Forall_forall. intros r Hr.
    by rewrite (Hrows r Hr), Hwid.
Qed.

End grid_map.

Section floor_mask_claims.
Variable walls : grid.
Hypothesis walls_rect : rect walls.

Lemma px_candidate_floor outside p :
  height outside = height walls ∧ width outside = width walls ∧ rect outside →
  inb (height walls) (width walls) p →
  px (candidate_floor walls outside) p
  = if (px walls p =? 0) && (px outside p =? 0) then 1 else 0.
Proof.
  intros (Hh & Hw & Hr) [Hx Hy]. unfold px, candidate_floor.
  by apply get2_zip2.
Qed.

End floor_mask_claims.

(** C1: the boundary flood fill of [generate_floor_mask] ends, and the
    outside mask it produces is 1 exactly on the non-wall pixels reachable
    from a non-wall border pixel through 4-adjacent non-wall pixels, and 0
    elsewhere; when every border pixel is a wall the outside mask is zero
    everywhere and the candidate floor is exactly the non-wall pixels. *)
Theorem outside_mask_is_border_reachable (walls : grid) :
  rect walls →
  ∃ outside,
    outside_mask walls = Some outside
    ∧ same_shape walls outside
    ∧ (∀ p, inb (height walls) (width walls) p →
         (px outside p = 1 ↔ px walls p = 0 ∧ border_reachable walls p)
         ∧ (px outside p = 0 ∨ px outside p = 1))
    ∧ ((∀ q, inb (height walls) (width walls) q →
             border (height walls) (width walls) q → px walls q ≠ 0) →
       ∀ p, inb (height walls) (width walls) p →
         px outside p = 0
         ∧ px (candidate_floor walls outside) p
           = (if px walls p =? 0 then 1 else 0)).
Proof.
  intros Hw.
  destruct (outside_mask_spec walls Hw) as (outside & Ho & Hs & Hop & Hout).
  exists outside. split; [done|]. split; [|split].
  - destruct Hs as (? & ? & ?). by repeat split.
  - intros p Hp. destruct (Hout p Hp) as [[E Hb]|[E Hb]]; rewrite E.
    + split; [|by right]. split; [|done].
      intros _. split; [|done]. by apply Hop.
    + split; [|by left]. split; [done|tauto].
  - intros Hborder p Hp.
    assert (¬ border_reachable walls p) as Hnb.
    { intros (q & Hq & [Hqi Hqw] & _). by eapply Hborder. }
    rewrite px_candidate_floor by done.
    destruct (Hout p Hp) as [[_ Hb]|[E _]]; [done|].
    rewrite E. split; [done|].
    by destruct (px walls p =? 0).
Qed.

(** A 5 by 5 wall mask: a closed square ring around one floor pixel. *)
Definition ring_walls : grid :=
  [ [0; 0; 0; 0; 0];
    [0; 1; 1; 1; 0];
    [0; 1; 0; 1; 0];
    [0; 1; 1; 1; 0];
    [0; 0; 0; 0; 0] ].

Lemma ring_walls_rect : rect ring_walls.
Proof. unfold rect. repeat constructor. Qed.

Example outside_mask_ring :
  outside_mask ring_walls
  = Some [ [1; 1; 1; 1; 1];
           [1; 0; 0; 0; 1];
           [1; 0; 0; 0; 1];
           [1; 0; 0; 0; 1];
           [1; 1; 1; 1; 1] ].
Proof. vm_compute. reflexivity. Qed.

Lemma outside_mask_is_border_reachable_witness :
  ∃ outside,
    outside_mask ring_walls = Some outside
    ∧ same_shape ring_walls outside
    ∧ (∀ p, inb (height ring_walls) (width ring_walls) p →
         (px outside p = 1 ↔ px ring_walls p = 0 ∧ border_reachable ring_walls p)
         ∧ (px outside p = 0 ∨ px outside p = 1))
    ∧ ((∀ q, inb (height ring_walls) (width ring_walls) q →
             border (height ring_walls) (width ring_walls) q →
             px ring_walls q ≠ 0) →
       ∀ p, inb (height ring_walls) (width ring_walls) p →
         px outside p = 0
         ∧ px (candidate_floor ring_walls outside) p
           = (if px ring_walls p =? 0 then 1 else 0)).
Proof.
  apply (outside_mask_is_border_reachable ring_walls).
  unfold rect. repeat constructor.
Defined.

Section binarize_facts.
Variables (gray : grid) (t : Z).
Hypothesis gray_rect : rect gray.

Lemma height_binarize : height (binarize gray t) = height gray.
Proof. apply height_map2. Qed.

Lemma width_binarize : width (binarize gray t) = width gray.
Proof. apply width_map2. Qed.

Lemma rect_binarize : rect (binarize gray t).
Proof. by apply rect_map2. Qed.

Lemma px_binarize p :
  inb (height gray) (width gray) p →
  px (binarize gray t) p = if px gray p <? t then 1 else 0.
Proof. intros [Hx Hy]. unfold px, binarize. by rewrite get2_map2. Qed.

End binarize_facts.

(** C10: before filtering and smoothing, the wall mask, the outside mask and
    the candidate floor mask of [generate_floor_mask] partition the pixel
    grid: every pixel is set in exactly one of the three. *)
Theorem masks_partition (gray : grid) :
  rect gray →
  ∃ outside,
    outside_mask (binarize gray WALL_THRESHOLD) = Some outside
    ∧ ∀ p, inb (height gray) (width gray) p →
        let wall := px (binarize gray WALL_THRESHOLD) p in
        let out := px outside p in
        let floor := px (candidate_floor (binarize gray WALL_THRESHOLD) outside) p in
        (wall = 1 ∧ out = 0 ∧ floor = 0)
        ∨ (wall = 0 ∧ out = 1 ∧ floor = 0)
        ∨ (wall = 0 ∧ out = 0 ∧ floor = 1).
Proof.
  intros Hg. set (walls := binarize gray WALL_THRESHOLD).
  assert (rect walls) as Hw by (by apply rect_binarize).
  assert (height walls = height gray) as Hh by apply height_binarize.
  assert (width walls = width gray) as Hwd by apply width_binarize.
  destruct (outside_mask_spec walls Hw) as (outside & Ho & Hs & Hop & Hout).
  exists outside. split; [done|]. intros p Hp. cbv zeta.
  rewrite <- Hh, <- Hwd in Hp.
  rewrite px_candidate_floor by done.
  assert (px walls p = 0 ∨ px walls p = 1) as Hbin.
  { unfold walls. rewrite px_binarize; [|done|by rewrite <- Hh, <- Hwd].
    destruct (px gray p <? WALL_THRESHOLD); auto. }
  destruct (Hout p Hp) as [[E Hb]|[E Hb]]; rewrite E.
  - right. left. destruct (Hop p Hb) as [_ ->]. done.
  - destruct Hbin as [-> | ->]; auto.
Qed.

(** A grayscale picture of [ring_walls]: dark walls on a white ground. *)
Definition ring_gray : grid :=
  [ [255; 255; 255; 255; 255];
    [255;   0;  10;  39; 255];
    [255;   0; 255;  20; 255];
    [255;   5;   0;   0; 255];
    [255;  40; 255; 255; 255] ].

Example binarize_ring_gray : binarize ring_gray WALL_THRESHOLD = ring_walls.
Proof. reflexivity. Qed.

Lemma masks_partition_witness :
  ∃ outside,
    outside_mask (binarize ring_gray WALL_THRESHOLD) = Some outside
    ∧ ∀ p, inb (height ring_gray) (width ring_gray) p →
        let wall := px (binarize ring_gray WALL_THRESHOLD) p in
        let out := px outside p in
        let floor :=
          px (candidate_floor (binarize ring_gray WALL_THRESHOLD) outside) p in
        (wall = 1 ∧ out = 0 ∧ floor = 0)
        ∨ (wall = 0 ∧ out = 1 ∧ floor = 0)
        ∨ (wall = 0 ∧ out = 0 ∧ floor = 1).
Proof.
  apply (masks_partition ring_gray).
  unfold rect. repeat constructor.
Defined.

(** Two blobs that touch only diagonally, and a third one. *)
Definition blobs : grid :=
  [ [1; 1; 0; 0];
    [0; 0; 1; 0];
    [0; 0; 1; 1];
    [1; 0; 0; 0] ].

Example connected_components_blobs :
  connected_components blobs
  = Some ([ [ 0;  0; -1; -1];
            [-1; -1;  1; -1];
            [-1; -1;  1;  1];
            [ 2; -1; -1; -1] ],
          [ mkStat 0 0 2 1 2; mkStat 2 1 2 2 3; mkStat 0 3 1 1 1 ]).
Proof. vm_compute. reflexivity. Qed.

(** ** The fill of one component *)

Section labeler_fill.
Variable mask : grid.
Local Abbreviation h := (height mask).
Local Abbreviation w := (width mask).

(** The pixel test and the "not labelled yet" test of the labeler. *)
Definition lab_passable (p : pixel) : bool := negb (px mask p =? 0).
Definition lab_fresh (v : Z) : bool := v =? -1.

Lemma labeler_neighbour_try_mark (current : Z) (st : grid * list pixel) (nx ny : Z) :
  (if (nx <? 0) || (nx >=? w) || (ny <? 0) || (ny >=? h)
   then st
   else if (get2 mask ny nx =? 0) || negb (get2 st.1 ny nx =? -1)
   then st
   else (set2 st.1 ny nx current, (nx, ny) :: st.2))
  = try_mark h w lab_passable lab_fresh current st (nx, ny).
Proof.
  unfold try_mark, lab_passable, lab_fresh, px. cbn [fst snd].
  rewrite !Z.geb_leb.
  destruct (Z.ltb_spec nx 0), (Z.leb_spec 0 nx); try lia;
    destruct (Z.leb_spec w nx), (Z.ltb_spec nx w); try lia;
    destruct (Z.ltb_spec ny 0), (Z.leb_spec 0 ny); try lia;
    destruct (Z.leb_spec h ny), (Z.ltb_spec ny h); try lia;
    cbn [orb andb]; try done.
  by destruct (get2 mask ny nx =? 0), (get2 st.1 ny nx =? -1).
Qed.

Lemma fill_component_drain fuel current : ∀ lbl stack b,
  fill_component fuel mask h w current lbl stack b
  = drain h w lab_passable lab_fresh current grow fuel lbl stack b.
Proof.
  induction fuel as [|fuel IH]; intros lbl stack b.
  - by destruct stack as [|[cx cy] stack].
  - destruct stack as [|[cx cy] stack]; [done|].
    cbn [fill_component drain]. rewrite IH.
    unfold neighbours, directions. cbn [foldl fmap list_fmap fst snd].
    by rewrite !labeler_neighbour_try_mark.
Qed.

(** What [grow] accumulates over the popped pixels. *)
Lemma foldl_grow_area l : ∀ b,
  area (foldl grow b l) = area b + Z.of_nat (length l).
Proof.
  induction l as [|[cx cy] l IH]; intros b; cbn [foldl length].
  - lia.
  - rewrite IH. simpl. lia.
Qed.

Lemma foldl_grow_bounds l : ∀ b,
  let b' := foldl grow b l in
  (min_x b' ≤ min_x b ∧ max_x b ≤ max_x b'
   ∧ min_y b' ≤ min_y b ∧ max_y b ≤ max_y b')
  ∧ (∀ p, p ∈ l → min_x b' ≤ p.1 ≤ max_x b' ∧ min_y b' ≤ p.2 ≤ max_y b')
  ∧ (min_x b' = min_x b ∨ ∃ p, p ∈ l ∧ p.1 = min_x b')
  ∧ (max_x b' = max_x b ∨ ∃ p, p ∈ l ∧ p.1 = max_x b')
  ∧ (min_y b' = min_y b ∨ ∃ p, p ∈ l ∧ p.2 = min_y b')
  ∧ (max_y b' = max_y b ∨ ∃ p, p ∈ l ∧ p.2 = max_y b').
Proof.
  induction l as [|[cx cy] l IH]; intros b; cbn [foldl].
  - cbv zeta. split; [lia|]. split; [by intros p Hp%elem_of_nil|]. auto.
  - specialize (IH (grow b (cx, cy))). cbv zeta in *.
    destruct IH as (I1 & I2 & I3 & I4 & I5 & I6).
    set (b' := foldl grow (grow b (cx, cy)) l) in *.
    cbn [grow min_x max_x min_y max_y] in *.
    split; [lia|]. split.
    { intros p [->|Hp]%elem_of_cons; [cbn [fst snd]; lia|by apply I2]. }
    assert (∀ (f : pixel → Z) v,
      (∃ p, p ∈ l ∧ f p = v) → ∃ p, p ∈ (cx, cy) :: l ∧ f p = v) as Hex.
    { intros f v (p & Hp & E). exists p. split; [by right|done]. }
    assert ((cx, cy) ∈ (cx, cy) :: l) as Hc by left.
    repeat split.
    + destruct I3 as [E|?]; [|right; by apply Hex].
      destruct (Z.min_spec (min_x b) cx) as [[? E']|[? E']]; [left; lia|].
      right. exists (cx, cy). split; [done|]. cbn [fst]. lia.
    + destruct I4 as [E|?]; [|right; by apply Hex].
      destruct (Z.max_spec (max_x b) cx) as [[? E']|[? E']]; [|left; lia].
      right. exists (cx, cy). split; [done|]. cbn [fst]. lia.
    + destruct I5 as [E|?]; [|right; by apply Hex].
      destruct (Z.min_spec (min_y b) cy) as [[? E']|[? E']]; [left; lia|].
      right. exists (cx, cy). split; [done|]. cbn [snd]. lia.
    + destruct I6 as [E|?]; [|right; by apply Hex].
      destruct (Z.max_spec (max_y b) cy) as [[? E']|[? E']]; [|left; lia].
      right. exists (cx, cy). split; [done|]. cbn [snd]. lia.
Qed.

End labeler_fill.

(** ** The row-major scan *)

Section scan_order.
Implicit Types (p q r : pixel).

Lemma rm_lt_irrefl p : ¬ rm_lt p p.
Proof. unfold rm_lt. lia. Qed.

Lemma rm_lt_trans p q r : rm_lt p q → rm_lt q r → rm_lt p r.
Proof. unfold rm_lt. lia. Qed.

Lemma rm_lt_asym p q : rm_lt p q → ¬ rm_lt q p.
Proof. unfold rm_lt. lia. Qed.

Lemma rm_le_antisym p q : rm_le p q → rm_le q p → p = q.
Proof.
  intros [->|H1] [E|H2]; try done. by destruct (rm_lt_asym p q).
Qed.

Lemma foldl_bind {A B C} (f : A → C → A) (g : B → list C) (l : list B) :
  ∀ a, foldl f a (l ≫= g) = foldl (λ a b, foldl f a (g b)) a l.
Proof.
  induction l as [|b l IH]; intros a; [done|].
  rewrite bind_cons, foldl_app. cbn [foldl]. apply IH.
Qed.

Lemma seqZ_sorted (n : nat) : ∀ m, StronglySorted Z.lt (seqZ m (Z.of_nat n)).
Proof.
  induction n as [|n IH]; intros m.
  - rewrite seqZ_nil by done. constructor.
  - rewrite seqZ_cons by lia.
    replace (Z.pred (Z.of_nat (S n))) with (Z.of_nat n) by lia.
    constructor; [apply IH|].
    apply Forall_forall. intros k Hk%elem_of_seqZ. lia.
Qed.

Lemma coords_sorted h w : StronglySorted rm_lt (coords h w).
Proof.
  unfold coords.
  assert (∀ l : list Z, StronglySorted Z.lt l →
    StronglySorted rm_lt (y ← l; (λ x, (x, y)) <$> seqZ 0 w)) as Hb.
  { induction 1 as [|y l Hl IH Hy]; [constructor|].
    rewrite bind_cons. apply StronglySorted_app. split; [|split].
    - intros p q Hp Hq.
      apply list_elem_of_fmap in Hp as (x & -> & _).
      apply list_elem_of_bind in Hq as (y' & Hq & Hy').
      apply list_elem_of_fmap in Hq as (x' & -> & _).
      rewrite Forall_forall in Hy. left. cbn [snd]. by apply Hy.
    - destruct (decide (0 ≤ w)) as [Hw|Hw].
      + eapply (StronglySorted_fmap _ Z.lt).
        * intros x x' Hx. right. cbn [fst snd]. done.
        * rewrite <- (Z2Nat.id w) by done. apply seqZ_sorted.
      + rewrite seqZ_nil by lia. constructor.
    - done. }
  apply Hb. destruct (decide (0 ≤ h)) as [Hh|Hh].
  - rewrite <- (Z2Nat.id h) by done. apply seqZ_sorted.
  - rewrite seqZ_nil by lia. constructor.
Qed.

(** Scanning [coords h w] visits the pixels before [p], then [p], then
    the pixels after it. *)
Lemma coords_split h w seen p rest :
  coords h w = seen ++ p :: rest →
  inb h w p
  ∧ (p ∉ seen)
  ∧ (∀ d, d ∈ seen → inb h w d ∧ rm_lt d p)
  ∧ (∀ q, inb h w q → q ∉ seen → rm_le p q).
Proof.
  intros E. pose proof (coords_sorted h w) as Hs.
  pose proof (NoDup_coords h w) as Hnd. rewrite E in Hs, Hnd.
  apply StronglySorted_app in Hs as (H1 & _ & H2).
  apply StronglySorted_cons in H2 as [H2 _]. rewrite Forall_forall in H2.
  apply NoDup_app in Hnd as (_ & Hnd & _).
  assert (∀ q, inb h w q ↔ q ∈ seen ∨ q = p ∨ q ∈ rest) as Hin.
  { intros q. rewrite <- elem_of_coords, E, elem_of_app, elem_of_cons. done. }
  split; [apply Hin; auto|]. split.
  { intros Hp. apply (Hnd p Hp). left. }
  split.
  - intros d Hd. split; [apply Hin; auto|]. apply H1; [done|left].
  - intros q Hq Hnq. apply Hin in Hq as [?|[->|Hq]]; [done|by left|].
    right. by apply H2.
Qed.

End scan_order.

(** ** The invariant of the labelling scan *)

Section labeler_scan.
Variable mask : grid.
Hypothesis mask_rect : rect mask.
Local Abbreviation h := (height mask).
Local Abbreviation w := (width mask).

Definition total_area (l : list Stat) : Z :=
  foldr (λ st a, st_area st + a) 0 l.

(** [seen] are the pixels scanned so far and [seeds] the pixels at which
    a fill was started, in order. *)
Record scan_inv (seen seeds : list pixel) (s : Scan) : Prop := {
  si_shape :
    height (labels s) = h ∧ width (labels s) = w ∧ rect (labels s);
  si_current : current s = Z.of_nat (length (stats s));
  si_range : ∀ p, inb h w p →
    px (labels s) p = -1 ∨ 0 ≤ px (labels s) p < current s;
  si_bg : ∀ p, inb h w p → px mask p = 0 → px (labels s) p = -1;
  si_seen : ∀ p, p ∈ seen → px mask p ≠ 0 → px (labels s) p ≠ -1;
  si_conn : ∀ p q, inb h w p → inb h w q → px (labels s) p ≠ -1 →
    (px (labels s) q = px (labels s) p ↔ connected mask p q);
  si_stats : ∀ i st, stats s !! i = Some st →
    ∃ l, NoDup l
         ∧ (∀ p, p ∈ l ↔ inb h w p ∧ px (labels s) p = Z.of_nat i)
         ∧ summarises st l;
  si_seeds :
    length seeds = length (stats s)
    ∧ StronglySorted rm_lt seeds
    ∧ ∀ i sd, seeds !! i = Some sd →
        sd ∈ seen ∧ px (labels s) sd = Z.of_nat i
        ∧ first_of h w (labels s) sd;
  si_count :
    Z.of_nat (nfresh h w lab_fresh (labels s)) + total_area (stats s)
    = Z.of_nat (length (coords h w))
}.

Lemma total_area_snoc l st : total_area (l ++ [st]) = total_area l + st_area st.
Proof.
  unfold total_area. induction l as [|a l IH]; simpl; [lia|].
  rewrite IH. lia.
Qed.

Lemma scan_inv_labelled_fg seen seeds s p :
  scan_inv seen seeds s → inb h w p → px (labels s) p ≠ -1 → fg mask p.
Proof.
  intros Hinv Hp Hl. split; [done|]. intros E.
  by apply Hl, (si_bg _ _ _ Hinv).
Qed.

(** The scan starts from an array of -1 and no component. *)
Lemma scan_inv_start :
  scan_inv [] [] {| labels := full_like mask (-1); stats := []; current := 0 |}.
Proof.
  assert (∀ p, inb h w p → px (full_like mask (-1)) p = -1) as Hm.
  { intros p [Hx Hy]. unfold px. by apply get2_full_like. }
  split; cbn [labels stats current length].
  - rewrite height_full_like, width_full_like. eauto using rect_full_like.
  - done.
  - intros p Hp. left. by apply Hm.
  - intros p Hp _. by apply Hm.
  - by intros p Hp%elem_of_nil.
  - intros p q Hp Hq Hl. by rewrite Hm in Hl.
  - intros i st Hi. by rewrite lookup_nil in Hi.
  - split; [done|]. split; [constructor|].
    intros i sd Hi. by rewrite lookup_nil in Hi.
  - unfold nfresh, total_area. cbn [foldr]. rewrite Z.add_0_r. f_equal.
    apply filter_length_all. intros p Hp%elem_of_coords. by rewrite Hm.
Qed.

(** A pixel that is background or already labelled is passed over. *)
Lemma scan_inv_skip seen seeds s p :
  scan_inv seen seeds s →
  (px mask p ≠ 0 → px (labels s) p ≠ -1) →
  scan_inv (seen ++ [p]) seeds s.
Proof.
  intros [I1 I2 I3 I4 I5 I6 I7 (I8 & I9 & I10) I11] Hskip.
  split; try done.
  - intros q [Hq|Hq%list_elem_of_singleton]%elem_of_app; [by apply I5|].
    by subst q.
  - split; [done|]. split; [done|].
    intros i sd Hi. destruct (I10 i sd Hi) as (? & ? & ?).
    split; [|done]. apply elem_of_app. by left.
Qed.

Lemma path_last (ok : pixel → Prop) p q : path ok p q → q = p ∨ ok q.
Proof. destruct 1; auto. Qed.

(** A fresh foreground pixel starts a fill that labels exactly its
    4-connected component. *)
Lemma scan_inv_fill seen rest seeds s p :
  coords h w = seen ++ p :: rest →
  scan_inv seen seeds s →
  px mask p ≠ 0 → px (labels s) p = -1 →
  ∃ lbl' b,
    fill_component (fill_fuel h w) mask h w (current s)
      (set2 (labels s) p.2 p.1 (current s)) [p]
      {| area := 0; min_x := p.1; max_x := p.1; min_y := p.2; max_y := p.2 |}
    = Some (lbl', b)
    ∧ scan_inv (seen ++ [p]) (seeds ++ [p])
        {| labels := lbl';
           stats := stats s ++
                      [ {| st_x := min_x b;
                           st_y := min_y b;
                           st_w := max_x b - min_x b + 1;
                           st_h := max_y b - min_y b + 1;
                           st_area := area b |} ];
           current := current s + 1 |}.
Proof.
  intros Hco Hinv Hm Hl.
  destruct (coords_split _ _ _ _ _ Hco) as (Hp & Hpns & Hseen & Hrest).
  pose proof Hinv as [I1 I2 I3 I4 I5 I6 I7 (I8 & I9 & I10) I11].
  set (cur := current s) in *. set (L := labels s) in *.
  set (L1 := set2 L p.2 p.1 cur).
  set (b0 := {| area := 0; min_x := p.1; max_x := p.1;
                min_y := p.2; max_y := p.2 |}).
  assert (0 ≤ cur) as Hcur by lia.
  assert (lab_fresh cur = false) as Hfm.
  { unfold lab_fresh. apply Z.eqb_neq. lia. }
  assert (fg mask p) as Hfg by done.
  assert (px L1 p = cur) as HL1p by (by apply (px_set2_eq h w)).
  assert (∀ q, inb h w q → q ≠ p → px L1 q = px L q) as HL1q.
  { intros q Hq Hne. by apply (px_set2_ne h w). }
  rewrite fill_component_drain.
  destruct (drain_correct h w (lab_passable mask) lab_fresh cur grow Hfm L1 [p]
              (fill_fuel h w) b0)
    as (lbl' & vis & Hd & D1 & D2 & D3 & D4 & D5 & D6).
  { by apply shape_set2. }
  { apply NoDup_singleton. }
  { intros q. rewrite list_elem_of_singleton. split; [by intros ->|].
    intros [Hq E]. destruct (decide (q = p)) as [|Hne]; [done|].
    rewrite HL1q in E by done. destruct (I3 q Hq); lia. }
  { unfold fill_fuel.
    assert (nfresh h w lab_fresh L ≤ length (coords h w))%nat
      by apply length_filter.
    rewrite (nfresh_set2 h w lab_fresh cur Hfm L p) in H; try done.
    - fold L1 in H. cbn [length]. lia.
    - unfold lab_fresh. by rewrite Hl. }
  exists lbl', (foldl grow b0 vis). split; [done|].
  set (reg := region h w (lab_passable mask) lab_fresh L1 [p]) in *.
  assert (reg p) as Hregp.
  { exists p. split; [by apply list_elem_of_singleton|constructor]. }
  assert (∀ q, reg q ↔ connected mask p q) as Hreg.
  { intros q. split.
    - intros (s0 & Hs0%list_elem_of_singleton & Hpath). subst s0.
      eapply path_weaken; [|done].
      intros r (Hr & Hpass & _). split; [done|].
      unfold lab_passable in Hpass. apply negb_true_iff, Z.eqb_neq in Hpass. done.
    - intros Hpath.
      induction Hpath as [|r r' Hpr IH Hadj [Hri Hrm]]; [done|].
      destruct (decide (r' = p)) as [->|Hne]; [done|].
      destruct (decide (px L r' = -1)) as [E|E].
      + destruct IH as (s0 & Hs0 & Hsp). exists s0. split; [done|].
        eapply path_step; [done..|].
        split; [done|]. split.
        * unfold lab_passable. by apply negb_true_iff, Z.eqb_neq.
        * unfold lab_fresh. rewrite HL1q by done. by apply Z.eqb_eq.
      + exfalso.
        assert (connected mask r' p) as Hc.
        { apply path_sym; [done|]. eapply path_step; done. }
        apply (I6 r' p Hri Hp E) in Hc. lia. }
  assert (∀ q, reg q →
    inb h w q ∧ px lbl' q = cur ∧ px L q = -1 ∧ fg mask q) as Hnew.
  { intros q Hq. destruct (D4 q Hq) as [Hqi Hqc].
    split; [done|]. split; [done|]. split.
    - destruct Hq as (s0 & Hs0%list_elem_of_singleton & Hpath). subst s0.
      apply path_last in Hpath as [->|(_ & _ & Hf)]; [done|].
      destruct (decide (q = p)) as [->|Hne]; [done|].
      rewrite HL1q in Hf by done. by apply Z.eqb_eq.
    - apply Hreg in Hq. by eapply path_ok. }
  assert (∀ q, inb h w q → ¬ reg q →
    px lbl' q = px L q ∧ px lbl' q ≠ cur) as Hold.
  { intros q Hq Hnr. destruct (D5 q Hq Hnr) as [E Hne].
    split; [|done]. rewrite E. apply HL1q; [done|]. by intros ->. }
  assert (∀ q, reg q ∨ ¬ reg q) as Hdec.
  { intros q. destruct (decide (q ∈ vis)) as [Hv|Hv]; rewrite D3 in Hv; auto. }
  split; cbn [labels stats current].
  - done.
  - rewrite length_app. cbn [length]. lia.
  - intros q Hq. destruct (Hdec q) as [Hr|Hr].
    + right. destruct (Hnew q Hr) as (_ & -> & _). lia.
    + destruct (Hold q Hq Hr) as [-> _]. destruct (I3 q Hq); [by left|right; lia].
  - intros q Hq Hq0. destruct (Hdec q) as [Hr|Hr].
    + destruct (Hnew q Hr) as (_ & _ & _ & [_ Hf]). done.
    + destruct (Hold q Hq Hr) as [-> _]. by apply I4.
  - intros q Hqs Hqm. destruct (Hdec q) as [Hr|Hr].
    + destruct (Hnew q Hr) as (_ & -> & _). lia.
    + assert (q ∈ seen) as Hqseen.
      { apply elem_of_app in Hqs as [?|Hqp%list_elem_of_singleton]; [done|].
        by subst q. }
      destruct (Hold q (proj1 (Hseen q Hqseen)) Hr) as [-> _]. by apply I5.
  - intros a b Ha Hb Hla. destruct (Hdec a) as [Hra|Hra].
    + destruct (Hnew a Hra) as (_ & Ea & _ & Hfa). rewrite Ea.
      apply Hreg in Hra as Hpa.
      assert (reg b ↔ connected mask a b) as Hab.
      { rewrite Hreg. split; intros Hc.
        - eapply path_trans; [|done]. by apply path_sym.
        - by eapply path_trans. }
      rewrite <- Hab. split; intros Hx.
      * destruct (Hdec b) as [?|Hrb]; [done|].
        by destruct (Hold b Hb Hrb) as [_ ?].
      * by destruct (Hnew b Hx) as (_ & ? & _).
    + destruct (Hold a Ha Hra) as [Ea _]. rewrite Ea in *.
      destruct (Hdec b) as [Hrb|Hrb].
      * destruct (Hnew b Hrb) as (_ & Eb & _ & Hfb). rewrite Eb.
        split; intros Hx.
        { destruct (I3 a Ha); lia. }
        { exfalso. apply Hra, Hreg. apply Hreg in Hrb.
          eapply path_trans; [done|]. apply path_sym; [|done].
          by eapply scan_inv_labelled_fg. }
      * destruct (Hold b Hb Hrb) as [-> _]. by apply I6.
  - intros i st Hi. apply lookup_snoc_Some in Hi as [[Hlt Hi]|[-> <-]].
    + destruct (I7 i st Hi) as (l & Hnd & Hl' & Hsum).
      exists l. split; [done|]. split; [|done].
      intros q. rewrite Hl'. split; intros [Hq E]; (split; [done|]).
      * destruct (Hdec q) as [Hr|Hr].
        { destruct (Hnew q Hr) as (_ & _ & ? & _). lia. }
        { by destruct (Hold q Hq Hr) as [-> _]. }
      * destruct (Hdec q) as [Hr|Hr].
        { destruct (Hnew q Hr) as (_ & ? & _). lia. }
        { by destruct (Hold q Hq Hr) as [<- _]. }
    + exists vis. split; [done|]. split.
      * intros q. rewrite D3, <- I2. fold cur. split.
        { intros Hr. by destruct (Hnew q Hr) as (? & ? & _). }
        { intros [Hq E]. destruct (Hdec q) as [?|Hr]; [done|].
          by destruct (Hold q Hq Hr) as [_ ?]. }
      * assert (p ∈ vis) as Hpv by (by apply D3).
        pose proof (foldl_grow_area vis b0) as Ha.
        destruct (foldl_grow_bounds vis b0) as (B1 & B2 & B3 & B4 & B5 & B6).
        cbv zeta in *.
        set (b := foldl grow b0 vis) in *.
        cbn [area min_x max_x min_y max_y b0] in *.
        unfold summarises. cbn [st_x st_y st_w st_h st_area].
        split; [lia|]. split.
        { intros q Hq. specialize (B2 q Hq). lia. }
        split; [destruct B3 as [->|?]; [by exists p|done]|].
        split.
        { destruct B4 as [E|(q & Hq & E)]; [exists p|exists q];
            (split; [done|lia]). }
        split; [destruct B5 as [->|?]; [by exists p|done]|].
        destruct B6 as [E|(q & Hq & E)]; [exists p|exists q];
          (split; [done|lia]).
  - split; [by rewrite !length_app, I8|]. split.
    + apply StronglySorted_app. split; [|split; [done|repeat constructor]].
      intros a b Ha Hb%list_elem_of_singleton. subst b.
      apply list_elem_of_lookup in Ha as [i Hi].
      destruct (I10 i a Hi) as (Has & _). by apply Hseen.
    + intros i sd Hi. apply lookup_snoc_Some in Hi as [[Hlt Hi]|[Hi <-]].
      * destruct (I10 i sd Hi) as (Hsd & Esd & [Hsdi Hfirst]).
        assert (¬ reg sd) as Hnr.
        { intros Hr. destruct (Hnew sd Hr) as (_ & _ & ? & _). lia. }
        destruct (Hold sd Hsdi Hnr) as [Esd' _].
        split; [apply elem_of_app; by left|]. split; [by rewrite Esd'|].
        split; [done|]. intros q Hq. rewrite Esd'. intros E.
        apply Hfirst; [done|].
        destruct (Hdec q) as [Hr|Hr].
        { destruct (Hnew q Hr) as (_ & ? & _). rewrite I8 in Hlt. lia. }
        { by destruct (Hold q Hq Hr) as [<- _]. }
      * destruct (Hnew p Hregp) as (_ & Ep & _).
        split; [apply elem_of_app; right; by apply list_elem_of_singleton|].
        split; [rewrite Ep, Hi, I8; fold cur; lia|].
        split; [done|]. intros q Hq. rewrite Ep. intros E.
        apply Hrest; [done|]. intros Hqs.
        destruct (Hdec q) as [Hr|Hr].
        { destruct (Hnew q Hr) as (_ & _ & Eq & [_ Hf]).
          by apply (I5 q Hqs Hf). }
        { by destruct (Hold q Hq Hr) as [_ ?]. }
  - rewrite total_area_snoc. cbn [st_area].
    rewrite (foldl_grow_area vis b0). cbn [area b0].
    assert (nfresh h w lab_fresh L = S (nfresh h w lab_fresh L1)) as Hn.
    { apply (nfresh_set2 h w lab_fresh cur Hfm L p); try done.
      unfold lab_fresh. by rewrite Hl. }
    cbn [length] in D6. lia.
Qed.

Lemma scan_pixel_inv seen rest seeds s p :
  coords h w = seen ++ p :: rest →
  scan_inv seen seeds s →
  ∃ s' seeds',
    scan_pixel (fill_fuel h w) mask h w (Some s) p = Some s'
    ∧ scan_inv (seen ++ [p]) seeds' s'.
Proof.
  intros Hco Hinv. destruct p as [x y]. unfold scan_pixel.
  cbn [mbind option_bind].
  destruct ((get2 mask y x =? 0) || negb (get2 (labels s) y x =? -1)) eqn:E.
  - exists s, seeds. split; [done|]. apply scan_inv_skip; [done|].
    unfold px. cbn [fst snd]. intros Hm.
    apply orb_true_iff in E as [E|E].
    + by apply Z.eqb_eq in E.
    + by apply negb_true_iff, Z.eqb_neq in E.
  - apply orb_false_iff in E as [E1 E2].
    apply Z.eqb_neq in E1. apply negb_false_iff, Z.eqb_eq in E2.
    destruct (scan_inv_fill seen rest seeds s (x, y) Hco Hinv E1 E2)
      as (lbl' & b & Hfill & Hinv').
    cbn [fst snd] in Hfill. rewrite Hfill. cbn [fst snd].
    eexists _, _. split; [done|]. exact Hinv'.
Qed.

Lemma scan_all_inv rest : ∀ seen seeds s,
  coords h w = seen ++ rest →
  scan_inv seen seeds s →
  ∃ s' seeds',
    foldl (scan_pixel (fill_fuel h w) mask h w) (Some s) rest = Some s'
    ∧ scan_inv (coords h w) seeds' s'.
Proof.
  induction rest as [|p rest IH]; intros seen seeds s Hco Hinv.
  - rewrite app_nil_r in Hco. rewrite Hco. by exists s, seeds.
  - destruct (scan_pixel_inv seen rest seeds s p Hco Hinv)
      as (s1 & seeds1 & Hstep & Hinv1).
    cbn [foldl]. rewrite Hstep.
    apply (IH (seen ++ [p]) seeds1); [|done].
    by rewrite <- app_assoc.
Qed.

Lemma foldl_coords {A} (f : A → pixel → A) (h' w' : Z) (a : A) :
  foldl f a (coords h' w')
  = foldl (λ a y, foldl (λ a x, f a (x, y)) a (seqZ 0 w')) a (seqZ 0 h').
Proof.
  unfold coords. rewrite foldl_bind.
  generalize (seqZ 0 h'). intros l. revert a.
  induction l as [|y l IH]; intros a; [done|].
  cbn [foldl]. by rewrite foldl_fmap, IH.
Qed.

(** The labeler ends, and its result satisfies the scan invariant over
    the whole array. *)
Lemma connected_components_spec :
  ∃ lbl sts seeds,
    connected_components mask = Some (lbl, sts)
    ∧ scan_inv (coords h w) seeds
        {| labels := lbl; stats := sts; current := Z.of_nat (length sts) |}.
Proof.
  destruct (scan_all_inv (coords h w) [] [] _ eq_refl scan_inv_start)
    as (s' & seeds' & Hfold & Hinv).
  unfold connected_components. rewrite <- foldl_coords, Hfold.
  cbn [mbind option_bind]. exists (labels s'), (stats s'), seeds'.
  split; [done|].
  rewrite <- (si_current _ _ _ Hinv). by destruct s'.
Qed.

End labeler_scan.

Lemma StronglySorted_lookup_lt {A} (R : relation A) (l : list A) :
  StronglySorted R l →
  ∀ i j a b, l !! i = Some a → l !! j = Some b → (i < j)%nat → R a b.
Proof.
  induction 1 as [|x l Hl IH Hx]; intros i j a b Hi Hj Hlt.
  - by rewrite lookup_nil in Hi.
  - destruct j as [|j]; [lia|]. cbn in Hj.
    destruct i as [|i]; cbn in Hi.
    + injection Hi as <-. rewrite Forall_forall in Hx.
      by eapply Hx, list_elem_of_lookup_2.
    + eapply IH; [done..|lia].
Qed.

(** C2: the labeler ends; in the label grid every background pixel keeps
    -1 and every foreground pixel has a label from 0 up to the number of
    components; every such label is used, and labels grow with the
    row-major position of the first pixel of their component; two
    foreground pixels have the same label exactly when a path of
    4-adjacent foreground pixels joins them. *)
Theorem connected_components_labels (mask : grid) :
  rect mask →
  ∃ lbl sts,
    connected_components mask = Some (lbl, sts)
    ∧ same_shape mask lbl
    ∧ (∀ p, inb (height mask) (width mask) p → px mask p = 0 →
         px lbl p = -1)
    ∧ (∀ p, inb (height mask) (width mask) p → px mask p ≠ 0 →
         0 ≤ px lbl p < Z.of_nat (length sts))
    ∧ (∀ i, 0 ≤ i < Z.of_nat (length sts) →
         ∃ s, first_of (height mask) (width mask) lbl s ∧ px lbl s = i)
    ∧ (∀ s s', first_of (height mask) (width mask) lbl s →
         first_of (height mask) (width mask) lbl s' →
         0 ≤ px lbl s → 0 ≤ px lbl s' →
         (px lbl s < px lbl s' ↔ rm_lt s s'))
    ∧ (∀ p q, fg mask p → fg mask q →
         (px lbl p = px lbl q ↔ connected mask p q)).
Proof.
  intros Hrect.
  destruct (connected_components_spec mask Hrect) as (lbl & sts & seeds & Hcc & Hinv).
  destruct Hinv as [I1 I2 I3 I4 I5 I6 I7 (I8 & I9 & I10) I11].
  cbn [labels stats current] in *.
  exists lbl, sts. split; [done|].
  assert (∀ p, inb (height mask) (width mask) p → px mask p ≠ 0 →
            0 ≤ px lbl p < Z.of_nat (length sts)) as Hfgl.
  { intros p Hp Hm.
    assert (px lbl p ≠ -1) as Hne by (by apply I5; [apply elem_of_coords|]).
    destruct (I3 p Hp); [done|lia]. }
  assert (∀ s, first_of (height mask) (width mask) lbl s → 0 ≤ px lbl s →
            seeds !! Z.to_nat (px lbl s) = Some s) as Hseed.
  { intros s [Hs Hfirst] Hl.
    assert (px lbl s < Z.of_nat (length sts)) as Hlt.
    { destruct (I3 s Hs); lia. }
    destruct (lookup_lt_is_Some_2 seeds (Z.to_nat (px lbl s))) as [sd Hsd];
      [lia|].
    destruct (I10 _ _ Hsd) as (_ & Esd & [Hsdi Hsdf]).
    rewrite Z2Nat.id in Esd by done.
    rewrite Hsd. f_equal. apply rm_le_antisym.
    - apply Hsdf; [done|]. by rewrite Esd.
    - by apply Hfirst. }
  split; [|split; [|split; [|split; [|split]]]].
  - destruct I1 as (? & ? & ?). by repeat split.
  - done.
  - done.
  - intros i Hi.
    destruct (lookup_lt_is_Some_2 seeds (Z.to_nat i)) as [sd Hsd]; [lia|].
    destruct (I10 _ _ Hsd) as (_ & Esd & Hfirst).
    exists sd. split; [done|]. rewrite Esd. lia.
  - intros s s' Hs Hs' Hl Hl'.
    pose proof (Hseed s Hs Hl) as E. pose proof (Hseed s' Hs' Hl') as E'.
    split.
    + intros Hlt. eapply (StronglySorted_lookup_lt _ _ I9); [done..|lia].
    + intros Hrm.
      destruct (Z.lt_trichotomy (px lbl s) (px lbl s')) as [?|[Heq|Hgt]];
        [done|exfalso..].
      * rewrite Heq, E' in E. injection E as ->. by apply (rm_lt_irrefl s).
      * apply (rm_lt_asym s s' Hrm).
        eapply (StronglySorted_lookup_lt _ _ I9); [done..|lia].
  - intros p q [Hp Hpm] [Hq Hqm].
    assert (px lbl p ≠ -1) as Hne by (by apply I5; [apply elem_of_coords|]).
    rewrite <- (I6 p q Hp Hq Hne). split; by intros ->.
Qed.

(** ** Counting pixels *)

Section counting.

Lemma length_coords h w :
  length (coords h w) = (Z.to_nat h * Z.to_nat w)%nat.
Proof.
  unfold coords. rewrite <- (length_seqZ 0 h).
  generalize (seqZ 0 h). intros l.
  induction l as [|y l IH]; [done|].
  rewrite bind_cons, length_app, IH, length_fmap, length_seqZ.
  cbn [length]. lia.
Qed.

(** Distinct pixels inside a box are no more than the box holds. *)
Lemma box_count (l : list pixel) (x0 y0 bw bh : Z) :
  NoDup l →
  (∀ p, p ∈ l → x0 ≤ p.1 < x0 + bw ∧ y0 ≤ p.2 < y0 + bh) →
  0 ≤ bw → 0 ≤ bh →
  Z.of_nat (length l) ≤ bw * bh.
Proof.
  intros Hnd Hbox Hbw Hbh.
  set (f := λ p : pixel, (p.1 - x0, p.2 - y0)).
  assert (Inj (=) (=) f) as Hinj.
  { intros [a1 a2] [b1 b2] E. unfold f in E. cbn [fst snd] in E.
    injection E as E1 E2. f_equal; lia. }
  assert (f <$> l ⊆+ coords bh bw) as Hsub.
  { apply NoDup_submseteq; [by apply NoDup_fmap_2|].
    intros q Hq. apply list_elem_of_fmap in Hq as (p & -> & Hp).
    apply elem_of_coords. specialize (Hbox p Hp).
    unfold inb, f. cbn [fst snd]. lia. }
  apply submseteq_length in Hsub.
  rewrite length_fmap, length_coords in Hsub. nia.
Qed.

(** A duplicate-free list of exactly the pixels with a property has as
    many elements as the filter of the scan by that property. *)
Lemma length_filter_coords (P : pixel → Prop) `{!∀ p, Decision (P p)}
    (h w : Z) (l : list pixel) :
  NoDup l → (∀ p, p ∈ l ↔ inb h w p ∧ P p) →
  length l = length (filter P (coords h w)).
Proof.
  intros Hnd Hl. apply Permutation_length, NoDup_Permutation; [done|..].
  - apply NoDup_filter, NoDup_coords.
  - intros p. rewrite Hl, list_elem_of_filter, elem_of_coords. tauto.
Qed.

End counting.

(** The box [x, y, w, h] of [st] is the smallest box holding every pixel
    labelled [i]: it holds them all and each of its four sides touches
    one of them. *)
Definition exact_box (h w : Z) (lbl : grid) (i : Z) (st : Stat) : Prop :=
  (∀ p, inb h w p → px lbl p = i →
     st_x st ≤ p.1 < st_x st + st_w st ∧ st_y st ≤ p.2 < st_y st + st_h st)
  ∧ (∃ p, inb h w p ∧ px lbl p = i ∧ p.1 = st_x st)
  ∧ (∃ p, inb h w p ∧ px lbl p = i ∧ p.1 = st_x st + st_w st - 1)
  ∧ (∃ p, inb h w p ∧ px lbl p = i ∧ p.2 = st_y st)
  ∧ (∃ p, inb h w p ∧ px lbl p = i ∧ p.2 = st_y st + st_h st - 1).

(** C4: in the stats of the labeler the area of a component is the number
    of pixels carrying its label and is at most the width times the height
    of its box, the box is the smallest one around those pixels, and the
    areas add up to the number of foreground pixels of the mask. *)
Theorem connected_components_stats (mask : grid) :
  rect mask →
  ∃ lbl sts,
    connected_components mask = Some (lbl, sts)
    ∧ (∀ i st, sts !! i = Some st →
         st_area st
           = Z.of_nat (label_count (height mask) (width mask) lbl (Z.of_nat i))
         ∧ st_area st ≤ st_w st * st_h st
         ∧ exact_box (height mask) (width mask) lbl (Z.of_nat i) st)
    ∧ total_area sts = Z.of_nat (fg_count mask).
Proof.
  intros Hrect.
  destruct (connected_components_spec mask Hrect) as (lbl & sts & seeds & Hcc & Hinv).
  destruct Hinv as [I1 I2 I3 I4 I5 I6 I7 (I8 & I9 & I10) I11].
  cbn [labels stats current] in *.
  exists lbl, sts. split; [done|]. split.
  - intros i st Hi.
    destruct (I7 i st Hi) as (l & Hnd & Hl & Ha & Hbox & X1 & X2 & Y1 & Y2).
    split; [|split].
    + rewrite Ha. f_equal. unfold label_count.
      by apply length_filter_coords.
    + rewrite Ha. destruct X1 as (p1 & Hp1 & _), Y1 as (p2 & Hp2 & _).
      pose proof (Hbox p1 Hp1). pose proof (Hbox p2 Hp2).
      eapply box_count; [done|done|lia..].
    + unfold exact_box. split; [|repeat split].
      * intros p Hp E. apply Hbox, Hl. done.
      * destruct X1 as (p & Hp & E). apply Hl in Hp as [? ?]. by exists p.
      * destruct X2 as (p & Hp & E). apply Hl in Hp as [? ?]. by exists p.
      * destruct Y1 as (p & Hp & E). apply Hl in Hp as [? ?]. by exists p.
      * destruct Y2 as (p & Hp & E). apply Hl in Hp as [? ?]. by exists p.
  - unfold fg_count.
    pose proof (filter_length_compl (λ p, px mask p ≠ 0)
                  (coords (height mask) (width mask))) as Hc.
    assert (nfresh (height mask) (width mask) lab_fresh lbl
            = length (filter (λ p, ¬ px mask p ≠ 0)
                        (coords (height mask) (width mask)))) as Hn.
    { unfold nfresh. apply filter_length_ext. intros p Hp.
      unfold lab_fresh. rewrite Z.eqb_eq. split.
      - intros E Hm. by apply (I5 p Hp Hm).
      - intros Hm. apply I4; [by apply elem_of_coords|].
        destruct (decide (px mask p = 0)); [done|]. by destruct Hm. }
    lia.
Qed.

(** ** The component filter *)

Section filter_facts.

Lemma elem_of_keep_from min_area sts : ∀ idx keep j,
  j ∈ keep_from min_area idx sts keep ↔
    j ∈ keep ∨ ∃ i st, j = idx + Z.of_nat i ∧ sts !! i = Some st
                       ∧ min_area ≤ st_area st.
Proof.
  induction sts as [|st sts IH]; intros idx keep j; cbn [keep_from].
  - split; [auto|]. intros [?|(i & st & _ & Hi & _)]; [done|].
    by rewrite lookup_nil in Hi.
  - rewrite IH. split.
    + intros [Hj|(i & st' & -> & Hi & Ha)].
      * destruct (Z.geb_spec (st_area st) min_area) as [Hge|Hlt]; [|by left].
        apply elem_of_union in Hj as [Hj%elem_of_singleton|Hj]; [|by left].
        right. exists 0%nat, st. split; [lia|]. split; [done|lia].
      * right. exists (S i), st'. split; [lia|]. done.
    + intros [Hj|(i & st' & -> & Hi & Ha)].
      * left. destruct (st_area st >=? min_area); [|done].
        apply elem_of_union. by right.
      * destruct i as [|i]; cbn in Hi.
        { injection Hi as <-. left.
          destruct (Z.geb_spec (st_area st) min_area) as [Hge|Hlt]; [|lia].
          apply elem_of_union. left. apply elem_of_singleton. lia. }
        { right. exists i, st'. split; [lia|]. done. }
Qed.

Lemma paint_shape lbl clean idx :
  rect lbl →
  height clean = height lbl ∧ width clean = width lbl ∧ rect clean →
  height (paint lbl clean idx) = height lbl
  ∧ width (paint lbl clean idx) = width lbl
  ∧ rect (paint lbl clean idx).
Proof. apply shape_zip2. Qed.

Lemma px_paint lbl clean idx p :
  rect lbl →
  height clean = height lbl ∧ width clean = width lbl ∧ rect clean →
  inb (height lbl) (width lbl) p →
  px (paint lbl clean idx) p = if px lbl p =? idx then 1 else px clean p.
Proof.
  intros Hl (Hh & Hw & Hc) [Hx Hy]. unfold px, paint.
  by apply get2_zip2.
Qed.

Lemma px_foldl_paint lbl p l : ∀ clean,
  rect lbl →
  height clean = height lbl ∧ width clean = width lbl ∧ rect clean →
  inb (height lbl) (width lbl) p →
  px (foldl (paint lbl) clean l) p
  = if decide (px lbl p ∈ l) then 1 else px clean p.
Proof.
  induction l as [|idx l IH]; intros clean Hl Hc Hp; cbn [foldl].
  - rewrite decide_False; [done|]. by intros ?%elem_of_nil.
  - rewrite IH; [|done|by apply paint_shape|done].
    rewrite px_paint by done.
    destruct (Z.eqb_spec (px lbl p) idx) as [E|E].
    + rewrite (decide_True (P := px lbl p ∈ idx :: l)).
      * by case_decide.
      * rewrite E. left.
    + case_decide as Hin.
      * rewrite decide_True; [done|]. by right.
      * rewrite decide_False; [done|].
        intros [?|?]%elem_of_cons; done.
Qed.

End filter_facts.

(** C7: in the filtering step of both pipelines a component is kept exactly
    when its area is at least the minimum area (an area equal to it is
    kept), the cleaned mask is 1 exactly on the pixels whose label is a
    kept component and 0 elsewhere, and the labeler itself drops nothing:
    every foreground pixel has a row in the stats, whatever its area. *)
Theorem drop_small_keeps_large (mask : grid) (min_area : Z) :
  rect mask →
  ∃ lbl sts,
    connected_components mask = Some (lbl, sts)
    ∧ drop_small min_area mask
      = Some (clean_mask mask lbl (keep_large min_area sts))
    ∧ (∀ i st, sts !! i = Some st →
         (Z.of_nat i ∈ keep_large min_area sts ↔ min_area ≤ st_area st))
    ∧ (∀ idx, idx ∈ keep_large min_area sts →
         ∃ i, idx = Z.of_nat i ∧ is_Some (sts !! i))
    ∧ (∀ p, inb (height mask) (width mask) p →
         (px (clean_mask mask lbl (keep_large min_area sts)) p = 1
            ↔ px lbl p ∈ keep_large min_area sts)
         ∧ (px (clean_mask mask lbl (keep_large min_area sts)) p = 0
            ∨ px (clean_mask mask lbl (keep_large min_area sts)) p = 1))
    ∧ (∀ p, inb (height mask) (width mask) p → px mask p ≠ 0 →
         is_Some (sts !! Z.to_nat (px lbl p))).
Proof.
  intros Hrect.
  destruct (connected_components_spec mask Hrect) as (lbl & sts & seeds & Hcc & Hinv).
  destruct Hinv as [(Hh & Hw & Hl) I2 I3 I4 I5 I6 I7 (I8 & I9 & I10) I11].
  cbn [labels stats current] in *.
  exists lbl, sts. split; [done|]. split.
  { unfold drop_small. by rewrite Hcc. }
  split; [|split; [|split]].
  - intros i st Hi. unfold keep_large. rewrite elem_of_keep_from. split.
    + intros [?%not_elem_of_empty|(i' & st' & E & Hi' & Ha)]; [done|].
      assert (i' = i) as -> by lia. by simplify_eq.
    + intros Ha. right. exists i, st. split; [lia|done].
  - intros idx. unfold keep_large. rewrite elem_of_keep_from.
    intros [?%not_elem_of_empty|(i & st & -> & Hi & _)]; [done|].
    exists i. split; [lia|by exists st].
  - intros p Hp. rewrite <- Hh, <- Hw in Hp.
    unfold clean_mask. rewrite px_foldl_paint; [|done| |done].
    2: { rewrite height_full_like, width_full_like, Hh, Hw.
         eauto using rect_full_like. }
    assert (px (full_like mask 0) p = 0) as ->.
    { rewrite Hh, Hw in Hp. destruct Hp. unfold px. by apply get2_full_like. }
    case_decide as Hin; rewrite elem_of_elements in Hin.
    + split; [tauto|by right].
    + split; [|by left]. split; [done|tauto].
  - intros p Hp Hm. apply lookup_lt_is_Some_2.
    assert (px lbl p ≠ -1) as Hne by (by apply I5; [apply elem_of_coords|]).
    destruct (I3 p Hp); [done|lia].
Qed.

Example drop_small_blobs :
  drop_small 2 blobs
  = Some [ [1; 1; 0; 0];
           [0; 0; 1; 0];
           [0; 0; 1; 1];
           [0; 0; 0; 0] ].
Proof. vm_compute. reflexivity. Qed.

(** ** The histogram of an 8-bit image *)

Section otsu_histogram.
Implicit Types (l hist : list Z) (k : nat).

Lemma sum_Z_app l1 l2 : sum_Z (l1 ++ l2) = sum_Z l1 + sum_Z l2.
Proof. unfold sum_Z. induction l1 as [|a l1 IH]; simpl; lia. Qed.

Lemma sum_Z_nonneg l : (∀ v, v ∈ l → 0 ≤ v) → 0 ≤ sum_Z l.
Proof.
  unfold sum_Z. induction l as [|a l IH]; intros Hl; simpl; [lia|].
  assert (0 ≤ a) by (apply Hl; left).
  assert (0 ≤ foldr Z.add 0 l) by (apply IH; intros v Hv; apply Hl; by right).
  lia.
Qed.

Lemma sum_Z_take_S l k x :
  l !! k = Some x → sum_Z (take (S k) l) = sum_Z (take k l) + x.
Proof.
  intros Hk. rewrite (take_S_r l k x Hk), sum_Z_app. unfold sum_Z. simpl. lia.
Qed.

(** Partial sums of non-negative numbers grow. *)
Lemma sum_Z_take_mono l k k' :
  (∀ v, v ∈ l → 0 ≤ v) → (k ≤ k')%nat →
  0 ≤ sum_Z (take k l) ≤ sum_Z (take k' l).
Proof.
  intros Hl Hk. split.
  - apply sum_Z_nonneg. intros v Hv. apply Hl. by eapply subseteq_take.
  - replace k' with (k + (k' - k))%nat by lia.
    rewrite <- take_take_drop, sum_Z_app.
    assert (0 ≤ sum_Z (take (k' - k) (drop k l))); [|lia].
    apply sum_Z_nonneg. intros v Hv. apply Hl.
    eapply subseteq_drop, subseteq_take. done.
Qed.

Lemma sum_Z_take_le l k : (∀ v, v ∈ l → 0 ≤ v) → 0 ≤ sum_Z (take k l) ≤ sum_Z l.
Proof.
  intros Hl.
  destruct (sum_Z_take_mono l k (Nat.max k (length l)) Hl) as [H1 H2]; [lia|].
  rewrite (take_ge l (Nat.max k (length l))) in H2 by lia. done.
Qed.

Lemma sum_Z_fmap_add {A} (f g : A → Z) (L : list A) :
  sum_Z ((λ t, f t + g t) <$> L) = sum_Z (f <$> L) + sum_Z (g <$> L).
Proof. unfold sum_Z. induction L as [|a L IH]; csimpl; lia. Qed.

Lemma sum_Z_indicator (v : Z) (L : list Z) :
  NoDup L → v ∈ L →
  sum_Z ((λ t, if decide (v = t) then 1 else 0) <$> L) = 1.
Proof.
  intros Hnd Hv. induction Hnd as [|a L Ha Hnd IH]; [by apply elem_of_nil in Hv|].
  change (sum_Z ((λ t, if decide (v = t) then 1 else 0) <$> a :: L))
    with ((if decide (v = a) then 1 else 0)
          + sum_Z ((λ t, if decide (v = t) then 1 else 0) <$> L)).
  apply elem_of_cons in Hv as [->|Hv].
  - rewrite decide_True by done.
    assert (sum_Z ((λ t, if decide (a = t) then 1 else 0) <$> L) = 0) as ->;
      [|done].
    clear IH Hnd. induction L as [|b L IH]; [done|].
    change (sum_Z ((λ t, if decide (a = t) then 1 else 0) <$> b :: L))
      with ((if decide (a = b) then 1 else 0)
            + sum_Z ((λ t, if decide (a = t) then 1 else 0) <$> L)).
    rewrite decide_False.
    + rewrite IH; [done|]. intros Hin. apply Ha. by right.
    + intros ->. apply Ha. left.
  - rewrite decide_False; [by rewrite IH|].
    intros ->. done.
Qed.

(** Every pixel of an image with values in [L] falls in one bin. *)
Lemma sum_Z_counts (px_list L : list Z) :
  NoDup L → (∀ v, v ∈ px_list → v ∈ L) →
  sum_Z ((λ t, Z.of_nat (length (filter (λ v, v = t) px_list))) <$> L)
  = Z.of_nat (length px_list).
Proof.
  intros Hnd. induction px_list as [|v l IH]; intros Hin.
  - cbn [filter list_filter length]. unfold sum_Z.
    induction L as [|a L IHL]; [done|]. csimpl.
    apply NoDup_cons in Hnd as [_ Hnd].
    rewrite IHL; [done|done|]. by intros v Hv%elem_of_nil.
  - rewrite <- (list_fmap_ext
      (λ t, (if decide (v = t) then 1 else 0)
            + Z.of_nat (length (filter (λ v0, v0 = t) l)))).
    + rewrite sum_Z_fmap_add, IH, sum_Z_indicator; [cbn [length]; lia|done|..].
      * apply Hin. left.
      * intros v' Hv'. apply Hin. by right.
    + intros i t _. rewrite filter_cons.
      destruct (decide (v = t)); cbn [length]; lia.
Qed.

Lemma length_histogram gray : length (histogram gray) = 256%nat.
Proof. unfold histogram. by rewrite length_fmap, length_seqZ. Qed.

Lemma histogram_nonneg gray v : v ∈ histogram gray → 0 ≤ v.
Proof.
  unfold histogram. intros (t & -> & _)%list_elem_of_fmap. lia.
Qed.

Lemma sum_histogram gray : gray8 gray → sum_Z (histogram gray) = size gray.
Proof.
  intros Hg. unfold histogram, size. apply sum_Z_counts; [apply NoDup_seqZ|].
  intros v Hv. apply elem_of_seqZ. specialize (Hg v Hv). lia.
Qed.

End otsu_histogram.

(** ** The threshold loop *)

Section otsu_loop_facts.
Context {F : Type} `{!Float64 F} (B : Z) `{!Exact B}.
Variables (hist : list Z) (total sum_total : Z).
Hypothesis hist_length : length hist = 256%nat.
Hypothesis hist_nonneg : ∀ v, v ∈ hist → 0 ≤ v.
Hypothesis hist_total : sum_Z hist = total.
Hypothesis hist_dot : sum_total = dot_arange hist.
Hypothesis total_bound : 255 * total ≤ B.
(** The order of float64 values matters only when some candidate leaves
    both classes non-empty. *)
Hypothesis order : ∀ t, candidate hist total t → Ordered B.

Local Abbreviation prods := (zip_with Z.mul (seqZ 0 256) hist).
Local Abbreviation Wn k := (sum_Z (take k hist)).
Local Abbreviation Sn k := (sum_Z (take k prods)).
Local Abbreviation V := (between_var hist total sum_total).

Lemma hist_lookup k : (k < 256)%nat → ∃ hk, hist !! k = Some hk ∧ 0 ≤ hk.
Proof.
  intros Hk. destruct (lookup_lt_is_Some_2 hist k) as [hk Hhk]; [lia|].
  exists hk. split; [done|]. by eapply hist_nonneg, list_elem_of_lookup_2.
Qed.

Lemma prods_lookup k hk :
  hist !! k = Some hk → prods !! k = Some (Z.of_nat k * hk).
Proof.
  intros Hk. rewrite lookup_zip_with, Hk.
  pose proof (lookup_lt_Some _ _ _ Hk).
  rewrite lookup_seqZ_lt by lia. done.
Qed.

Lemma Wn_S k hk : hist !! k = Some hk → Wn (S k) = Wn k + hk.
Proof. apply sum_Z_take_S. Qed.

Lemma Sn_S k hk : hist !! k = Some hk → Sn (S k) = Sn k + Z.of_nat k * hk.
Proof. intros Hk. by apply sum_Z_take_S, prods_lookup. Qed.

Lemma Wn_range k k' : (k ≤ k')%nat → 0 ≤ Wn k ≤ Wn k' ∧ Wn k' ≤ total.
Proof.
  intros Hk. split; [by apply sum_Z_take_mono|].
  rewrite <- hist_total. by apply sum_Z_take_le.
Qed.

Lemma Sn_range k : (k ≤ 256)%nat → 0 ≤ Sn k ≤ 255 * Wn k.
Proof.
  induction k as [|k IH]; intros Hk.
  - rewrite !take_0. unfold sum_Z. simpl. lia.
  - destruct (hist_lookup k) as (hk & Hhk & Hnn); [lia|].
    rewrite (Sn_S k hk Hhk), (Wn_S k hk Hhk). nia.
Qed.

Lemma Sn_total : sum_total = Sn 256%nat.
Proof.
  rewrite hist_dot. unfold dot_arange. rewrite take_ge; [done|].
  rewrite length_zip_with, length_seqZ. lia.
Qed.

Lemma Sn_le_total k : (k ≤ 256)%nat → Sn k ≤ sum_total.
Proof.
  intros Hk. rewrite Sn_total. apply sum_Z_take_mono; [|done].
  intros v (i & Hi)%list_elem_of_lookup.
  apply lookup_zip_with_Some in Hi as (a & b & -> & Ha & Hb).
  apply lookup_seqZ in Ha as [-> _].
  assert (0 ≤ b) by (by eapply hist_nonneg, list_elem_of_lookup_2). nia.
Qed.

Lemma class_weight_Wn k : class_weight hist (Z.of_nat k) = Wn (S k).
Proof. unfold class_weight. f_equal. f_equal. lia. Qed.

Lemma class_sum_Sn k : class_sum hist (Z.of_nat k) = Sn (S k).
Proof. unfold class_sum. f_equal. f_equal. lia. Qed.

Lemma Wn_total : total = Wn 256%nat.
Proof. rewrite <- hist_total. by rewrite take_ge by lia. Qed.

(** The bins from [k] on hold values of at most 255. *)
Lemma Sn_tail d : ∀ k,
  (k + d = 256)%nat → sum_total - Sn k ≤ 255 * (total - Wn k).
Proof.
  rewrite Sn_total, Wn_total.
  induction d as [|d IH]; intros k Hk.
  - replace k with 256%nat by lia. lia.
  - destruct (hist_lookup k) as (hk & Hhk & Hnn); [lia|].
    specialize (IH (S k) ltac:(lia)).
    rewrite (Sn_S k hk Hhk), (Wn_S k hk Hhk) in IH. nia.
Qed.

(** The variance of a candidate lies above the sentinel. *)
Lemma V_above_sentinel t :
  candidate hist total t → fgt (V t) (of_int (-1)) = true.
Proof.
  intros Hc. pose proof (order t Hc) as Hord.
  destruct Hc as (Ht & Hb & Hf). unfold between_var.
  replace t with (Z.of_nat (Z.to_nat t)) in * by lia.
  rewrite class_weight_Wn in *. rewrite class_sum_Sn.
  set (k := S (Z.to_nat t)) in *.
  destruct (Wn_range k k) as [[HW0 _] HW2]; [lia|].
  pose proof (Sn_range k ltac:(lia)) as HS0.
  pose proof (Sn_le_total k ltac:(lia)) as HS2.
  pose proof (Sn_tail (256 - k) k ltac:(lia)) as HS3.
  apply (fgt_sentinel (Wn k) (total - Wn k) (Sn k) (sum_total - Sn k)); lia.
Qed.

(** What the loop knows after the thresholds below [k]: either none of
    them was a candidate and nothing was recorded, or the recorded
    threshold is the first of the candidates of largest variance. *)
Definition best_upto (k : Z) (st : State) : Prop :=
  (threshold st = 0 ∧ max_var st = of_int (-1)
   ∧ ∀ t, candidate hist total t → ¬ t < k)
  ∨ (candidate hist total (threshold st) ∧ threshold st < k
     ∧ max_var st = V (threshold st)
     ∧ (∀ t, candidate hist total t → t < k →
          fgt (V t) (V (threshold st)) = false)
     ∧ (∀ t, candidate hist total t → t < threshold st →
          fgt (V (threshold st)) (V t) = true)).

Lemma otsu_loop_spec n : ∀ k st,
  (k + n = 256)%nat →
  w_b st = of_int (Wn k) → sum_b st = of_int (Sn k) →
  (Wn k < total ∨ total = 0) →
  best_upto (Z.of_nat k) st →
  ∃ st', otsu_loop hist total sum_total (seqZ (Z.of_nat k) (Z.of_nat n)) st
         = Some st'
    ∧ best_upto 256 st'.
Proof.
  induction n as [|n IH]; intros k st Hkn Hw Hs Hlt Hbest.
  { rewrite seqZ_nil by done. exists st. split; [done|].
    by replace 256 with (Z.of_nat k) by lia. }
  rewrite seqZ_cons by lia.
  replace (Z.succ (Z.of_nat k)) with (Z.of_nat (S k)) by lia.
  replace (Z.pred (Z.of_nat (S n))) with (Z.of_nat n) by lia.
  cbn [otsu_loop].
  destruct (hist_lookup k) as (hk & Hhk & Hnn); [lia|].
  assert (hist_at hist (Z.of_nat k) = hk) as Hat.
  { unfold hist_at. by rewrite Nat2Z.id, Hhk. }
  rewrite Hat, Hw, Hs.
  pose proof (Wn_S k hk Hhk) as HW. pose proof (Sn_S k hk Hhk) as HS.
  destruct (Wn_range k (S k)) as [[HW0 HW1] HW2]; [lia|].
  pose proof (Sn_range k) as HS0. pose proof (Sn_range (S k)) as HS1.
  pose proof (Sn_le_total (S k)) as HS2.
  assert (0 ≤ total) as Htot0 by lia.
  assert (sum_total ≤ 255 * total) as Hst.
  { rewrite Sn_total. pose proof (Sn_range 256%nat).
    destruct (Wn_range 256%nat 256%nat); lia. }
  rewrite fadd_exact by lia. rewrite <- HW.
  rewrite fis0_exact by lia.
  destruct (Z.eqb_spec (Wn (S k)) 0) as [E0|E0].
  - (* continue *)
    assert (hk = 0) as -> by lia.
    apply IH; unfold best_upto; cbn [w_b sum_b max_var threshold];
          try done; try lia.
    + by rewrite HS, Z.mul_0_r, Z.add_0_r.
    + assert (¬ candidate hist total (Z.of_nat k)) as Hnc.
      { intros (_ & Hc & _). by rewrite class_weight_Wn in Hc. }
      destruct Hbest as [(H1 & H2 & H3)|(H1 & H2 & H3 & H4 & H5)].
      * left. split; [done|]. split; [done|]. intros t Ht Hlt'.
        destruct (decide (t = Z.of_nat k)) as [->|Hne]; [done|].
        apply (H3 t Ht). lia.
      * right. split; [done|]. split; [lia|]. split; [done|]. split; [|done].
        intros t Ht Hlt'.
        destruct (decide (t = Z.of_nat k)) as [->|Hne]; [done|].
        apply H4; [done|lia].
  - rewrite fsub_exact by lia. rewrite fis0_exact by lia.
    destruct (Z.eqb_spec (total - Wn (S k)) 0) as [E1|E1].
    + (* break *)
      eexists. split; [done|].
      assert (∀ t, candidate hist total t → t < Z.of_nat k) as Hearly.
      { intros t ((Ht0 & Ht1) & _ & Hc).
        destruct (decide (t < Z.of_nat k)) as [|Hge]; [done|]. exfalso.
        apply Hc. unfold class_weight.
        destruct (Wn_range (S k) (Z.to_nat (t + 1))); lia. }
      destruct Hbest as [(H1 & H2 & H3)|(H1 & H2 & H3 & H4 & H5)];
        unfold best_upto; cbn [w_b sum_b max_var threshold].
      * left. split; [done|]. split; [done|]. intros t Ht _.
        by apply (H3 t Ht), Hearly.
      * right. split; [done|]. split; [lia|]. split; [done|]. split; [|done].
        intros t Ht _. by apply H4, Hearly.
    + (* a candidate *)
      assert (candidate hist total (Z.of_nat k)) as Hcand.
      { split; [lia|]. by rewrite class_weight_Wn. }
      rewrite fadd_exact by nia. rewrite <- HS.
      unfold checked_div. rewrite !fis0_exact by lia.
      destruct (Z.eqb_spec (Wn (S k)) 0) as [|_]; [done|].
      destruct (Z.eqb_spec (total - Wn (S k)) 0) as [|_]; [done|].
      cbn [mbind option_bind].
      rewrite fsub_exact by lia.
      assert (fmul (fmul (of_int (Wn (S k))) (of_int (total - Wn (S k))))
                (fsqr (fsub (fdiv (of_int (Sn (S k))) (of_int (Wn (S k))))
                         (fdiv (of_int (sum_total - Sn (S k)))
                               (of_int (total - Wn (S k))))))
              = V (Z.of_nat k)) as ->.
      { unfold between_var. by rewrite class_weight_Wn, class_sum_Sn. }
      pose proof (order _ Hcand) as Hord.
      assert (∀ x, fgt x x = false) as Hirr.
      { intros x. destruct (fgt x x) eqn:E; [|done]. by rewrite (fgt_asym x x E) in E. }
      destruct (fgt (V (Z.of_nat k)) (max_var st)) eqn:Egt.
      * apply IH; unfold best_upto; cbn [w_b sum_b max_var threshold];
          try done; try lia.
        right. split; [done|]. split; [lia|]. split; [done|].
        destruct Hbest as [(H1 & H2 & H3)|(H1 & H2 & H3 & H4 & H5)].
        { split.
          - intros t Ht Hlt'.
            destruct (decide (t = Z.of_nat k)) as [->|Hne]; [done|].
            destruct (H3 t Ht). lia.
          - intros t Ht Hlt'. destruct (H3 t Ht). lia. }
        rewrite H3 in Egt. split.
        { intros t Ht Hlt'.
          destruct (decide (t = Z.of_nat k)) as [->|Hne]; [done|].
          destruct (fgt (V t) (V (Z.of_nat k))) eqn:E; [|done].
          destruct (fgt_cotrans _ _ (V (threshold st)) (of_int (-1)) E
                      (V_above_sentinel _ H1)) as [E'|E'].
          - rewrite H4 in E'; [done|done|lia].
          - by rewrite (fgt_asym _ _ Egt) in E'. }
        { intros t Ht Hlt'.
          destruct (fgt_cotrans _ _ (V t) (of_int (-1)) Egt
                      (V_above_sentinel t Ht)) as [E'|E']; [done|].
          rewrite H4 in E'; [done|done|lia]. }
      * apply IH; unfold best_upto; cbn [w_b sum_b max_var threshold];
          try done; try lia.
        destruct Hbest as [(H1 & H2 & H3)|(H1 & H2 & H3 & H4 & H5)].
        { exfalso. rewrite H2 in Egt.
          by rewrite (V_above_sentinel _ Hcand) in Egt. }
        right. split; [done|]. split; [lia|]. split; [done|]. split; [|done].
        intros t Ht Hlt'.
        destruct (decide (t = Z.of_nat k)) as [->|Hne]; [by rewrite <- H3|].
        apply H4; [done|lia].
Qed.

End otsu_loop_facts.

(** ** Images of one intensity *)

Section otsu_constant.
Variables (gray : grid) (c : Z).
Hypothesis c_range : 0 ≤ c ≤ 255.
Hypothesis constant : ∀ v, v ∈ concat gray → v = c.

(** The bins up to [t] of a constant image hold no pixel below the
    intensity and every pixel from it on. *)
Lemma class_weight_constant t :
  0 ≤ t ≤ 255 →
  class_weight (histogram gray) t = if decide (c ≤ t) then size gray else 0.
Proof.
  intros Ht. unfold class_weight, histogram, size.
  rewrite <- fmap_take.
  assert (take (Z.to_nat (t + 1)) (seqZ 0 256) = seqZ 0 (t + 1)) as ->.
  { replace 256 with ((t + 1) + (255 - t)) by lia.
    rewrite seqZ_app by lia. apply take_app_length'.
    rewrite length_seqZ. lia. }
  generalize (concat gray) constant. intros l Hl.
  induction l as [|v l IH].
  - cbn [filter list_filter length]. case_decide; cbn [length].
    + unfold sum_Z. induction (seqZ 0 (t + 1)) as [|a L IHL]; [done|].
      csimpl. by rewrite IHL.
    + unfold sum_Z. induction (seqZ 0 (t + 1)) as [|a L IHL]; [done|].
      csimpl. by rewrite IHL.
  - assert (v = c) as -> by (apply Hl; left).
    rewrite <- (list_fmap_ext
      (λ t0, (if decide (c = t0) then 1 else 0)
             + Z.of_nat (length (filter (λ v0, v0 = t0) l)))).
    2: { intros i t0 _. rewrite filter_cons.
         destruct (decide (c = t0)); cbn [length]; lia. }
    rewrite sum_Z_fmap_add, IH by (intros v' Hv'; apply Hl; by right).
    case_decide as Hc.
    + rewrite sum_Z_indicator; [cbn [length]; lia|apply NoDup_seqZ|].
      apply elem_of_seqZ. lia.
    + assert (sum_Z ((λ t0, if decide (c = t0) then 1 else 0)
                       <$> seqZ 0 (t + 1)) = 0) as ->; [|done].
      assert (c ∉ seqZ 0 (t + 1)) as Hnin.
      { rewrite elem_of_seqZ. lia. }
      revert Hnin. generalize (seqZ 0 (t + 1)). intros L HL.
      unfold sum_Z. induction L as [|a L IHL]; [done|]. csimpl.
      rewrite decide_False.
      * rewrite IHL; [done|]. intros Hin. apply HL. by right.
      * intros ->. apply HL. left.
Qed.

Lemma constant_no_candidate t : ¬ candidate (histogram gray) (size gray) t.
Proof.
  intros (Ht & H1 & H2). rewrite class_weight_constant in H1, H2 by done.
  case_decide; lia.
Qed.

Lemma gray8_constant : gray8 gray.
Proof. intros v Hv. rewrite (constant v Hv). lia. Qed.

End otsu_constant.

Section otsu_claims.
Context {F : Type} `{!Float64 F}.

(** The loop of [otsu_threshold] on an 8-bit image: it ends without a
    division by zero, and its variables satisfy [best_upto] over all 256
    thresholds. *)
Lemma otsu_run_spec (B : Z) `{!Exact B} (gray : grid) :
  gray8 gray → 255 * size gray ≤ B →
  (∀ t, candidate (histogram gray) (size gray) t → Ordered B) →
  ∃ st, otsu_run gray = Some st
    ∧ best_upto (histogram gray) (size gray) (dot_arange (histogram gray))
        256 st.
Proof.
  intros Hg HB Hord. unfold otsu_run.
  apply (otsu_loop_spec B (histogram gray) (size gray)
           (dot_arange (histogram gray))
           (length_histogram gray) (histogram_nonneg gray)
           (sum_histogram gray Hg) eq_refl HB Hord 256 0%nat);
    cbn [w_b sum_b max_var threshold]; try done.
  - rewrite take_0. unfold size, sum_Z. cbn [foldr]. lia.
  - left. split; [done|]. split; [done|]. intros t ((Ht & _) & _). lia.
Qed.

End otsu_claims.

Lemma px_elem_of_concat (g : grid) (p : pixel) :
  rect g → inb (height g) (width g) p → px g p ∈ concat g.
Proof.
  intros Hg [Hx Hy]. unfold px, get2.
  destruct (lookup_row g p.2 Hy) as [r Hr]. rewrite Hr.
  destruct (lookup_cell g p.2 p.1 r Hg Hr Hx) as [v Hv]. rewrite Hv. simpl.
  apply list_elem_of_In, in_concat. exists r.
  split; apply list_elem_of_In; by eapply list_elem_of_lookup_2.
Qed.

(** C3: on an 8-bit image [otsu_threshold] returns a threshold in 0..255
    and never divides by zero; when some threshold leaves both classes
    non-empty, the threshold returned is such a candidate, no candidate has
    a greater between-class variance [w_b * w_f * (m_b - m_f) ** 2], and
    every earlier candidate has a strictly smaller one: the lowest
    maximiser is returned. *)
Theorem otsu_threshold_maximises {F : Type} `{!Float64 F} (B : Z)
    `{!Exact B} `{!Ordered B} (gray : grid) :
  gray8 gray → 255 * size gray ≤ B →
  ∃ t, otsu_threshold gray = Some t
    ∧ 0 ≤ t ≤ 255
    ∧ ((∃ c, candidate (histogram gray) (size gray) c) →
       candidate (histogram gray) (size gray) t
       ∧ (∀ c, candidate (histogram gray) (size gray) c →
            fgt (between_var (histogram gray) (size gray)
                   (dot_arange (histogram gray)) c)
                (between_var (histogram gray) (size gray)
                   (dot_arange (histogram gray)) t) = false)
       ∧ (∀ c, candidate (histogram gray) (size gray) c → c < t →
            fgt (between_var (histogram gray) (size gray)
                   (dot_arange (histogram gray)) t)
                (between_var (histogram gray) (size gray)
                   (dot_arange (histogram gray)) c) = true)).
Proof.
  intros Hg HB.
  destruct (otsu_run_spec B gray Hg HB) as (st & Hrun & Hbest); [done|].
  exists (threshold st). split.
  { unfold otsu_threshold. by rewrite Hrun. }
  destruct Hbest as [(H1 & H2 & H3)|(H1 & H2 & H3 & H4 & H5)].
  - split; [lia|]. intros (c & Hc). destruct (H3 c Hc).
    destruct Hc as ((? & ?) & _). lia.
  - split; [by destruct H1 as (? & _)|]. intros _.
    split; [done|]. split; [|done].
    intros c Hc. apply H4; [done|]. destruct Hc as ((? & ?) & _). lia.
Qed.

(** C8: on an image of one constant intensity [otsu_threshold] ends
    without dividing by zero, [max_var] is still the sentinel -1.0 and the
    threshold is still 0 at the end, and the binarization [gray < 0] is
    the all-background mask. *)
Theorem otsu_threshold_constant_image {F : Type} `{!Float64 F} (B : Z)
    `{!Exact B} (gray : grid) (c : Z) :
  rect gray → 0 ≤ c ≤ 255 → (∀ v, v ∈ concat gray → v = c) →
  255 * size gray ≤ B →
  ∃ st, otsu_run gray = Some st
    ∧ max_var st = of_int (-1)
    ∧ threshold st = 0
    ∧ otsu_threshold gray = Some 0
    ∧ ∀ p, inb (height gray) (width gray) p → px (binary gray 0) p = 0.
Proof.
  intros Hrect Hc Hconst HB.
  destruct (otsu_run_spec B gray) as (st & Hrun & Hbest);
    [by eapply gray8_constant|done| |].
  { intros t Ht. by destruct (constant_no_candidate gray c Hc Hconst t). }
  exists st. split; [done|].
  destruct Hbest as [(H1 & H2 & H3)|(H1 & _)].
  2: { by destruct (constant_no_candidate gray c Hc Hconst (threshold st)). }
  split; [done|]. split; [done|]. split.
  { unfold otsu_threshold. by rewrite Hrun, <- H1. }
  intros p Hp. unfold px, binary. destruct Hp as [Hx Hy].
  rewrite get2_map2 by done.
  pose proof (px_elem_of_concat gray p Hrect (conj Hx Hy)) as Hin.
  apply Hconst in Hin. unfold px in Hin. rewrite Hin.
  destruct (Z.ltb_spec c 0); [lia|done].
Qed.

(** ** float64 itself

    The arithmetic of [otsu_threshold] is binary64.  Rocq's primitive
    floats are these numbers with the operations of the hardware, so the
    loop runs on them as it does in the script. *)

Module Binary64.

Abbreviation float := PrimFloat.float.
Abbreviation int := PrimInt63.int.

(** The conversion of an integer operand: exact below [2^53] in absolute
    value, which covers every integer of the loop. *)
Definition int_of_Z (z : Z) : float :=
  if z <? 0 then PrimFloat.opp (PrimFloat.of_uint63 (Uint63.of_Z (- z)))
  else PrimFloat.of_uint63 (Uint63.of_Z z).

(** [x ** 2] is the product [x * x], [x == 0] holds of both zeros, and
    [x > y] is false as soon as one side is NaN. *)
Global Instance binary64 : Float64 float := {|
  of_int := int_of_Z;
  fadd := PrimFloat.add;
  fsub := PrimFloat.sub;
  fmul := PrimFloat.mul;
  fdiv := PrimFloat.div;
  fsqr := λ x, PrimFloat.mul x x;
  fis0 := λ x, PrimFloat.eqb x PrimFloat.zero;
  fgt := λ x y, PrimFloat.ltb y x
|}.

(** [<] on the values that are not NaN is the lexicographic order of a
    key: sign, then exponent, then mantissa. *)
Definition key (f : SpecFloat.spec_float) : option (Z * Z * Z) :=
  match f with
  | SpecFloat.S754_nan => None
  | SpecFloat.S754_infinity true => Some (-2, 0, 0)
  | SpecFloat.S754_infinity false => Some (2, 0, 0)
  | SpecFloat.S754_zero _ => Some (0, 0, 0)
  | SpecFloat.S754_finite true m e => Some (-1, - e, - Z.pos m)
  | SpecFloat.S754_finite false m e => Some (1, e, Z.pos m)
  end.

Definition lex (k1 k2 : Z * Z * Z) : Prop :=
  k1.1.1 < k2.1.1
  ∨ (k1.1.1 = k2.1.1
     ∧ (k1.1.2 < k2.1.2 ∨ (k1.1.2 = k2.1.2 ∧ k1.2 < k2.2))).

Lemma SFltb_key f1 f2 :
  SpecFloat.SFltb f1 f2 = true
  ↔ ∃ k1 k2, key f1 = Some k1 ∧ key f2 = Some k2 ∧ lex k1 k2.
Proof.
  unfold SpecFloat.SFltb, lex.
  destruct f1 as [s1|s1| |s1 m1 e1], f2 as [s2|s2| |s2 m2 e2];
    cbn [SpecFloat.SFcompare key];
    repeat match goal with s : bool |- _ => destruct s end;
    cbn [key];
    try change (Pos.compare_cont Eq m1 m2) with (m1 ?= m2)%positive;
    try destruct (Z.compare_spec e1 e2);
    try destruct (Pos.compare_spec m1 m2);
    cbn [CompOpp];
    (split;
     [ first [ done
             | intros _; eexists _, _; split; [done|]; split; [done|];
               cbn [fst snd]; lia ]
     | intros (k1 & k2 & E1 & E2 & Hl);
       first [ done | simplify_eq; cbn [fst snd] in Hl; lia ] ]).
Qed.

Lemma ltb_asym (x y : float) :
  PrimFloat.ltb y x = true → PrimFloat.ltb x y = false.
Proof.
  rewrite !FloatAxioms.ltb_spec. intros H. apply not_true_is_false.
  intros H'. apply SFltb_key in H as (k1 & k2 & E1 & E2 & Hl).
  apply SFltb_key in H' as (k1' & k2' & E1' & E2' & Hl').
  simplify_eq. unfold lex in *. lia.
Qed.

Lemma ltb_cotrans (x y z w : float) :
  PrimFloat.ltb y x = true → PrimFloat.ltb w z = true →
  PrimFloat.ltb z x = true ∨ PrimFloat.ltb y z = true.
Proof.
  rewrite !FloatAxioms.ltb_spec. intros H H'.
  apply SFltb_key in H as (ky & kx & Ey & Ex & Hl).
  apply SFltb_key in H' as (kw & kz & Ew & Ez & Hl').
  destruct (decide (lex kz kx)) as [Hzx|Hzx].
  - left. apply SFltb_key. by exists kz, kx.
  - right. apply SFltb_key. exists ky, kz. split; [done|]. split; [done|].
    unfold lex in *. lia.
Qed.

(** A check over the machine integers [i], [i + 1], ..., [fuel] of
    them. *)
Definition i1 : int := Eval cbv in Uint63.of_Z 1.

Fixpoint all_from (fuel : nat) (i : int) (P : int → bool) : bool :=
  match fuel with
  | O => true
  | S fuel' => if P i then all_from fuel' (PrimInt63.add i i1) P else false
  end.

Lemma of_Z_add a b :
  Uint63.of_Z (a + b) = PrimInt63.add (Uint63.of_Z a) (Uint63.of_Z b).
Proof.
  apply Uint63.to_Z_inj.
  rewrite Uint63.add_spec, !Uint63.of_Z_spec. by rewrite <- Zplus_mod.
Qed.

Lemma all_from_spec fuel : ∀ z P,
  all_from fuel (Uint63.of_Z z) P = true →
  ∀ k, z ≤ k < z + Z.of_nat fuel → P (Uint63.of_Z k) = true.
Proof.
  induction fuel as [|fuel IH]; intros z P H k Hk; [lia|].
  cbn [all_from] in H. destruct (P (Uint63.of_Z z)) eqn:E; [|done].
  destruct (decide (k = z)) as [->|Hne]; [done|].
  apply (IH (z + 1)); [by rewrite of_Z_add|lia].
Qed.

Local Abbreviation add_exact_upto n :=
  (
  all_from n (Uint63.of_Z 0) (λ i, all_from n (Uint63.of_Z 0) (λ j,
    PrimFloat.Leibniz.eqb
      (PrimFloat.add (PrimFloat.of_uint63 i) (PrimFloat.of_uint63 j))
      (PrimFloat.of_uint63 (PrimInt63.add i j))))).

Local Abbreviation sub_exact_upto n :=
  (
  all_from n (Uint63.of_Z 0) (λ i, all_from n (Uint63.of_Z 0) (λ j,
    PrimFloat.Leibniz.eqb
      (PrimFloat.sub (PrimFloat.of_uint63 (PrimInt63.add i j))
                     (PrimFloat.of_uint63 j))
      (PrimFloat.of_uint63 i)))).

Local Abbreviation nonzero_upto n :=
  (
  all_from n (Uint63.of_Z 1) (λ i,
    negb (PrimFloat.eqb (PrimFloat.of_uint63 i) PrimFloat.zero))).

Local Abbreviation above_sentinel_upto na ns :=
  (
  all_from na (Uint63.of_Z 1) (λ a, all_from na (Uint63.of_Z 1) (λ b,
    all_from ns (Uint63.of_Z 0) (λ s, all_from ns (Uint63.of_Z 0) (λ s',
      PrimFloat.ltb (int_of_Z (-1))
        (PrimFloat.mul
           (PrimFloat.mul (PrimFloat.of_uint63 a) (PrimFloat.of_uint63 b))
           (let d := PrimFloat.sub
                       (PrimFloat.div (PrimFloat.of_uint63 s)
                                      (PrimFloat.of_uint63 a))
                       (PrimFloat.div (PrimFloat.of_uint63 s')
                                      (PrimFloat.of_uint63 b)) in
            PrimFloat.mul d d))))))).

(** Sums and differences of the integers up to 1020, and the variances of
    up to four 8-bit pixels, computed on the floats themselves. *)
Lemma add_exact_1020 : add_exact_upto 1021%nat = true.
Proof. vm_cast_no_check (eq_refl true). Qed.

Lemma sub_exact_1020 : sub_exact_upto 1021%nat = true.
Proof. vm_cast_no_check (eq_refl true). Qed.

Lemma nonzero_1020 : nonzero_upto 1020%nat = true.
Proof. vm_cast_no_check (eq_refl true). Qed.

Lemma above_sentinel_1020 : above_sentinel_upto 3%nat 766%nat = true.
Proof. vm_cast_no_check (eq_refl true). Qed.

Lemma int_of_Z_nonneg z : 0 ≤ z → int_of_Z z = PrimFloat.of_uint63 (Uint63.of_Z z).
Proof. intros Hz. unfold int_of_Z. by rewrite (proj2 (Z.ltb_ge z 0)). Qed.

(** float64 meets the laws, here for images of up to four pixels. *)
Global Instance binary64_exact : Exact (F := float) 1020.
Proof.
  split; cbn [of_int fadd fsub fis0 binary64].
  - intros a b Ha Hb Hab. rewrite !int_of_Z_nonneg by lia.
    apply FloatAxioms.Leibniz.eqb_spec. rewrite of_Z_add.
    pose proof add_exact_1020 as H.
    apply (all_from_spec _ 0) with (k := a) in H; [|lia]. cbv beta in H.
    apply (all_from_spec _ 0) with (k := b) in H; [done|lia].
  - intros a b Hb Ha. rewrite !int_of_Z_nonneg by lia.
    apply FloatAxioms.Leibniz.eqb_spec.
    replace a with ((a - b) + b) at 1 by lia. rewrite of_Z_add.
    pose proof sub_exact_1020 as H.
    apply (all_from_spec _ 0) with (k := a - b) in H; [|lia]. cbv beta in H.
    apply (all_from_spec _ 0) with (k := b) in H; [done|lia].
  - intros a Ha. rewrite int_of_Z_nonneg by lia.
    destruct (Z.eqb_spec a 0) as [->|Hne]; [done|].
    apply negb_true_iff.
    pose proof nonzero_1020 as H.
    apply (all_from_spec _ 1) with (k := a) in H; [done|lia].
Qed.

Global Instance binary64_ordered : Ordered (F := float) 1020.
Proof.
  split; cbn [of_int fmul fdiv fsub fsqr fgt binary64].
  - intros x y. apply ltb_asym.
  - intros x y z w. apply ltb_cotrans.
  - intros a b s s' Ha Hb Hs Hs' HB. unfold variance.
    cbn [of_int fmul fdiv fsub fsqr fgt binary64].
    rewrite !(int_of_Z_nonneg a), !(int_of_Z_nonneg b),
      !(int_of_Z_nonneg s), !(int_of_Z_nonneg s') by lia.
    pose proof above_sentinel_1020 as H.
    apply (all_from_spec _ 1) with (k := a) in H; [|lia]. cbv beta in H.
    apply (all_from_spec _ 1) with (k := b) in H; [|lia]. cbv beta in H.
    apply (all_from_spec _ 0) with (k := s) in H; [|lia]. cbv beta in H.
    apply (all_from_spec _ 0) with (k := s') in H; [done|lia].
Qed.

End Binary64.

(** Two dark and four bright pixels. *)
Definition bimodal : grid := [ [10; 200; 200]; [200; 10; 200] ].

Example otsu_threshold_bimodal :
  otsu_threshold (F := PrimFloat.float) bimodal = Some 10.
Proof. vm_compute. reflexivity. Qed.

(** Three grey levels, symmetric: the thresholds 0 to 99 and 100 to 199
    have the same variance and the first of them all is returned. *)
Example otsu_threshold_tie :
  otsu_threshold (F := PrimFloat.float) [ [0; 100; 200] ] = Some 0.
Proof. vm_compute. reflexivity. Qed.

Example otsu_threshold_constant :
  otsu_threshold (F := PrimFloat.float) [ [7; 7]; [7; 7] ] = Some 0.
Proof. vm_compute. reflexivity. Qed.

(** Four pixels of three intensities.  The thresholds 6 and 98 have the
    same variance as exact numbers; as float64 values the one of 98 comes
    out greater, and 98 is returned. *)
Definition quad : grid := [ [6; 98; 190; 98] ].

Example otsu_threshold_quad :
  otsu_threshold (F := PrimFloat.float) quad = Some 98.
Proof. vm_compute. reflexivity. Qed.

Example quad_variances :
  fgt (F := PrimFloat.float)
      (between_var (histogram quad) (size quad) (dot_arange (histogram quad)) 98)
      (between_var (histogram quad) (size quad) (dot_arange (histogram quad)) 6)
  = true.
Proof. vm_compute. reflexivity. Qed.

Lemma quad_gray8 : gray8 quad.
Proof.
  intros v Hv. cbn in Hv. rewrite !elem_of_cons, elem_of_nil in Hv.
  repeat destruct Hv as [->|Hv]; lia || done.
Qed.

Lemma otsu_threshold_maximises_witness :
  ∃ t, otsu_threshold (F := PrimFloat.float) quad = Some t
    ∧ 0 ≤ t ≤ 255
    ∧ ((∃ c, candidate (histogram quad) (size quad) c) →
       candidate (histogram quad) (size quad) t
       ∧ (∀ c, candidate (histogram quad) (size quad) c →
            fgt (F := PrimFloat.float)
                (between_var (histogram quad) (size quad)
                   (dot_arange (histogram quad)) c)
                (between_var (histogram quad) (size quad)
                   (dot_arange (histogram quad)) t) = false)
       ∧ (∀ c, candidate (histogram quad) (size quad) c → c < t →
            fgt (F := PrimFloat.float)
                (between_var (histogram quad) (size quad)
                   (dot_arange (histogram quad)) t)
                (between_var (histogram quad) (size quad)
                   (dot_arange (histogram quad)) c) = true)).
Proof.
  apply (otsu_threshold_maximises (F := PrimFloat.float) 1020 quad).
  - exact quad_gray8.
  - vm_compute. discriminate.
Defined.

(** A 2 by 2 image of the single intensity 7. *)
Definition flat7 : grid := [ [7; 7]; [7; 7] ].

Lemma otsu_threshold_constant_image_witness :
  ∃ st, otsu_run (F := PrimFloat.float) flat7 = Some st
    ∧ max_var st = of_int (-1)
    ∧ threshold st = 0
    ∧ otsu_threshold (F := PrimFloat.float) flat7 = Some 0
    ∧ ∀ p, inb (height flat7) (width flat7) p → px (binary flat7 0) p = 0.
Proof.
  apply (otsu_threshold_constant_image (F := PrimFloat.float) 1020 flat7 7).
  - unfold rect. repeat constructor.
  - lia.
  - intros v Hv. cbn in Hv. rewrite !elem_of_cons, elem_of_nil in Hv.
    repeat destruct Hv as [->|Hv]; done.
  - vm_compute. discriminate.
Defined.

(** ** The clipped neighbourhood *)

Section morphology_facts.
Implicit Types (img : grid) (p q : pixel).

Lemma height_tabulate h w f : 0 ≤ h → height (tabulate h w f) = h.
Proof.
  intros Hh. unfold height, tabulate. rewrite length_fmap, length_seqZ. lia.
Qed.

Lemma width_tabulate h w f : 0 < h → 0 ≤ w → width (tabulate h w f) = w.
Proof.
  intros Hh Hw. unfold tabulate. rewrite (seqZ_cons 0 h) by done. csimpl.
  rewrite length_fmap, length_seqZ. lia.
Qed.

Lemma rows_tabulate h w f r :
  r ∈ tabulate h w f → length r = Z.to_nat w.
Proof.
  unfold tabulate. intros (y & -> & _)%list_elem_of_fmap.
  by rewrite length_fmap, length_seqZ.
Qed.

Lemma rect_tabulate h w f : 0 ≤ w → rect (tabulate h w f).
Proof.
  intros Hw. unfold rect. apply Forall_forall. intros r Hr.
  rewrite (rows_tabulate _ _ _ _ Hr).
  destruct (tabulate h w f) as [|r0 t] eqn:E; [by apply elem_of_nil in Hr|].
  cbn [width]. rewrite (rows_tabulate h w f r0); [done|].
  rewrite E. left.
Qed.

Lemma px_tabulate h w f p : inb h w p → px (tabulate h w f) p = f p.
Proof.
  intros [Hx Hy]. unfold px, get2, tabulate.
  rewrite list_lookup_fmap, lookup_seqZ_lt by lia. csimpl.
  rewrite list_lookup_fmap, lookup_seqZ_lt by lia. csimpl.
  rewrite !Z.add_0_l, !Z2Nat.id by lia. by destruct p.
Qed.

Lemma elem_of_window h w size p q :
  q ∈ window h w size p ↔
    inb h w q
    ∧ p.1 - size / 2 ≤ q.1 < p.1 - size / 2 + size
    ∧ p.2 - size / 2 ≤ q.2 < p.2 - size / 2 + size.
Proof.
  unfold window, inb. rewrite list_elem_of_filter, list_elem_of_bind. split.
  - intros (Hi & y & Hq & Hy). apply list_elem_of_fmap in Hq as (x & -> & Hx).
    apply elem_of_seqZ in Hx, Hy. cbn [fst snd] in *. lia.
  - intros (Hi & Hx & Hy). split; [done|]. exists q.2. split.
    + apply list_elem_of_fmap. exists q.1. split; [by destruct q|].
      by apply elem_of_seqZ.
    + by apply elem_of_seqZ.
Qed.

(** Folding [min] or [max] from a start value over a list picks the
    start value or an element of the list. *)
Lemma foldr_min_spec (a : Z) (l : list Z) :
  (foldr Z.min a l = a ∨ foldr Z.min a l ∈ l)
  ∧ foldr Z.min a l ≤ a ∧ ∀ v, v ∈ l → foldr Z.min a l ≤ v.
Proof.
  induction l as [|b l (IH1 & IH2 & IH3)]; cbn [foldr].
  - split; [by left|]. split; [lia|]. by intros v Hv%elem_of_nil.
  - split; [|split].
    + destruct (Z.min_spec b (foldr Z.min a l)) as [[_ ->]|[_ ->]].
      * right. left.
      * destruct IH1 as [->|?]; [by left|right; by right].
    + lia.
    + intros v [->|Hv]%elem_of_cons; [lia|]. specialize (IH3 v Hv). lia.
Qed.

Lemma foldr_max_spec (a : Z) (l : list Z) :
  (foldr Z.max a l = a ∨ foldr Z.max a l ∈ l)
  ∧ a ≤ foldr Z.max a l ∧ ∀ v, v ∈ l → v ≤ foldr Z.max a l.
Proof.
  induction l as [|b l (IH1 & IH2 & IH3)]; cbn [foldr].
  - split; [by left|]. split; [lia|]. by intros v Hv%elem_of_nil.
  - split; [|split].
    + destruct (Z.max_spec b (foldr Z.max a l)) as [[_ ->]|[_ ->]].
      * destruct IH1 as [->|?]; [by left|right; by right].
      * right. left.
    + lia.
    + intros v [->|Hv]%elem_of_cons; [lia|]. specialize (IH3 v Hv). lia.
Qed.

End morphology_facts.

Example window_corner : length (window 5 5 3 (0, 0)) = 4%nat.
Proof. reflexivity. Qed.

Example window_edge : length (window 5 5 3 (2, 0)) = 6%nat.
Proof. reflexivity. Qed.

Example window_inside : length (window 5 5 3 (2, 2)) = 9%nat.
Proof. reflexivity. Qed.

Example kernel_sizes :
  opening_size = 7 ∧ erosion_size = 3 ∧ smoothing_size = 3.
Proof. done. Qed.

(** C5: for every mask and every odd kernel size, erosion and dilation
    take the minimum and the maximum over the kernel-sized square around a
    pixel clipped to the image: the neighbourhood holds only pixels of the
    image (edge and corner pixels have fewer), the result is the value of
    one of them and bounds them all, so no padding value takes part; and
    eroding a mask that is foreground everywhere leaves it so. *)
Theorem filters_use_clipped_window (img : grid) (size : Z) :
  rect img → 1 ≤ size → Z.odd size = true →
  (∀ p, inb (height img) (width img) p →
     p ∈ window (height img) (width img) size p
     ∧ (∀ q, q ∈ window (height img) (width img) size p ↔
          inb (height img) (width img) q
          ∧ Z.abs (q.1 - p.1) ≤ size / 2 ∧ Z.abs (q.2 - p.2) ≤ size / 2)
     ∧ (∃ q, q ∈ window (height img) (width img) size p
             ∧ px (min_filter size img) p = px img q)
     ∧ (∀ q, q ∈ window (height img) (width img) size p →
          px (min_filter size img) p ≤ px img q)
     ∧ (∃ q, q ∈ window (height img) (width img) size p
             ∧ px (max_filter size img) p = px img q)
     ∧ (∀ q, q ∈ window (height img) (width img) size p →
          px img q ≤ px (max_filter size img) p))
  ∧ (∀ v, (∀ p, inb (height img) (width img) p → px img p = v) →
       ∀ p, inb (height img) (width img) p → px (min_filter size img) p = v).
Proof.
  intros Hrect Hsize Hodd.
  assert (size = 2 * (size / 2) + 1) as Hhalf.
  { apply Z.odd_spec in Hodd as [k ->]. Z.div_mod_to_equations. lia. }
  assert (0 ≤ size / 2) as Hr by (apply Z.div_pos; lia).
  assert (∀ p q, q ∈ window (height img) (width img) size p ↔
            inb (height img) (width img) q
            ∧ Z.abs (q.1 - p.1) ≤ size / 2 ∧ Z.abs (q.2 - p.2) ≤ size / 2)
    as Hwin.
  { intros p q. rewrite elem_of_window. split; intros (? & ? & ?);
      (split; [done|]); lia. }
  assert (∀ p, inb (height img) (width img) p →
            p ∈ window (height img) (width img) size p) as Hself.
  { intros p Hp. apply Hwin. split; [done|]. lia. }
  assert (∀ p, inb (height img) (width img) p →
    (∃ q, q ∈ window (height img) (width img) size p
          ∧ px (min_filter size img) p = px img q)
    ∧ (∀ q, q ∈ window (height img) (width img) size p →
         px (min_filter size img) p ≤ px img q)) as Hmin.
  { intros p Hp. unfold min_filter. rewrite px_tabulate by done.
    destruct (foldr_min_spec (px img p)
                (px img <$> window (height img) (width img) size p))
      as (H1 & H2 & H3).
    split.
    - destruct H1 as [->|Hin]; [exists p; split; [by apply Hself|done]|].
      apply list_elem_of_fmap in Hin as (q & E & Hq). by exists q.
    - intros q Hq. apply H3. apply list_elem_of_fmap. by exists q. }
  split.
  - intros p Hp. split; [by apply Hself|]. split; [apply Hwin|].
    destruct (Hmin p Hp) as [M1 M2]. split; [done|]. split; [done|].
    unfold max_filter. rewrite px_tabulate by done.
    destruct (foldr_max_spec (px img p)
                (px img <$> window (height img) (width img) size p))
      as (H1 & H2 & H3).
    split.
    + destruct H1 as [->|Hin]; [exists p; split; [by apply Hself|done]|].
      apply list_elem_of_fmap in Hin as (q & E & Hq). by exists q.
    + intros q Hq. apply H3. apply list_elem_of_fmap. by exists q.
  - intros v Hall p Hp. destruct (Hmin p Hp) as [(q & Hq & ->) _].
    apply Hall. by apply Hwin in Hq as [? _].
Qed.

Lemma filters_use_clipped_window_witness :
  (∀ p, inb (height ring_walls) (width ring_walls) p →
     p ∈ window (height ring_walls) (width ring_walls) 3 p
     ∧ (∀ q, q ∈ window (height ring_walls) (width ring_walls) 3 p ↔
          inb (height ring_walls) (width ring_walls) q
          ∧ Z.abs (q.1 - p.1) ≤ 3 / 2 ∧ Z.abs (q.2 - p.2) ≤ 3 / 2)
     ∧ (∃ q, q ∈ window (height ring_walls) (width ring_walls) 3 p
             ∧ px (min_filter 3 ring_walls) p = px ring_walls q)
     ∧ (∀ q, q ∈ window (height ring_walls) (width ring_walls) 3 p →
          px (min_filter 3 ring_walls) p ≤ px ring_walls q)
     ∧ (∃ q, q ∈ window (height ring_walls) (width ring_walls) 3 p
             ∧ px (max_filter 3 ring_walls) p = px ring_walls q)
     ∧ (∀ q, q ∈ window (height ring_walls) (width ring_walls) 3 p →
          px ring_walls q ≤ px (max_filter 3 ring_walls) p))
  ∧ (∀ v, (∀ p, inb (height ring_walls) (width ring_walls) p →
             px ring_walls p = v) →
       ∀ p, inb (height ring_walls) (width ring_walls) p →
         px (min_filter 3 ring_walls) p = v).
Proof.
  apply (filters_use_clipped_window ring_walls 3).
  - unfold rect. repeat constructor.
  - lia.
  - reflexivity.
Defined.

Example min_filter_ring :
  min_filter 3 ring_walls
  = [ [0; 0; 0; 0; 0];
      [0; 0; 0; 0; 0];
      [0; 0; 0; 0; 0];
      [0; 0; 0; 0; 0];
      [0; 0; 0; 0; 0] ].
Proof. vm_compute. reflexivity. Qed.

Example max_filter_ring :
  max_filter 3 ring_walls
  = [ [1; 1; 1; 1; 1];
      [1; 1; 1; 1; 1];
      [1; 1; 1; 1; 1];
      [1; 1; 1; 1; 1];
      [1; 1; 1; 1; 1] ].
Proof. vm_compute. reflexivity. Qed.

Example min_filter_full :
  min_filter 7 [ [255; 255; 255]; [255; 255; 255] ]
  = [ [255; 255; 255]; [255; 255; 255] ].
Proof. vm_compute. reflexivity. Qed.

(** *** Padding by edge repetition gives the same filters

    A rank filter that first enlarges the image by repeating its edge
    pixels and then takes the whole square computes the same minimum and
    maximum as the clipped neighbourhood: every repeated pixel is a copy of
    a pixel of the clipped neighbourhood. *)

Definition clamp (lo hi v : Z) : Z := Z.max lo (Z.min hi v).

(** The enlarged image at any position: the nearest pixel of the image. *)
Definition px_repeat (img : grid) (q : pixel) : Z :=
  px img (clamp 0 (width img - 1) q.1, clamp 0 (height img - 1) q.2).

(** The whole [size] by [size] square around [p]. *)
Definition square (size : Z) (p : pixel) : list pixel :=
  y ← seqZ (p.2 - size / 2) size;
  (λ x : Z, (x, y)) <$> seqZ (p.1 - size / 2) size.

Definition min_filter_repeat (size : Z) (img : grid) : grid :=
  tabulate (height img) (width img)
    (λ p, foldr Z.min (px img p) (px_repeat img <$> square size p)).

Definition max_filter_repeat (size : Z) (img : grid) : grid :=
  tabulate (height img) (width img)
    (λ p, foldr Z.max (px img p) (px_repeat img <$> square size p)).

Section edge_repetition.
Implicit Types (img : grid) (p q : pixel).

Lemma tabulate_ext h w (f g : pixel → Z) :
  (∀ p, inb h w p → f p = g p) → tabulate h w f = tabulate h w g.
Proof.
  intros Hfg. unfold tabulate. apply list_fmap_ext. intros i y Hy.
  apply list_fmap_ext. intros j x Hx.
  apply lookup_seqZ in Hx as [-> Hx]. apply lookup_seqZ in Hy as [-> Hy].
  apply Hfg. unfold inb. cbn [fst snd]. lia.
Qed.

Lemma foldr_min_same (a : Z) (l l' : list Z) :
  (∀ v, v ∈ l → v = a ∨ v ∈ l') → (∀ v, v ∈ l' → v = a ∨ v ∈ l) →
  foldr Z.min a l = foldr Z.min a l'.
Proof.
  intros H1 H2.
  destruct (foldr_min_spec a l) as (A1 & A2 & A3).
  destruct (foldr_min_spec a l') as (B1 & B2 & B3).
  assert (foldr Z.min a l ≤ foldr Z.min a l').
  { destruct B1 as [->|Hin]; [done|].
    destruct (H2 _ Hin) as [->|Hin']; [done|by apply A3]. }
  assert (foldr Z.min a l' ≤ foldr Z.min a l); [|lia].
  destruct A1 as [->|Hin]; [done|].
  destruct (H1 _ Hin) as [->|Hin']; [done|by apply B3].
Qed.

Lemma foldr_max_same (a : Z) (l l' : list Z) :
  (∀ v, v ∈ l → v = a ∨ v ∈ l') → (∀ v, v ∈ l' → v = a ∨ v ∈ l) →
  foldr Z.max a l = foldr Z.max a l'.
Proof.
  intros H1 H2.
  destruct (foldr_max_spec a l) as (A1 & A2 & A3).
  destruct (foldr_max_spec a l') as (B1 & B2 & B3).
  assert (foldr Z.max a l' ≤ foldr Z.max a l).
  { destruct B1 as [->|Hin]; [done|].
    destruct (H2 _ Hin) as [->|Hin']; [done|by apply A3]. }
  assert (foldr Z.max a l ≤ foldr Z.max a l'); [|lia].
  destruct A1 as [->|Hin]; [done|].
  destruct (H1 _ Hin) as [->|Hin']; [done|by apply B3].
Qed.

Lemma elem_of_square size p q :
  q ∈ square size p ↔
    p.1 - size / 2 ≤ q.1 < p.1 - size / 2 + size
    ∧ p.2 - size / 2 ≤ q.2 < p.2 - size / 2 + size.
Proof.
  unfold square. rewrite list_elem_of_bind. split.
  - intros (y & Hq & Hy). apply list_elem_of_fmap in Hq as (x & -> & Hx).
    apply elem_of_seqZ in Hx, Hy. cbn [fst snd]. lia.
  - intros (Hx & Hy). exists q.2. split.
    + apply list_elem_of_fmap. exists q.1. split; [by destruct q|].
      by apply elem_of_seqZ.
    + by apply elem_of_seqZ.
Qed.

(** The values seen through the repeated edges are those of the clipped
    neighbourhood. *)
Lemma repeat_values img size p :
  1 ≤ size → Z.odd size = true → inb (height img) (width img) p →
  (∀ v, v ∈ px_repeat img <$> square size p →
     v ∈ px img <$> window (height img) (width img) size p)
  ∧ (∀ v, v ∈ px img <$> window (height img) (width img) size p →
     v ∈ px_repeat img <$> square size p).
Proof.
  intros Hsize Hodd [Hx Hy].
  assert (size = 2 * (size / 2) + 1) as Hhalf.
  { apply Z.odd_spec in Hodd as [k ->]. Z.div_mod_to_equations. lia. }
  split.
  - intros v (q & -> & Hq)%list_elem_of_fmap.
    apply elem_of_square in Hq as [Hqx Hqy].
    apply list_elem_of_fmap.
    exists (clamp 0 (width img - 1) q.1, clamp 0 (height img - 1) q.2).
    split; [done|]. apply elem_of_window. unfold inb, clamp. cbn [fst snd].
    lia.
  - intros v (q & -> & Hq)%list_elem_of_fmap.
    apply elem_of_window in Hq as ([Hqx Hqy] & Hwx & Hwy).
    apply list_elem_of_fmap. exists q. split.
    + unfold px_repeat, clamp. f_equal. destruct q as [a b].
      cbn [fst snd] in *. f_equal; lia.
    + by apply elem_of_square.
Qed.

Lemma min_filter_repeat_eq img size :
  1 ≤ size → Z.odd size = true →
  min_filter_repeat size img = min_filter size img.
Proof.
  intros Hsize Hodd. apply tabulate_ext. intros p Hp.
  destruct (repeat_values img size p Hsize Hodd Hp) as [H1 H2].
  apply foldr_min_same; intros v Hv; right; auto.
Qed.

Lemma max_filter_repeat_eq img size :
  1 ≤ size → Z.odd size = true →
  max_filter_repeat size img = max_filter size img.
Proof.
  intros Hsize Hodd. apply tabulate_ext. intros p Hp.
  destruct (repeat_values img size p Hsize Hodd Hp) as [H1 H2].
  apply foldr_max_same; intros v Hv; right; auto.
Qed.

End edge_repetition.

(** ** Masked copies and tiling *)

Section composite_facts.

Lemma place_row_select m : ∀ s o rest,
  length s = length m → length o = length m →
  place_row m o (select_row m s ++ rest) = (blend_row m s o, rest).
Proof.
  induction m as [|mv m IH]; intros s o rest Hs Ho.
  - destruct o; [|done]. by destruct s.
  - destruct s as [|sv s]; [done|]. destruct o as [|ov o]; [done|].
    cbn [place_row select_row blend_row].
    injection Hs as Hs. injection Ho as Ho.
    destruct (mv =? 1).
    + cbn [app]. by rewrite IH.
    + by rewrite IH.
Qed.

Lemma place_select mask : ∀ src out rest,
  length src = length mask → length out = length mask →
  (∀ i m s o, mask !! i = Some m → src !! i = Some s → out !! i = Some o →
     length s = length m ∧ length o = length m) →
  place mask out (select mask src ++ rest) = blend mask src out.
Proof.
  induction mask as [|m mask IH]; intros src out rest Hs Ho Hrows.
  - destruct out; [|done]. by destruct src.
  - destruct src as [|s src]; [done|]. destruct out as [|o out]; [done|].
    injection Hs as Hs. injection Ho as Ho.
    destruct (Hrows 0%nat m s o eq_refl eq_refl eq_refl) as [Hls Hlo].
    unfold select. cbn [zip_with concat place blend].
    rewrite <- app_assoc, place_row_select by done. cbn [fst snd].
    f_equal. apply IH; [done..|].
    intros i m' s' o' Hm' Hs' Ho'. by apply (Hrows (S i)).
Qed.

Lemma lookup_blend_row m : ∀ s o i mv sv ov,
  m !! i = Some mv → s !! i = Some sv → o !! i = Some ov →
  blend_row m s o !! i = Some (if mv =? 1 then sv else ov).
Proof.
  induction m as [|a m IH]; intros s o i mv sv ov Hm Hs Ho; [done|].
  destruct s as [|b s]; [done|]. destruct o as [|c o]; [done|].
  destruct i as [|i]; cbn in *.
  - by simplify_eq.
  - by apply IH.
Qed.

Lemma lookup_blend mask : ∀ src out i m s o,
  mask !! i = Some m → src !! i = Some s → out !! i = Some o →
  blend mask src out !! i = Some (blend_row m s o).
Proof.
  induction mask as [|a mask IH]; intros src out i m s o Hm Hs Ho; [done|].
  destruct src as [|b src]; [done|]. destruct out as [|c out]; [done|].
  destruct i as [|i]; cbn in *.
  - by simplify_eq.
  - by apply IH.
Qed.

(** A list repeated [n] times is read modulo its length. *)
Lemma lookup_concat_replicate {A} (l : list A) (n : nat) : ∀ i,
  (i < n * length l)%nat →
  concat (replicate n l) !! i = l !! (i mod length l)%nat.
Proof.
  induction n as [|n IH]; intros i Hi; [lia|].
  cbn [replicate concat].
  destruct (decide (i < length l)%nat) as [Hlt|Hge].
  - rewrite lookup_app_l by done. by rewrite Nat.mod_small.
  - rewrite lookup_app_r by lia. rewrite IH by lia.
    f_equal.
    replace i with ((i - length l) + 1 * length l)%nat at 2 by lia.
    by rewrite Nat.Div0.mod_add.
Qed.

Lemma length_concat_replicate {A} (l : list A) (n : nat) :
  length (concat (replicate n l)) = (n * length l)%nat.
Proof.
  induction n as [|n IH]; [done|].
  cbn [replicate concat]. rewrite length_app, IH. lia.
Qed.

Lemma elem_of_concat_replicate {A} (l : list A) (n : nat) (x : A) :
  x ∈ concat (replicate n l) → x ∈ l.
Proof.
  induction n as [|n IH]; cbn [replicate concat].
  - by intros ?%elem_of_nil.
  - intros [?|?]%elem_of_app; auto.
Qed.

Section tiling.
Variables (tex : image) (th tw h w : Z).
Hypothesis tex_shape : image_shape th tw tex.
Hypothesis th_pos : 0 < th.
Hypothesis tw_pos : 0 < tw.
Hypothesis h_nonneg : 0 ≤ h.
Hypothesis w_nonneg : 0 ≤ w.

Lemma tex_height_eq : tex_height tex = th.
Proof. by destruct tex_shape. Qed.

Lemma tex_width_eq : tex_width tex = tw.
Proof.
  destruct tex_shape as [Hl Hr]. destruct tex as [|r t].
  - cbn in Hl. lia.
  - cbn [tex_width]. apply Hr. left.
Qed.

Lemma reps_cover (n t : Z) :
  0 ≤ n → 0 < t →
  (Z.to_nat n ≤ Z.to_nat ((n + t - 1) / t) * Z.to_nat t)%nat.
Proof.
  intros Hn Ht.
  assert (n ≤ (n + t - 1) / t * t ∧ 0 ≤ (n + t - 1) / t) as [H1 H2].
  { Z.div_mod_to_equations. nia. }
  rewrite <- Z2Nat.inj_mul by lia. lia.
Qed.

(** The tiled texture has the shape of the canvas and repeats the
    texture: [tiled[y, x] = tex[y mod th, x mod tw]]. *)
Lemma tiled_texture_shape : image_shape h w (tiled_texture h w tex).
Proof.
  destruct tex_shape as [Hl Hr].
  pose proof (reps_cover h th h_nonneg th_pos) as Hy.
  pose proof (reps_cover w tw w_nonneg tw_pos) as Hx.
  unfold tiled_texture, crop, tile. rewrite tex_height_eq, tex_width_eq.
  split.
  - rewrite length_take, length_fmap, length_concat_replicate, length_fmap.
    lia.
  - intros r Hr'%subseteq_take.
    apply list_elem_of_fmap in Hr' as (r' & -> & Hr').
    apply elem_of_concat_replicate in Hr'.
    apply list_elem_of_fmap in Hr' as (trow & -> & Htrow).
    rewrite length_take, length_concat_replicate.
    specialize (Hr trow Htrow). lia.
Qed.

Lemma iget_tiled_texture x y :
  0 ≤ x < w → 0 ≤ y < h →
  iget (tiled_texture h w tex) y x = iget tex (y mod th) (x mod tw)
  ∧ is_Some (iget tex (y mod th) (x mod tw)).
Proof.
  intros Hx Hy. destruct tex_shape as [Hl Hr].
  pose proof (reps_cover h th h_nonneg th_pos) as Hcy.
  pose proof (reps_cover w tw w_nonneg tw_pos) as Hcx.
  pose proof (Z.mod_pos_bound y th th_pos) as Hmy.
  pose proof (Z.mod_pos_bound x tw tw_pos) as Hmx.
  destruct (lookup_lt_is_Some_2 tex (Z.to_nat (y mod th))) as [trow Htrow];
    [lia|].
  assert (Z.of_nat (length trow) = tw) as Hlen.
  { by eapply Hr, list_elem_of_lookup_2. }
  destruct (lookup_lt_is_Some_2 trow (Z.to_nat (x mod tw))) as [t Ht]; [lia|].
  assert (iget tex (y mod th) (x mod tw) = Some t) as Hrhs.
  { unfold iget. rewrite Htrow. cbn. done. }
  rewrite Hrhs. split; [|done].
  unfold tiled_texture, crop, tile, iget.
  rewrite tex_height_eq, tex_width_eq.
  rewrite lookup_take_lt by lia. rewrite list_lookup_fmap.
  rewrite lookup_concat_replicate by (rewrite length_fmap; lia).
  rewrite length_fmap, list_lookup_fmap.
  replace (length tex) with (Z.to_nat th) by lia.
  rewrite <- Z2Nat.inj_mod by lia. rewrite Htrow. cbn.
  rewrite lookup_take_lt by lia.
  rewrite lookup_concat_replicate by lia.
  replace (length trow) with (Z.to_nat tw) by lia.
  rewrite <- Z2Nat.inj_mod by lia. done.
Qed.

End tiling.

End composite_facts.

(** C6: the output of the floor filler is the white canvas with every
    pixel where [walls == 1] set to black and then every pixel where the
    kept-floor mask is 1 set to the pixel of the tiled texture at the same
    place, and the tiled texture repeats the texture:
    [tiled[y, x] = tex[y mod th, x mod tw]]; a pixel that is neither wall
    nor kept floor stays white. *)
Theorem compose_pixels (walls clean : grid) (tex : image) (th tw : Z) :
  rect walls →
  height clean = height walls ∧ width clean = width walls ∧ rect clean →
  image_shape th tw tex → 0 < th → 0 < tw →
  ∀ x y, 0 ≤ x < width walls → 0 ≤ y < height walls →
    ∃ t,
      iget tex (y mod th) (x mod tw) = Some t
      ∧ iget (tiled_texture (height walls) (width walls) tex) y x = Some t
      ∧ iget (white_canvas (height walls) (width walls)) y x
        = Some (255, 255, 255)
      ∧ iget (compose walls clean tex) y x
        = Some (if get2 clean y x =? 1 then t
                else if get2 walls y x =? 1 then (0, 0, 0)
                else (255, 255, 255)).
Proof.
  intros Hwalls (Hch & Hcw & Hclean) Htex Hth Htw x y Hx Hy.
  set (h := height walls) in *. set (w := width walls) in *.
  assert (0 ≤ h) as Hh by lia. assert (0 ≤ w) as Hw by lia.
  destruct (iget_tiled_texture tex th tw h w Htex Hth Htw Hh Hw x y Hx Hy)
    as [Htile [t Ht]].
  destruct (tiled_texture_shape tex th tw h w Htex Hth Htw Hh Hw)
    as [Htl Htr].
  exists t. split; [done|]. split; [by rewrite Htile|].
  assert (white_canvas h w !! Z.to_nat y
          = Some (replicate (Z.to_nat w) (255, 255, 255))) as Hcanvas.
  { unfold white_canvas. apply lookup_replicate_2. lia. }
  split.
  { unfold iget. rewrite Hcanvas. cbn. apply lookup_replicate_2. lia. }
  assert (iget (tiled_texture h w tex) y x = Some t) as Ht'.
  { by rewrite Htile. }
  unfold iget in Ht'.
  destruct (tiled_texture h w tex !! Z.to_nat y) as [s|] eqn:Hs; [|done].
  cbn in Ht'.
  destruct (lookup_row walls y Hy) as [wr Hwr].
  destruct (lookup_cell walls y x wr Hwalls Hwr Hx) as [wv Hwv].
  destruct (lookup_row clean y) as [m Hm]; [lia|].
  destruct (lookup_cell clean y x m Hclean Hm) as [mv Hmv]; [lia|].
  set (out1 := paint_where walls (0, 0, 0) (white_canvas h w)).
  assert (out1 !! Z.to_nat y
          = Some (zip_with (λ (m : Z) (o : rgb), if m =? 1 then (0, 0, 0) else o)
                    wr (replicate (Z.to_nat w) (255, 255, 255)))) as Hout1.
  { unfold out1, paint_where. by rewrite lookup_zip_with, Hwr, Hcanvas. }
  assert (∀ r, r ∈ walls → length r = Z.to_nat w) as Hwrows.
  { intros r Hr. pose proof (width_rows walls r Hwalls Hr). fold w in H. lia. }
  assert (∀ r, r ∈ clean → length r = Z.to_nat w) as Hcrows.
  { intros r Hr. pose proof (width_rows clean r Hclean Hr). lia. }
  unfold compose. fold h w out1.
  rewrite <- (app_nil_r (select clean (tiled_texture h w tex))).
  rewrite place_select.
  - unfold iget. rewrite (lookup_blend _ _ _ _ _ _ _ Hm Hs Hout1). cbn.
    erewrite lookup_blend_row; [|done|done|].
    2: { rewrite lookup_zip_with, Hwv. cbn.
         rewrite lookup_replicate_2 by lia. done. }
    unfold get2. rewrite Hm, Hmv, Hwr, Hwv. done.
  - unfold height in *. lia.
  - unfold out1, paint_where, white_canvas.
    rewrite length_zip_with, length_replicate. unfold height in *. lia.
  - intros i m' s' o' Hm' Hs' Ho'.
    rewrite (Hcrows m') by (by eapply list_elem_of_lookup_2).
    pose proof (Htr s' (list_elem_of_lookup_2 _ _ _ Hs')).
    split; [lia|].
    unfold out1, paint_where in Ho'.
    apply lookup_zip_with_Some in Ho' as (a & b & -> & Ha & Hb).
    rewrite length_zip_with.
    rewrite (Hwrows a) by (by eapply list_elem_of_lookup_2).
    unfold white_canvas in Hb. apply lookup_replicate in Hb as [-> _].
    rewrite length_replicate. lia.
Qed.

(** A 2 by 2 texture and the kept floor of [ring_walls]. *)
Definition checker : image :=
  [ [(1, 1, 1); (2, 2, 2)];
    [(3, 3, 3); (4, 4, 4)] ].

Definition ring_floor : grid :=
  [ [0; 0; 0; 0; 0];
    [0; 0; 0; 0; 0];
    [0; 0; 1; 0; 0];
    [0; 0; 0; 0; 0];
    [0; 0; 0; 0; 0] ].

Example compose_ring_row1 :
  compose ring_walls ring_floor checker !! 1%nat
  = Some [ (255, 255, 255); (0, 0, 0); (0, 0, 0); (0, 0, 0); (255, 255, 255) ].
Proof. reflexivity. Qed.

Example compose_ring_row2 :
  compose ring_walls ring_floor checker !! 2%nat
  = Some [ (255, 255, 255); (0, 0, 0); (1, 1, 1); (0, 0, 0); (255, 255, 255) ].
Proof. reflexivity. Qed.

Lemma compose_pixels_witness :
  ∃ t,
    iget checker (2 mod 2) (2 mod 2) = Some t
    ∧ iget (tiled_texture (height ring_walls) (width ring_walls) checker) 2 2
      = Some t
    ∧ iget (white_canvas (height ring_walls) (width ring_walls)) 2 2
      = Some (255, 255, 255)
    ∧ iget (compose ring_walls ring_floor checker) 2 2
      = Some (if get2 ring_floor 2 2 =? 1 then t
              else if get2 ring_walls 2 2 =? 1 then (0, 0, 0)
              else (255, 255, 255)).
Proof.
  apply (compose_pixels ring_walls ring_floor checker 2 2).
  - unfold rect. repeat constructor.
  - split; [reflexivity|]. split; [reflexivity|]. unfold rect. repeat constructor.
  - split; [reflexivity|]. intros r Hr. unfold checker in Hr.
    rewrite !elem_of_cons, elem_of_nil in Hr.
    destruct Hr as [->|[->|[]]]; reflexivity.
  - lia.
  - lia.
  - vm_compute. split; [discriminate|reflexivity].
  - vm_compute. split; [discriminate|reflexivity].
Defined.

(** C9: each entry point, given fewer than two positional arguments,
    prints its usage line and exits with status 1 without calling the
    pipeline; given two or more it calls the pipeline on the first two. *)
Theorem main_checks_arguments (s : Script) (argv : list string) :
  ((length (positional argv) < 2)%nat →
     main s argv = [Print (usage s); Exit 1])
  ∧ ((2 ≤ length (positional argv))%nat →
     ∃ a b, positional argv !! 0%nat = Some a
            ∧ positional argv !! 1%nat = Some b
            ∧ main s argv = [Invoke s a b]).
Proof.
  unfold main, positional. split.
  - intros Hlen. destruct argv as [|prog [|a [|b rest]]]; cbn in *; try done.
    lia.
  - intros Hlen. destruct argv as [|prog [|a [|b rest]]]; cbn in Hlen; try lia.
    exists a, b. split; [done|]. split; [done|].
    destruct (Z.ltb_spec (Z.of_nat (length (prog :: a :: b :: rest))) 3)
      as [Hlt|_]; [cbn [length] in Hlt; lia|done].
Qed.

Example main_too_few :
  main GenerateFloorMask ["generate_floor_mask.py"; "walls.png"]%string
  = [Print (usage GenerateFloorMask); Exit 1].
Proof. reflexivity. Qed.

Example main_enough :
  main RemoveInteriorLines
    ["remove_interior_lines.py"; "plan.png"; "walls.png"; "extra"]%string
  = [Invoke RemoveInteriorLines "plan.png" "walls.png"].
Proof. reflexivity. Qed.

(** ** The labeler and the filter on the mask [blobs] *)

Lemma blobs_rect : rect blobs.
Proof. unfold rect. repeat constructor. Qed.

Lemma connected_components_labels_witness :
  ∃ lbl sts,
    connected_components blobs = Some (lbl, sts)
    ∧ same_shape blobs lbl
    ∧ (∀ p, inb (height blobs) (width blobs) p → px blobs p = 0 →
         px lbl p = -1)
    ∧ (∀ p, inb (height blobs) (width blobs) p → px blobs p ≠ 0 →
         0 ≤ px lbl p < Z.of_nat (length sts))
    ∧ (∀ i, 0 ≤ i < Z.of_nat (length sts) →
         ∃ s, first_of (height blobs) (width blobs) lbl s ∧ px lbl s = i)
    ∧ (∀ s s', first_of (height blobs) (width blobs) lbl s →
         first_of (height blobs) (width blobs) lbl s' →
         0 ≤ px lbl s → 0 ≤ px lbl s' →
         (px lbl s < px lbl s' ↔ rm_lt s s'))
    ∧ (∀ p q, fg blobs p → fg blobs q →
         (px lbl p = px lbl q ↔ connected blobs p q)).
Proof.
  apply (connected_components_labels blobs).
  unfold rect. repeat constructor.
Defined.

Lemma connected_components_stats_witness :
  ∃ lbl sts,
    connected_components blobs = Some (lbl, sts)
    ∧ (∀ i st, sts !! i = Some st →
         st_area st
           = Z.of_nat (label_count (height blobs) (width blobs) lbl (Z.of_nat i))
         ∧ st_area st ≤ st_w st * st_h st
         ∧ exact_box (height blobs) (width blobs) lbl (Z.of_nat i) st)
    ∧ total_area sts = Z.of_nat (fg_count blobs).
Proof.
  apply (connected_components_stats blobs).
  unfold rect. repeat constructor.
Defined.

Lemma drop_small_keeps_large_witness :
  ∃ lbl sts,
    connected_components blobs = Some (lbl, sts)
    ∧ drop_small 2 blobs = Some (clean_mask blobs lbl (keep_large 2 sts))
    ∧ (∀ i st, sts !! i = Some st →
         (Z.of_nat i ∈ keep_large 2 sts ↔ 2 ≤ st_area st))
    ∧ (∀ idx, idx ∈ keep_large 2 sts →
         ∃ i, idx = Z.of_nat i ∧ is_Some (sts !! i))
    ∧ (∀ p, inb (height blobs) (width blobs) p →
         (px (clean_mask blobs lbl (keep_large 2 sts)) p = 1
            ↔ px lbl p ∈ keep_large 2 sts)
         ∧ (px (clean_mask blobs lbl (keep_large 2 sts)) p = 0
            ∨ px (clean_mask blobs lbl (keep_large 2 sts)) p = 1))
    ∧ (∀ p, inb (height blobs) (width blobs) p → px blobs p ≠ 0 →
         is_Some (sts !! Z.to_nat (px lbl p))).
Proof.
  apply (drop_small_keeps_large blobs 2).
  unfold rect. repeat constructor.
Defined.

Example fg_count_blobs : fg_count blobs = 6%nat.
Proof. reflexivity. Qed.

(** The floor filler always produces an image. *)
Lemma generate_floor_mask_total (gray : grid) (tex : image) :
  rect gray → is_Some (generate_floor_mask gray tex).
Proof.
  intros Hg. unfold generate_floor_mask.
  assert (rect (binarize gray WALL_THRESHOLD)) as Hw by (by apply rect_binarize).
  destruct (outside_mask_spec _ Hw) as (outside & -> & Hs & _).
  cbn [mbind option_bind].
  destruct (shape_zip2 (λ a b : Z, if (a =? 0) && (b =? 0) then 1 else 0)
              (binarize gray WALL_THRESHOLD) outside Hw Hs) as (_ & _ & Hf).
  destruct (connected_components_spec _ Hf) as (lbl & sts & seeds & Hcc & _).
  unfold drop_small, candidate_floor. rewrite Hcc. cbn [mbind option_bind].
  done.
Qed.

(** The pocket of [ring_gray] is smaller than [MIN_FLOOR_AREA_PX] and is
    dropped: walls black, everything else white. *)
Example generate_floor_mask_ring :
  generate_floor_mask ring_gray checker
  = Some (map (map (λ v : Z, if v =? 1 then (0, 0, 0) else (255, 255, 255)))
            ring_walls).
Proof. vm_compute. reflexivity. Qed.

(** A picture this small has no stroke that survives the opening. *)
Example remove_interior_lines_bimodal :
  remove_interior_lines (F := PrimFloat.float) bimodal
  = Some [ [255; 255; 255]; [255; 255; 255] ].
Proof. vm_compute. reflexivity. Qed.

(** * Further properties of the scripts *)

(** ** The floor of the floor filler is enclosed *)

(** The candidate floor of [generate_floor_mask] never touches the border
    of the image and is closed in by walls: a floor pixel is not a wall, is
    not on the first or last row or column, and each of its four
    neighbours is a pixel of the image that is a wall or floor again. *)
Theorem floor_is_enclosed (walls : grid) :
  rect walls →
  ∃ outside,
    outside_mask walls = Some outside
    ∧ ∀ p, inb (height walls) (width walls) p →
        px (candidate_floor walls outside) p = 1 →
        px walls p = 0
        ∧ ¬ border (height walls) (width walls) p
        ∧ ∀ q, adj4 p q →
            inb (height walls) (width walls) q
            ∧ (px walls q = 0 → px (candidate_floor walls outside) q = 1).
Proof.
  intros Hw.
  destruct (outside_mask_spec walls Hw) as (outside & Ho & Hs & Hop & Hout).
  exists outside. split; [done|]. intros p Hp Hfloor.
  rewrite px_candidate_floor in Hfloor by done.
  destruct (Z.eqb_spec (px walls p) 0) as [Ew|]; [|done].
  destruct (Z.eqb_spec (px outside p) 0) as [Eo|]; [|done].
  assert (¬ border_reachable walls p) as Hnr.
  { destruct (Hout p Hp) as [[E _]|[_ ?]]; [lia|done]. }
  assert (¬ border (height walls) (width walls) p) as Hnb.
  { intros Hb. apply Hnr. exists p. split; [done|]. split; [done|constructor]. }
  split; [done|]. split; [done|]. intros q Hadj.
  assert (inb (height walls) (width walls) q) as Hq.
  { unfold border, inb, adj4 in *. lia. }
  split; [done|]. intros Eq.
  rewrite px_candidate_floor by done.
  destruct (Hout q Hq) as [[_ Hr]|[-> _]].
  - exfalso. apply Hnr. destruct Hr as (s & Hsb & Hso & Hpath).
    exists s. split; [done|]. split; [done|].
    eapply path_step; [done|by apply adj4_sym|done].
  - by rewrite Eq.
Qed.

Lemma floor_is_enclosed_witness :
  ∃ outside,
    outside_mask ring_walls = Some outside
    ∧ ∀ p, inb (height ring_walls) (width ring_walls) p →
        px (candidate_floor ring_walls outside) p = 1 →
        px ring_walls p = 0
        ∧ ¬ border (height ring_walls) (width ring_walls) p
        ∧ ∀ q, adj4 p q →
            inb (height ring_walls) (width ring_walls) q
            ∧ (px ring_walls q = 0 →
               px (candidate_floor ring_walls outside) q = 1).
Proof.
  apply (floor_is_enclosed ring_walls).
  unfold rect. repeat constructor.
Defined.

Example candidate_floor_ring :
  (λ outside, candidate_floor ring_walls outside) <$> outside_mask ring_walls
  = Some ring_floor.
Proof. vm_compute. reflexivity. Qed.

(** ** An image without walls has no floor *)

Section no_walls.
Variable walls : grid.
Hypothesis walls_rect : rect walls.
Hypothesis no_wall : ∀ p, inb (height walls) (width walls) p → px walls p = 0.

(** Every pixel is reached from the left border along its row. *)
Lemma row_path (n : nat) (y : Z) :
  0 ≤ y < height walls → Z.of_nat n < width walls →
  path (open walls) (0, y) (Z.of_nat n, y).
Proof.
  intros Hy. induction n as [|n IH]; intros Hn.
  - constructor.
  - eapply path_step; [apply IH; lia| |].
    + unfold adj4. cbn [fst snd]. lia.
    + split; [|apply no_wall]; unfold inb; cbn [fst snd]; lia.
Qed.

Lemma all_border_reachable p :
  inb (height walls) (width walls) p → border_reachable walls p.
Proof.
  intros [Hx Hy]. exists (0, p.2). split; [by left|]. split.
  - split; [|apply no_wall]; unfold inb; cbn [fst snd]; lia.
  - destruct p as [x y]. cbn [fst snd] in *.
    rewrite <- (Z2Nat.id x) by lia. apply row_path; [done|lia].
Qed.

End no_walls.

(** When no pixel of the image is a wall, the flood fill of
    [generate_floor_mask] marks every pixel as outside and the candidate
    floor is empty. *)
Theorem no_walls_no_floor (walls : grid) :
  rect walls →
  (∀ p, inb (height walls) (width walls) p → px walls p = 0) →
  ∃ outside,
    outside_mask walls = Some outside
    ∧ ∀ p, inb (height walls) (width walls) p →
        px outside p = 1 ∧ px (candidate_floor walls outside) p = 0.
Proof.
  intros Hw Hno.
  destruct (outside_mask_spec walls Hw) as (outside & Ho & Hs & Hop & Hout).
  exists outside. split; [done|]. intros p Hp.
  rewrite px_candidate_floor by done.
  destruct (Hout p Hp) as [[-> _]|[_ Hnr]].
  - split; [done|]. by destruct (px walls p =? 0).
  - by destruct Hnr; apply all_border_reachable.
Qed.

Definition blank3 : grid := [ [0; 0; 0]; [0; 0; 0] ].

Lemma no_walls_no_floor_witness :
  ∃ outside,
    outside_mask blank3 = Some outside
    ∧ ∀ p, inb (height blank3) (width blank3) p →
        px outside p = 1 ∧ px (candidate_floor blank3 outside) p = 0.
Proof.
  apply (no_walls_no_floor blank3).
  - unfold rect. repeat constructor.
  - intros [x y] [Hx Hy]. cbn [fst snd] in *.
    change (height blank3) with 2 in Hy. change (width blank3) with 3 in Hx.
    assert (x = 0 ∨ x = 1 ∨ x = 2) as Hxc by lia.
    assert (y = 0 ∨ y = 1) as Hyc by lia.
    destruct Hxc as [->|[->| ->]], Hyc as [->| ->]; reflexivity.
Defined.

(** ** The rows of the stats array *)

Lemma total_area_lower (sts : list Stat) :
  (∀ st, st ∈ sts → 1 ≤ st_area st) → Z.of_nat (length sts) ≤ total_area sts.
Proof.
  unfold total_area. induction sts as [|st sts IH]; intros Hall; [done|].
  cbn [length foldr].
  assert (1 ≤ st_area st) by (apply Hall; left).
  assert (Z.of_nat (length sts) ≤ foldr (λ st a, st_area st + a) 0 sts).
  { apply IH. intros st' Hst'. apply Hall. by right. }
  lia.
Qed.

(** At the end of the scan the areas add up to the foreground count. *)
Lemma scan_inv_total_area (mask : grid) (seeds : list pixel) (s : Scan) :
  scan_inv mask (coords (height mask) (width mask)) seeds s →
  total_area (stats s) = Z.of_nat (fg_count mask).
Proof.
  intros [I1 I2 I3 I4 I5 I6 I7 I8 I11]. unfold fg_count.
  pose proof (filter_length_compl (λ p, px mask p ≠ 0)
                (coords (height mask) (width mask))) as Hc.
  assert (nfresh (height mask) (width mask) lab_fresh (labels s)
          = length (filter (λ p, ¬ px mask p ≠ 0)
                      (coords (height mask) (width mask)))) as Hn.
  { unfold nfresh. apply filter_length_ext. intros p Hp.
    unfold lab_fresh. rewrite Z.eqb_eq. split.
    - intros E Hm. by apply (I5 p Hp Hm).
    - intros Hm. apply I4; [by apply elem_of_coords|].
      destruct (decide (px mask p = 0)); [done|]. by destruct Hm. }
  lia.
Qed.

(** Every row of the stats of [connected_components] describes a
    non-empty component: its area, width and height are at least 1 and its
    box lies inside the image; there are no more components than
    foreground pixels, and a mask without foreground has none and is
    labelled -1 everywhere. *)
Theorem stats_rows_are_sane (mask : grid) :
  rect mask →
  ∃ lbl sts,
    connected_components mask = Some (lbl, sts)
    ∧ (∀ i st, sts !! i = Some st →
         1 ≤ st_area st ∧ 1 ≤ st_w st ∧ 1 ≤ st_h st
         ∧ 0 ≤ st_x st ∧ st_x st + st_w st ≤ width mask
         ∧ 0 ≤ st_y st ∧ st_y st + st_h st ≤ height mask)
    ∧ (length sts ≤ fg_count mask)%nat
    ∧ ((∀ p, inb (height mask) (width mask) p → px mask p = 0) →
       sts = [] ∧ ∀ p, inb (height mask) (width mask) p → px lbl p = -1).
Proof.
  intros Hrect.
  destruct (connected_components_spec mask Hrect) as (lbl & sts & seeds & Hcc & Hinv).
  pose proof (scan_inv_total_area mask seeds _ Hinv) as Htotal.
  destruct Hinv as [I1 I2 I3 I4 I5 I6 I7 (I8 & I9 & I10) I11].
  cbn [labels stats current] in *.
  exists lbl, sts. split; [done|].
  assert (∀ i st, sts !! i = Some st →
         1 ≤ st_area st ∧ 1 ≤ st_w st ∧ 1 ≤ st_h st
         ∧ 0 ≤ st_x st ∧ st_x st + st_w st ≤ width mask
         ∧ 0 ≤ st_y st ∧ st_y st + st_h st ≤ height mask) as Hrows.
  { intros i st Hi.
    destruct (I7 i st Hi) as (l & Hnd & Hl & Ha & Hbox & X1 & X2 & Y1 & Y2).
    destruct X1 as (p1 & Hp1 & E1), X2 as (p2 & Hp2 & E2).
    destruct Y1 as (p3 & Hp3 & E3), Y2 as (p4 & Hp4 & E4).
    pose proof (Hbox p1 Hp1).
    assert (1 ≤ Z.of_nat (length l)).
    { destruct l; [by apply elem_of_nil in Hp1|cbn [length]; lia]. }
    apply Hl in Hp1 as [[? ?] _], Hp2 as [[? ?] _].
    apply Hl in Hp3 as [[? ?] _], Hp4 as [[? ?] _].
    lia. }
  split; [done|]. split.
  - assert (Z.of_nat (length sts) ≤ total_area sts); [|lia].
    apply total_area_lower. intros st (i & Hi)%list_elem_of_lookup.
    by destruct (Hrows i st Hi).
  - intros Hbg. split; [|by auto].
    destruct sts as [|st sts]; [done|]. exfalso.
    destruct (I7 0%nat st eq_refl) as (l & _ & Hl & _ & _ & (p & Hp & _) & _).
    apply Hl in Hp as [Hp E]. rewrite (I4 p Hp (Hbg p Hp)) in E. done.
Qed.

Lemma stats_rows_are_sane_witness :
  ∃ lbl sts,
    connected_components blobs = Some (lbl, sts)
    ∧ (∀ i st, sts !! i = Some st →
         1 ≤ st_area st ∧ 1 ≤ st_w st ∧ 1 ≤ st_h st
         ∧ 0 ≤ st_x st ∧ st_x st + st_w st ≤ width blobs
         ∧ 0 ≤ st_y st ∧ st_y st + st_h st ≤ height blobs)
    ∧ (length sts ≤ fg_count blobs)%nat
    ∧ ((∀ p, inb (height blobs) (width blobs) p → px blobs p = 0) →
       sts = [] ∧ ∀ p, inb (height blobs) (width blobs) p → px lbl p = -1).
Proof.
  apply (stats_rows_are_sane blobs). unfold rect. repeat constructor.
Defined.

(** ** The component filter without labels *)

Lemma foldl_paint_shape lbl l : ∀ clean,
  rect lbl →
  height clean = height lbl ∧ width clean = width lbl ∧ rect clean →
  height (foldl (paint lbl) clean l) = height lbl
  ∧ width (foldl (paint lbl) clean l) = width lbl
  ∧ rect (foldl (paint lbl) clean l).
Proof.
  induction l as [|idx l IH]; intros clean Hl Hc; cbn [foldl]; [done|].
  apply IH; [done|]. by apply paint_shape.
Qed.

(** The filtering step in terms of the labelling it is computed from. *)
Lemma drop_small_spec (mask : grid) (min_area : Z) :
  rect mask →
  ∃ lbl sts seeds clean,
    connected_components mask = Some (lbl, sts)
    ∧ scan_inv mask (coords (height mask) (width mask)) seeds
        {| labels := lbl; stats := sts; current := Z.of_nat (length sts) |}
    ∧ drop_small min_area mask = Some clean
    ∧ (height clean = height mask ∧ width clean = width mask ∧ rect clean)
    ∧ ∀ p, inb (height mask) (width mask) p →
        px clean p
        = if decide (px lbl p ∈ keep_large min_area sts) then 1 else 0.
Proof.
  intros Hrect.
  destruct (connected_components_spec mask Hrect)
    as (lbl & sts & seeds & Hcc & Hinv).
  exists lbl, sts, seeds, (clean_mask mask lbl (keep_large min_area sts)).
  split; [done|]. split; [done|]. split.
  { unfold drop_small. by rewrite Hcc. }
  destruct Hinv as [(Hh & Hw & Hl) _ _ _ _ _ _ _ _].
  cbn [labels] in *.
  assert (height (full_like mask 0) = height lbl
          ∧ width (full_like mask 0) = width lbl
          ∧ rect (full_like mask 0)) as Hzero.
  { rewrite height_full_like, width_full_like, Hh, Hw.
    eauto using rect_full_like. }
  split.
  { unfold clean_mask. rewrite <- Hh, <- Hw. by apply foldl_paint_shape. }
  intros p Hp. unfold clean_mask.
  rewrite px_foldl_paint; [|done|done|by rewrite Hh, Hw].
  assert (px (full_like mask 0) p = 0) as ->.
  { destruct Hp. unfold px. by apply get2_full_like. }
  case_decide as Hin; rewrite elem_of_elements in Hin.
  - by rewrite decide_True.
  - by rewrite decide_False.
Qed.

(** The row of the stats of a foreground pixel counts the pixels connected
    to it. *)
Lemma scan_inv_component (mask : grid) (seeds : list pixel) (s : Scan) p :
  scan_inv mask (coords (height mask) (width mask)) seeds s →
  inb (height mask) (width mask) p → px mask p ≠ 0 →
  ∃ i st l,
    px (labels s) p = Z.of_nat i ∧ stats s !! i = Some st
    ∧ NoDup l ∧ (∀ q, q ∈ l ↔ connected mask p q)
    ∧ st_area st = Z.of_nat (length l).
Proof.
  intros [I1 I2 I3 I4 I5 I6 I7 I8 I11] Hp Hm.
  assert (px (labels s) p ≠ -1) as Hne by (by apply I5; [apply elem_of_coords|]).
  assert (0 ≤ px (labels s) p < Z.of_nat (length (stats s))) as Hr.
  { destruct (I3 p Hp); [done|lia]. }
  destruct (lookup_lt_is_Some_2 (stats s) (Z.to_nat (px (labels s) p)))
    as [st Hst]; [lia|].
  destruct (I7 _ st Hst) as (l & Hnd & Hl & Ha & _).
  exists (Z.to_nat (px (labels s) p)), st, l.
  split; [lia|]. split; [done|]. split; [done|]. split; [|done].
  intros q. rewrite Hl, Z2Nat.id by lia. split.
  - intros [Hq E]. by apply I6.
  - intros Hc.
    assert (inb (height mask) (width mask) q) as Hq.
    { by apply (path_ok (fg mask) p q). }
    split; [done|]. by apply I6.
Qed.

(** What the filtering step of both pipelines does, said without labels:
    the cleaned mask has the shape of the mask and holds zeros and ones;
    background stays 0, and a foreground pixel is kept exactly when the
    number of pixels 4-connected to it through the foreground is at least
    the minimum area. *)
Theorem drop_small_by_component (mask : grid) (min_area : Z) :
  rect mask →
  ∃ clean,
    drop_small min_area mask = Some clean
    ∧ (height clean = height mask ∧ width clean = width mask ∧ rect clean)
    ∧ ∀ p, inb (height mask) (width mask) p →
        (px clean p = 0 ∨ px clean p = 1)
        ∧ (px mask p = 0 → px clean p = 0)
        ∧ (px mask p ≠ 0 →
           ∃ l, NoDup l ∧ (∀ q, q ∈ l ↔ connected mask p q)
                ∧ (px clean p = 1 ↔ min_area ≤ Z.of_nat (length l))).
Proof.
  intros Hrect.
  destruct (drop_small_spec mask min_area Hrect)
    as (lbl & sts & seeds & clean & Hcc & Hinv & Hd & Hshape & Hpx).
  exists clean. split; [done|]. split; [done|]. intros p Hp.
  rewrite (Hpx p Hp). split; [case_decide; auto|]. split.
  - intros Hm. rewrite decide_False; [done|].
    unfold keep_large. rewrite elem_of_keep_from.
    intros [?%not_elem_of_empty|(i & st & E & _)]; [done|].
    pose proof (si_bg _ _ _ _ Hinv p Hp Hm) as Hb. cbn [labels] in Hb. lia.
  - intros Hm.
    destruct (scan_inv_component mask seeds _ p Hinv Hp Hm)
      as (i & st & l & Hi & Hst & Hnd & Hl & Ha).
    cbn [labels stats] in Hi, Hst.
    exists l. split; [done|]. split; [done|]. rewrite <- Ha.
    unfold keep_large. case_decide as Hin; rewrite elem_of_keep_from in Hin.
    + destruct Hin as [?%not_elem_of_empty|(i' & st' & E & Hst' & Hge)]; [done|].
      assert (i' = i) as -> by lia. by simplify_eq.
    + split; [done|]. intros Hge. destruct Hin. right.
      exists i, st. split; [lia|done].
Qed.

Lemma drop_small_by_component_witness :
  ∃ clean,
    drop_small 2 blobs = Some clean
    ∧ (height clean = height blobs ∧ width clean = width blobs ∧ rect clean)
    ∧ ∀ p, inb (height blobs) (width blobs) p →
        (px clean p = 0 ∨ px clean p = 1)
        ∧ (px blobs p = 0 → px clean p = 0)
        ∧ (px blobs p ≠ 0 →
           ∃ l, NoDup l ∧ (∀ q, q ∈ l ↔ connected blobs p q)
                ∧ (px clean p = 1 ↔ 2 ≤ Z.of_nat (length l))).
Proof.
  apply (drop_small_by_component blobs 2). unfold rect. repeat constructor.
Defined.

(** The two ends of the minimum area: with a minimum of at most 1 the
    filter keeps every foreground pixel, and with a minimum above the
    number of foreground pixels it keeps none. *)
Theorem drop_small_extremes (mask : grid) (min_area : Z) :
  rect mask →
  ∃ clean,
    drop_small min_area mask = Some clean
    ∧ (min_area ≤ 1 →
       ∀ p, inb (height mask) (width mask) p →
         px clean p = if decide (px mask p = 0) then 0 else 1)
    ∧ (Z.of_nat (fg_count mask) < min_area →
       ∀ p, inb (height mask) (width mask) p → px clean p = 0).
Proof.
  intros Hrect.
  destruct (drop_small_spec mask min_area Hrect)
    as (lbl & sts & seeds & clean & Hcc & Hinv & Hd & Hshape & Hpx).
  exists clean. split; [done|].
  assert (∀ p, inb (height mask) (width mask) p → px mask p = 0 →
               px clean p = 0) as Hbg.
  { intros p Hp Hm. rewrite (Hpx p Hp), decide_False; [done|].
    unfold keep_large. rewrite elem_of_keep_from.
    intros [?%not_elem_of_empty|(i & st & E & _)]; [done|].
    pose proof (si_bg _ _ _ _ Hinv p Hp Hm) as Hb. cbn [labels] in Hb. lia. }
  split.
  - intros Hmin p Hp. case_decide as Hm; [by apply Hbg|].
    destruct (scan_inv_component mask seeds _ p Hinv Hp Hm)
      as (i & st & l & Hi & Hst & Hnd & Hl & Ha).
    cbn [labels stats] in Hi, Hst.
    rewrite (Hpx p Hp), decide_True; [done|].
    unfold keep_large. rewrite elem_of_keep_from. right.
    exists i, st. split; [lia|]. split; [done|].
    assert (p ∈ l) as Hin by (apply Hl; constructor).
    destruct l; [by apply elem_of_nil in Hin|]. cbn [length] in Ha. lia.
  - intros Hfew p Hp.
    destruct (decide (px mask p = 0)) as [Hm|Hm]; [by apply Hbg|].
    destruct (scan_inv_component mask seeds _ p Hinv Hp Hm)
      as (i & st & l & Hi & Hst & Hnd & Hl & Ha).
    cbn [labels stats] in Hi, Hst.
    assert (length l ≤ fg_count mask)%nat as Hle.
    { unfold fg_count. apply submseteq_length, NoDup_submseteq; [done|].
      intros q Hq%Hl.
      assert (fg mask q) as [Hq1 Hq2] by (by apply (path_ok (fg mask) p q)).
      apply list_elem_of_filter. split; [done|]. by apply elem_of_coords. }
    rewrite (Hpx p Hp), decide_False; [done|].
    unfold keep_large. rewrite elem_of_keep_from.
    intros [?%not_elem_of_empty|(i' & st' & E & Hst' & Hge)]; [done|].
    assert (i' = i) as -> by lia. simplify_eq. lia.
Qed.

Lemma drop_small_extremes_witness :
  ∃ clean,
    drop_small 7 blobs = Some clean
    ∧ (7 ≤ 1 →
       ∀ p, inb (height blobs) (width blobs) p →
         px clean p = if decide (px blobs p = 0) then 0 else 1)
    ∧ (Z.of_nat (fg_count blobs) < 7 →
       ∀ p, inb (height blobs) (width blobs) p → px clean p = 0).
Proof.
  apply (drop_small_extremes blobs 7). unfold rect. repeat constructor.
Defined.

Example drop_small_blobs_all : drop_small 1 blobs = Some blobs.
Proof. vm_compute. reflexivity. Qed.

Example drop_small_blobs_none :
  drop_small 7 blobs = Some (full_like blobs 0).
Proof. vm_compute. reflexivity. Qed.

(** Raising the minimum area never adds a pixel to the cleaned mask. *)
Theorem drop_small_antitone (mask : grid) (m1 m2 : Z) :
  rect mask → m1 ≤ m2 →
  ∃ clean1 clean2,
    drop_small m1 mask = Some clean1
    ∧ drop_small m2 mask = Some clean2
    ∧ ∀ p, inb (height mask) (width mask) p →
        px clean2 p = 1 → px clean1 p = 1.
Proof.
  intros Hrect Hm.
  destruct (drop_small_spec mask m1 Hrect)
    as (lbl & sts & seeds & clean1 & Hcc & _ & Hd1 & _ & Hpx1).
  destruct (drop_small_spec mask m2 Hrect)
    as (lbl' & sts' & _ & clean2 & Hcc' & _ & Hd2 & _ & Hpx2).
  rewrite Hcc in Hcc'. injection Hcc' as <- <-.
  exists clean1, clean2. split; [done|]. split; [done|]. intros p Hp.
  rewrite (Hpx1 p Hp), (Hpx2 p Hp).
  case_decide as H2; [|done]. intros _. rewrite decide_True; [done|].
  unfold keep_large in *. rewrite elem_of_keep_from in H2.
  rewrite elem_of_keep_from.
  destruct H2 as [?|(i & st & E & Hst & Hge)]; [by left|].
  right. exists i, st. split; [done|]. split; [done|lia].
Qed.

Lemma drop_small_antitone_witness :
  ∃ clean1 clean2,
    drop_small 2 blobs = Some clean1
    ∧ drop_small 3 blobs = Some clean2
    ∧ ∀ p, inb (height blobs) (width blobs) p →
        px clean2 p = 1 → px clean1 p = 1.
Proof.
  apply (drop_small_antitone blobs 2 3); [|lia].
  unfold rect. repeat constructor.
Defined.

(** ** The threshold of Otsu is an intensity of the image *)

Section otsu_bins.
Implicit Types (l L hist : list Z) (t : Z).

Lemma sum_Z_zeros {A} (L : list A) : sum_Z ((λ _, 0) <$> L) = 0.
Proof. unfold sum_Z. induction L as [|a L IH]; csimpl; lia. Qed.

Lemma sum_Z_indicator_out (v : Z) L :
  v ∉ L → sum_Z ((λ t, if decide (v = t) then 1 else 0) <$> L) = 0.
Proof.
  unfold sum_Z. induction L as [|a L IH]; intros Hv; [done|]. csimpl.
  rewrite decide_False.
  - rewrite IH; [done|]. intros Hin. apply Hv. by right.
  - intros ->. apply Hv. left.
Qed.

(** The bins [L] together count the pixels with a value in [L]. *)
Lemma sum_Z_counts_in l L :
  NoDup L →
  sum_Z ((λ t, Z.of_nat (length (filter (λ v, v = t) l))) <$> L)
  = Z.of_nat (length (filter (λ v, v ∈ L) l)).
Proof.
  intros Hnd. induction l as [|v l IH].
  - cbn [filter list_filter length]. apply sum_Z_zeros.
  - rewrite <- (list_fmap_ext
      (λ t, (if decide (v = t) then 1 else 0)
            + Z.of_nat (length (filter (λ v0, v0 = t) l)))).
    + rewrite sum_Z_fmap_add, IH, (filter_cons (λ v0, v0 ∈ L)).
      case_decide as Hv.
      * rewrite sum_Z_indicator by done. cbn [length]. lia.
      * rewrite sum_Z_indicator_out by done. lia.
    + intros i t _. rewrite filter_cons.
      destruct (decide (v = t)); cbn [length]; lia.
Qed.

Lemma take_seqZ_256 t :
  0 ≤ t ≤ 255 → take (Z.to_nat (t + 1)) (seqZ 0 256) = seqZ 0 (t + 1).
Proof.
  intros Ht. replace 256 with ((t + 1) + (255 - t)) by lia.
  rewrite seqZ_app by lia. apply take_app_length'.
  rewrite length_seqZ. lia.
Qed.

(** [w_b] at the threshold [t] is the number of pixels of value 0 to
    [t]. *)
Lemma class_weight_histogram gray t :
  0 ≤ t ≤ 255 →
  class_weight (histogram gray) t
  = Z.of_nat (length (filter (λ v, 0 ≤ v ≤ t) (concat gray))).
Proof.
  intros Ht. unfold class_weight, histogram.
  rewrite <- fmap_take, take_seqZ_256 by done.
  rewrite sum_Z_counts_in by apply NoDup_seqZ. f_equal.
  apply filter_length_ext. intros v _. rewrite elem_of_seqZ. lia.
Qed.

Lemma lookup_histogram gray t :
  0 ≤ t ≤ 255 →
  histogram gray !! Z.to_nat t
  = Some (Z.of_nat (length (filter (λ v, v = t) (concat gray)))).
Proof.
  intros Ht. unfold histogram.
  rewrite list_lookup_fmap, lookup_seqZ_lt by lia. csimpl.
  by replace (0 + Z.of_nat (Z.to_nat t)) with t by lia.
Qed.

Lemma hist_at_histogram gray t :
  0 ≤ t ≤ 255 →
  hist_at (histogram gray) t
  = Z.of_nat (length (filter (λ v, v = t) (concat gray))).
Proof. intros Ht. unfold hist_at. by rewrite lookup_histogram. Qed.

Lemma filter_length_pos {A} (P : A → Prop) `{!∀ x, Decision (P x)}
    (k : list A) (x : A) :
  x ∈ k → P x → (1 ≤ length (filter P k))%nat.
Proof.
  intros Hx HP. assert (x ∈ filter P k) as Hin by (by apply list_elem_of_filter).
  destruct (filter P k); [by apply elem_of_nil in Hin|cbn [length]; lia].
Qed.

Lemma filter_length_elem {A} (P : A → Prop) `{!∀ x, Decision (P x)}
    (k : list A) :
  length (filter P k) ≠ 0%nat → ∃ x, x ∈ k ∧ P x.
Proof.
  intros Hne. destruct (filter P k) as [|x k'] eqn:E; [done|].
  exists x. assert (x ∈ filter P k) as Hin by (rewrite E; left).
  apply list_elem_of_filter in Hin as [? ?]. done.
Qed.

(** Two intensities of the image, the lower one is a candidate. *)
Lemma candidate_of_pixels gray u v :
  gray8 gray → u ∈ concat gray → v ∈ concat gray → u < v →
  candidate (histogram gray) (size gray) u.
Proof.
  intros Hg Hu Hv Huv.
  pose proof (Hg u Hu). pose proof (Hg v Hv).
  split; [lia|]. rewrite class_weight_histogram by lia. unfold size.
  pose proof (filter_length_compl (λ x, 0 ≤ x ≤ u) (concat gray)).
  pose proof (filter_length_pos (λ x, 0 ≤ x ≤ u) (concat gray) u Hu).
  pose proof (filter_length_pos (λ x, ¬ 0 ≤ x ≤ u) (concat gray) v Hv).
  lia.
Qed.

(** A candidate has a pixel at or below it and a pixel above it. *)
Lemma candidate_pixels gray t :
  gray8 gray → candidate (histogram gray) (size gray) t →
  (∃ u, u ∈ concat gray ∧ u ≤ t) ∧ (∃ v, v ∈ concat gray ∧ t < v).
Proof.
  intros Hg (Ht & Hb & Hf). rewrite class_weight_histogram in Hb, Hf by done.
  unfold size in Hf.
  pose proof (filter_length_compl (λ x, 0 ≤ x ≤ t) (concat gray)) as Hc.
  split.
  - destruct (filter_length_elem (λ x, 0 ≤ x ≤ t) (concat gray))
      as (u & Hu & ?); [lia|].
    exists u. split; [done|lia].
  - destruct (filter_length_elem (λ x, ¬ 0 ≤ x ≤ t) (concat gray))
      as (v & Hv & Hn); [lia|].
    exists v. split; [done|]. pose proof (Hg v Hv). lia.
Qed.

(** A threshold whose bin is empty changes nothing: the classes, their
    sums and the variance are those of the threshold before it. *)
Lemma empty_bin_same_class hist t :
  length hist = 256%nat → 0 ≤ t ≤ 255 → hist_at hist t = 0 →
  (t = 0 ∧ class_weight hist t = 0)
  ∨ (1 ≤ t ∧ class_weight hist t = class_weight hist (t - 1)
     ∧ class_sum hist t = class_sum hist (t - 1)).
Proof.
  intros Hlen Ht H0. unfold class_weight, class_sum, hist_at in *.
  destruct (lookup_lt_is_Some_2 hist (Z.to_nat t)) as [ht Hht]; [lia|].
  rewrite Hht in H0. cbn in H0. subst ht.
  replace (Z.to_nat (t + 1)) with (S (Z.to_nat t)) by lia.
  rewrite (sum_Z_take_S hist _ 0 Hht).
  rewrite (sum_Z_take_S _ (Z.to_nat t) (t * 0)).
  2: { rewrite lookup_zip_with, Hht, lookup_seqZ_lt by lia.
       csimpl. do 2 f_equal. lia. }
  destruct (decide (t = 0)) as [->|Hne].
  - left. by rewrite take_0.
  - right. replace (Z.to_nat (t - 1 + 1)) with (Z.to_nat t) by lia.
    split; [lia|]. split; lia.
Qed.

End otsu_bins.

Section otsu_occurs.
Context {F : Type} `{!Float64 F}.

(** The first of the candidates of largest variance has a pixel of its
    own value: were its bin empty, the threshold before it would be a
    candidate of the very same variance. *)
Lemma first_maximiser_occurs (B : Z) `{!Ordered B} (hist : list Z)
    (total sum_total t : Z) :
  length hist = 256%nat →
  candidate hist total t →
  (∀ c, candidate hist total c → c < t →
     fgt (between_var hist total sum_total t)
         (between_var hist total sum_total c) = true) →
  hist_at hist t ≠ 0.
Proof.
  intros Hlen (Ht & Hb & Hf) Hfirst H0.
  destruct (empty_bin_same_class hist t Hlen Ht H0)
    as [[_ E]|(Ht1 & Ew & Es)]; [done|].
  assert (candidate hist total (t - 1)) as Hc.
  { split; [lia|]. by rewrite <- Ew. }
  specialize (Hfirst (t - 1) Hc ltac:(lia)).
  assert (between_var hist total sum_total (t - 1)
          = between_var hist total sum_total t) as E.
  { unfold between_var. by rewrite <- Ew, <- Es. }
  rewrite E in Hfirst. by rewrite (fgt_asym _ _ Hfirst) in Hfirst.
Qed.

(** On an image of at least two intensities the loop returns a candidate
    whose bin is not empty. *)
Lemma otsu_threshold_candidate (B : Z) `{!Exact B} `{!Ordered B}
    (gray : grid) (u v : Z) :
  gray8 gray → 255 * size gray ≤ B →
  u ∈ concat gray → v ∈ concat gray → u < v →
  ∃ t, otsu_threshold gray = Some t
    ∧ candidate (histogram gray) (size gray) t
    ∧ hist_at (histogram gray) t ≠ 0.
Proof.
  intros Hg HB Hu Hv Huv.
  destruct (otsu_run_spec B gray Hg HB) as (st & Hrun & Hbest); [done|].
  exists (threshold st). split.
  { unfold otsu_threshold. by rewrite Hrun. }
  pose proof (candidate_of_pixels gray u v Hg Hu Hv Huv) as Hc.
  destruct Hbest as [(_ & _ & H3)|(H1 & H2 & H3 & H4 & H5)].
  - destruct (H3 u Hc). destruct Hc as ((? & ?) & _). lia.
  - split; [done|].
    apply (first_maximiser_occurs B (histogram gray) (size gray)
             (dot_arange (histogram gray)) (threshold st));
      [apply length_histogram|done|done].
Qed.

End otsu_occurs.

(** On an 8-bit image with at least two intensities [otsu_threshold]
    returns an intensity that occurs in the image and is not the
    brightest one: some pixel has exactly the value of the threshold and
    some pixel lies above it. *)
Theorem otsu_threshold_occurs {F : Type} `{!Float64 F} (B : Z)
    `{!Exact B} `{!Ordered B} (gray : grid) (u v : Z) :
  gray8 gray → 255 * size gray ≤ B →
  u ∈ concat gray → v ∈ concat gray → u < v →
  ∃ t, otsu_threshold gray = Some t
    ∧ t ∈ concat gray
    ∧ ∃ v', v' ∈ concat gray ∧ t < v'.
Proof.
  intros Hg HB Hu Hv Huv.
  destruct (otsu_threshold_candidate B gray u v Hg HB Hu Hv Huv)
    as (t & Ht & Hc & Hbin).
  exists t. split; [done|]. split.
  - pose proof Hc as (Hr & _). rewrite hist_at_histogram in Hbin by done.
    destruct (filter_length_elem (λ x, x = t) (concat gray))
      as (x & Hx & ->); [lia|done].
  - by destruct (candidate_pixels gray t Hg Hc) as [_ ?].
Qed.

Lemma otsu_threshold_occurs_witness :
  ∃ t, otsu_threshold (F := PrimFloat.float) quad = Some t
    ∧ t ∈ concat quad
    ∧ ∃ v', v' ∈ concat quad ∧ t < v'.
Proof.
  apply (otsu_threshold_occurs (F := PrimFloat.float) 1020 quad 6 98).
  - exact quad_gray8.
  - vm_compute. discriminate.
  - cbn. rewrite !elem_of_cons. auto.
  - cbn. rewrite !elem_of_cons. auto.
  - lia.
Defined.

(** On an image of exactly two intensities the threshold is the darker
    one. *)
Lemma darker_level_is_threshold {F : Type} `{!Float64 F} (B : Z)
    `{!Exact B} `{!Ordered B} (gray : grid) (a b : Z) :
  0 ≤ a → a < b → b ≤ 255 →
  (∀ v, v ∈ concat gray → v = a ∨ v = b) →
  a ∈ concat gray → b ∈ concat gray →
  255 * size gray ≤ B →
  otsu_threshold gray = Some a.
Proof.
  intros Ha Hab Hb Htwo Hina Hinb HB.
  assert (gray8 gray) as Hg.
  { intros v Hv. destruct (Htwo v Hv); lia. }
  destruct (otsu_threshold_candidate B gray a b Hg HB Hina Hinb Hab)
    as (t & Ht & Hc & Hbin).
  rewrite Ht. f_equal.
  pose proof Hc as (Hr & _). rewrite hist_at_histogram in Hbin by done.
  destruct (filter_length_elem (λ x, x = t) (concat gray))
    as (x & Hx & ->); [lia|].
  destruct (candidate_pixels gray t Hg Hc) as [_ (v & Hv & Hlt)].
  destruct (Htwo t Hx), (Htwo v Hv); lia.
Qed.

(** [gray < t] selects nothing when no pixel lies below [t]. *)
Lemma binary_nothing_below (gray : grid) (t : Z) p :
  rect gray → (∀ v, v ∈ concat gray → t ≤ v) →
  inb (height gray) (width gray) p → px (binary gray t) p = 0.
Proof.
  intros Hrect Hge Hp. pose proof (px_elem_of_concat gray p Hrect Hp) as Hin.
  apply Hge in Hin. destruct Hp as [Hx Hy]. unfold px, binary in *.
  rewrite get2_map2 by done. destruct (Z.ltb_spec (get2 gray p.2 p.1) t); lia.
Qed.

(** An image of exactly two intensities, such as a pure black and white
    drawing, gets the darker intensity as its threshold, so that the
    binarization [gray < t] of [remove_interior_lines] marks no pixel at
    all as wall. *)
Theorem otsu_two_levels {F : Type} `{!Float64 F} (B : Z)
    `{!Exact B} `{!Ordered B} (gray : grid) (a b : Z) :
  rect gray → 0 ≤ a → a < b → b ≤ 255 →
  (∀ v, v ∈ concat gray → v = a ∨ v = b) →
  a ∈ concat gray → b ∈ concat gray →
  255 * size gray ≤ B →
  otsu_threshold gray = Some a
  ∧ ∀ p, inb (height gray) (width gray) p → px (binary gray a) p = 0.
Proof.
  intros Hrect Ha Hab Hb Htwo Hina Hinb HB. split.
  - by apply (darker_level_is_threshold B gray a b).
  - intros p Hp. apply binary_nothing_below; [done| |done].
    intros v Hv. destruct (Htwo v Hv); lia.
Qed.

(** A 2 by 2 image of the two intensities 10 and 200. *)
Definition two_tone : grid := [ [10; 200]; [200; 10] ].

Lemma two_tone_rect : rect two_tone.
Proof. unfold rect. repeat constructor. Qed.

Lemma two_tone_levels v : v ∈ concat two_tone → v = 10 ∨ v = 200.
Proof.
  intros Hv. cbn in Hv. rewrite !elem_of_cons, elem_of_nil in Hv.
  repeat destruct Hv as [->|Hv]; auto. done.
Qed.

Lemma otsu_two_levels_witness :
  otsu_threshold (F := PrimFloat.float) two_tone = Some 10
  ∧ ∀ p, inb (height two_tone) (width two_tone) p →
      px (binary two_tone 10) p = 0.
Proof.
  apply (otsu_two_levels (F := PrimFloat.float) 1020 two_tone 10 200).
  - exact two_tone_rect.
  - lia.
  - lia.
  - lia.
  - exact two_tone_levels.
  - cbn. rewrite !elem_of_cons. auto.
  - cbn. rewrite !elem_of_cons. auto.
  - vm_compute. discriminate.
Defined.

(** ** The pipelines over any erosion and dilation

    What is proved of the pipelines below rests only on two properties of
    a Pillow filter of odd size: it keeps the shape of the image, and it
    leaves an image of zeros an image of zeros. *)

Lemma remove_interior_lines_filters {F : Type} `{!Float64 F} (gray : grid) :
  remove_interior_lines gray
  = remove_interior_lines_with min_filter max_filter gray.
Proof. unfold remove_interior_lines, remove_interior_lines_with. done. Qed.

Lemma generate_floor_mask_filters (gray : grid) (tex : image) :
  generate_floor_mask gray tex
  = generate_floor_mask_with min_filter max_filter gray tex.
Proof. unfold generate_floor_mask, generate_floor_mask_with. done. Qed.

(** [g] has the shape of [gray]. *)
Definition like (gray g : grid) : Prop :=
  height g = height gray ∧ width g = width gray ∧ rect g.

(** [g] has the shape of [gray] and holds zeros. *)
Definition blank (gray g : grid) : Prop :=
  like gray g ∧ ∀ p, inb (height gray) (width gray) p → px g p = 0.

(** What the pipelines need of a filter of odd size. *)
Record filter_laws (f : Z → grid → grid) : Prop := {
  filter_like k g : Z.odd k = true → 1 ≤ k → rect g → like g (f k g);
  filter_blank k g : Z.odd k = true → 1 ≤ k → blank g g → blank g (f k g)
}.

Section stages.
Implicit Types (gray g : grid) (p : pixel).

Lemma like_refl g : rect g → like g g.
Proof. by intros Hg. Qed.

Lemma like_trans gray g g' : like gray g → like g g' → like gray g'.
Proof. intros (Hh & Hw & Hr) (Hh' & Hw' & Hr'). split; [|split]; congruence. Qed.

Lemma blank_self gray g : blank gray g → blank g g.
Proof.
  intros [(Hh & Hw & Hr) Hz]. split; [by apply like_refl|].
  intros p Hp. apply Hz. by rewrite <- Hh, <- Hw.
Qed.

Lemma blank_trans gray g g' : blank gray g → blank g g' → blank gray g'.
Proof.
  intros [Hl Hz] [Hl' Hz']. split; [by eapply like_trans|].
  intros p Hp. apply Hz'. destruct Hl as (Hh & Hw & _). by rewrite Hh, Hw.
Qed.

Lemma like_map2 (f : Z → Z) gray g : like gray g → like gray (map (map f) g).
Proof.
  intros (Hh & Hw & Hr). split; [|split].
  - by rewrite height_map2.
  - by rewrite width_map2.
  - by apply rect_map2.
Qed.

Lemma px_map2 (f : Z → Z) gray g p :
  like gray g → inb (height gray) (width gray) p →
  px (map (map f) g) p = f (px g p).
Proof.
  intros (Hh & Hw & Hr) [Hx Hy]. unfold px. apply get2_map2; [done|lia..].
Qed.

Lemma blank_map2 (f : Z → Z) gray g :
  f 0 = 0 → blank gray g → blank gray (map (map f) g).
Proof.
  intros Hf [Hl Hz]. split; [by apply like_map2|].
  intros p Hp. by rewrite (px_map2 f gray g p Hl Hp), Hz.
Qed.

Lemma like_filter f k gray g :
  filter_laws f → Z.odd k = true → 1 ≤ k → like gray g → like gray (f k g).
Proof.
  intros Hf Hodd Hk Hl. eapply like_trans; [done|].
  apply Hf; [done..|]. by destruct Hl as (_ & _ & ?).
Qed.

Lemma blank_filter f k gray g :
  filter_laws f → Z.odd k = true → 1 ≤ k → blank gray g → blank gray (f k g).
Proof.
  intros Hf Hodd Hk Hb. eapply blank_trans; [done|].
  apply Hf; [done..|]. by eapply blank_self.
Qed.

Lemma iter_keeps (P : grid → Prop) (f : grid → grid) (n : nat) g :
  (∀ g', P g' → P (f g')) → P g → P (Nat.iter n f g).
Proof. intros Hf Hg. induction n as [|n IH]; [done|]. cbn. by apply Hf. Qed.

(** The filtering step keeps the shape, yields zeros and ones, and keeps
    the background. *)
Lemma drop_small_like gray mask min_area :
  like gray mask →
  ∃ clean,
    drop_small min_area mask = Some clean
    ∧ like gray clean
    ∧ (∀ p, inb (height gray) (width gray) p →
         (px clean p = 0 ∨ px clean p = 1)
         ∧ (px mask p = 0 → px clean p = 0)).
Proof.
  intros (Hh & Hw & Hr).
  destruct (drop_small_spec mask min_area Hr)
    as (lbl & sts & seeds & clean & Hcc & Hinv & Hd & Hshape & Hpx).
  exists clean. split; [done|]. split.
  { eapply like_trans; [|exact Hshape]. done. }
  intros p Hp. rewrite <- Hh, <- Hw in Hp. rewrite (Hpx p Hp).
  split; [case_decide; auto|].
  intros Hm. rewrite decide_False; [done|].
  unfold keep_large. rewrite elem_of_keep_from.
  intros [?%not_elem_of_empty|(i & st & E & _)]; [done|].
  pose proof (si_bg _ _ _ _ Hinv p Hp Hm) as Hb. cbn [labels] in Hb. lia.
Qed.

Lemma opening_size_odd : Z.odd opening_size = true ∧ 1 ≤ opening_size.
Proof. by vm_compute. Qed.

Lemma erosion_size_odd : Z.odd erosion_size = true ∧ 1 ≤ erosion_size.
Proof. by vm_compute. Qed.

Lemma smoothing_size_odd : Z.odd smoothing_size = true ∧ 1 ≤ smoothing_size.
Proof. by vm_compute. Qed.

End stages.

(** The clipped-window filters satisfy the two laws. *)
Lemma tabulate_like (g : grid) (f : pixel → Z) :
  rect g → like g (tabulate (height g) (width g) f).
Proof.
  intros Hg. assert (0 ≤ height g) by (unfold height; lia).
  assert (0 ≤ width g) by (destruct g; cbn [width]; lia).
  split; [by apply height_tabulate|]. split; [|by apply rect_tabulate].
  destruct (decide (height g = 0)) as [E|E].
  - destruct g; [done|]. unfold height in E. cbn [length] in E. lia.
  - apply width_tabulate; lia.
Qed.

Lemma min_filter_laws : filter_laws min_filter.
Proof.
  split.
  - intros k g _ _ Hg. by apply tabulate_like.
  - intros k g _ _ [(_ & _ & Hg) Hz]. split; [by apply tabulate_like|].
    intros p Hp. unfold min_filter. rewrite px_tabulate by done.
    destruct (foldr_min_spec (px g p)
                (px g <$> window (height g) (width g) k p)) as [[->| Hin] _].
    + by apply Hz.
    + apply list_elem_of_fmap in Hin as (q & -> & Hq).
      apply elem_of_window in Hq as [Hq _]. by apply Hz.
Qed.

Lemma max_filter_laws : filter_laws max_filter.
Proof.
  split.
  - intros k g _ _ Hg. by apply tabulate_like.
  - intros k g _ _ [(_ & _ & Hg) Hz]. split; [by apply tabulate_like|].
    intros p Hp. unfold max_filter. rewrite px_tabulate by done.
    destruct (foldr_max_spec (px g p)
                (px g <$> window (height g) (width g) k p)) as [[->| Hin] _].
    + by apply Hz.
    + apply list_elem_of_fmap in Hin as (q & -> & Hq).
      apply elem_of_window in Hq as [Hq _]. by apply Hz.
Qed.

(** The loop of [otsu_threshold] divides only after it has tested both
    divisors against zero, so it returns whatever the arithmetic is. *)
Lemma otsu_loop_total {F : Type} `{!Float64 F} (hist : list Z)
    (total sum_total : Z) (ts : list Z) : ∀ st,
  is_Some (otsu_loop hist total sum_total ts st).
Proof.
  induction ts as [|t ts IH]; intros st; cbn [otsu_loop]; [done|].
  destruct (fis0 (fadd (w_b st) (of_int (hist_at hist t)))) eqn:E1; [apply IH|].
  destruct (fis0 (fsub (of_int total)
                    (fadd (w_b st) (of_int (hist_at hist t))))) eqn:E2;
    [done|].
  unfold checked_div. rewrite E1, E2. cbn [mbind option_bind].
  destruct (fgt _ _); apply IH.
Qed.

Lemma otsu_threshold_total {F : Type} `{!Float64 F} (gray : grid) :
  ∃ t, otsu_threshold gray = Some t.
Proof.
  unfold otsu_threshold, otsu_run.
  destruct (otsu_loop_total (histogram gray) (size gray)
              (dot_arange (histogram gray)) (seqZ 0 256)
              (mkState (of_int 0) (of_int 0) (of_int (-1)) 0)) as [st ->].
  by exists (threshold st).
Qed.

(** Four rows of ink above a row of paper: 16 pixels of value 0, one of
    50 and three of 255.  The threshold is 50, the ink survives the
    opening, and the component filter is what removes it. *)
Definition plan : grid :=
  [ [ 0;   0;   0;   0];
    [ 0;   0;   0;   0];
    [ 0;   0;   0;   0];
    [ 0;   0;   0;   0];
    [50; 255; 255; 255] ].

Lemma plan_rect : rect plan.
Proof. unfold rect. repeat constructor. Qed.

Example otsu_threshold_plan :
  otsu_threshold (F := PrimFloat.float) plan = Some 50.
Proof. vm_compute. reflexivity. Qed.

Example wall_candidates_plan :
  positive (Nat.iter DILATION_ITERATIONS (max_filter opening_size)
              (max_filter opening_size
                 (min_filter opening_size (binary plan 50))))
  = full_like plan 1.
Proof. vm_compute. reflexivity. Qed.

Example remove_interior_lines_plan :
  remove_interior_lines (F := PrimFloat.float) plan
  = Some (full_like plan 255).
Proof. vm_compute. reflexivity. Qed.

Section wall_extractor.
Context {F : Type} `{!Float64 F}.
Variables (erode dilate : Z → grid → grid).
Hypothesis erode_laws : filter_laws erode.
Hypothesis dilate_laws : filter_laws dilate.

(** The stages of [remove_interior_lines] after the threshold. *)
Lemma wall_stages (gray : grid) (t : Z) :
  rect gray →
  ∃ arr clean,
    like gray arr
    ∧ (blank gray (binary gray t) → blank gray arr)
    ∧ drop_small MIN_COMPONENT_AREA_PX arr = Some clean
    ∧ like gray clean
    ∧ (blank gray arr → blank gray clean)
    ∧ (otsu_threshold gray = Some t →
       remove_interior_lines_with erode dilate gray
       = Some (invert255 (positive
                 (Nat.iter EROSION_ITERATIONS (erode erosion_size)
                    (scale255 clean)))))
    ∧ like gray (Nat.iter EROSION_ITERATIONS (erode erosion_size)
                   (scale255 clean))
    ∧ (blank gray clean →
       blank gray (Nat.iter EROSION_ITERATIONS (erode erosion_size)
                     (scale255 clean))).
Proof.
  intros Hrect.
  destruct opening_size_odd as [Hodd Hpos].
  destruct erosion_size_odd as [Hodd' Hpos'].
  set (arr := positive
                (Nat.iter DILATION_ITERATIONS (dilate opening_size)
                   (dilate opening_size
                      (erode opening_size (binary gray t))))).
  assert (like gray arr) as Harr.
  { apply like_map2, iter_keeps; [intros g' Hg'; by apply like_filter|].
    apply like_filter; [done..|]. apply like_filter; [done..|].
    apply (like_map2 (λ v, (if v <? t then 1 else 0) * 255)).
    by apply like_refl. }
  destruct (drop_small_like gray arr MIN_COMPONENT_AREA_PX Harr)
    as (clean & Hd & Hclean & Hpx).
  exists arr, clean. split; [done|]. split.
  { intros Hb. apply blank_map2; [done|].
    apply iter_keeps; [intros g' Hg'; by apply blank_filter|].
    apply blank_filter; [done..|]. by apply blank_filter. }
  split; [done|]. split; [done|]. split.
  { intros [_ Hz]. split; [done|]. intros p Hp.
    by apply (Hpx p Hp), Hz. }
  split.
  { intros Ht. unfold remove_interior_lines_with. rewrite Ht.
    cbn [mbind option_bind]. fold arr. rewrite Hd. done. }
  split.
  - apply iter_keeps; [intros g' Hg'; by apply like_filter|].
    by apply like_map2.
  - intros Hb. apply iter_keeps; [intros g' Hg'; by apply blank_filter|].
    by apply blank_map2.
Qed.

End wall_extractor.

(** [remove_interior_lines] on any rectangular image, with any erosion
    and dilation that keep the shape of an image: the run ends without a
    division by zero, whatever the arithmetic, and the image saved has the
    shape of the input and holds only 0 and 255. *)
Theorem remove_interior_lines_output {F : Type} `{!Float64 F}
    (erode dilate : Z → grid → grid) (gray : grid) :
  filter_laws erode → filter_laws dilate → rect gray →
  ∃ out,
    remove_interior_lines_with erode dilate gray = Some out
    ∧ (height out = height gray ∧ width out = width gray ∧ rect out)
    ∧ ∀ p, inb (height gray) (width gray) p → px out p = 0 ∨ px out p = 255.
Proof.
  intros He Hd Hrect.
  destruct (otsu_threshold_total gray) as [t Ht].
  destruct (wall_stages erode dilate He Hd gray t Hrect)
    as (arr & clean & _ & _ & _ & _ & _ & Hout & Hthin & _).
  eexists. split; [by apply Hout|]. split.
  { by do 2 apply like_map2. }
  intros p Hp. unfold invert255.
  rewrite (px_map2 (λ v, (1 - v) * 255) gray) by (done || by apply like_map2).
  unfold positive.
  rewrite (px_map2 (λ v, if 0 <? v then 1 else 0) gray) by done.
  destruct (0 <? _); auto.
Qed.

Lemma remove_interior_lines_output_witness :
  ∃ out,
    remove_interior_lines_with (F := PrimFloat.float)
      min_filter max_filter plan = Some out
    ∧ (height out = height plan ∧ width out = width plan ∧ rect out)
    ∧ ∀ p, inb (height plan) (width plan) p → px out p = 0 ∨ px out p = 255.
Proof.
  apply (remove_interior_lines_output (F := PrimFloat.float)
           min_filter max_filter plan).
  - exact min_filter_laws.
  - exact max_filter_laws.
  - exact plan_rect.
Defined.

(** An image of exactly two intensities comes out of
    [remove_interior_lines] entirely white: the threshold is the darker
    intensity, no pixel lies below it, and every later stage keeps an
    empty mask empty.  This holds with any erosion and dilation that keep
    the shape of an image and leave an image of zeros as it is. *)
Theorem remove_interior_lines_two_levels {F : Type} `{!Float64 F} (B : Z)
    `{!Exact B} `{!Ordered B} (erode dilate : Z → grid → grid)
    (gray : grid) (a b : Z) :
  filter_laws erode → filter_laws dilate →
  rect gray → 0 ≤ a → a < b → b ≤ 255 →
  (∀ v, v ∈ concat gray → v = a ∨ v = b) →
  a ∈ concat gray → b ∈ concat gray →
  255 * size gray ≤ B →
  ∃ out,
    remove_interior_lines_with erode dilate gray = Some out
    ∧ ∀ p, inb (height gray) (width gray) p → px out p = 255.
Proof.
  intros He Hd Hrect Ha Hab Hb Htwo Hina Hinb HB.
  pose proof (darker_level_is_threshold B gray a b Ha Hab Hb Htwo Hina Hinb HB)
    as Ht.
  destruct (wall_stages erode dilate He Hd gray a Hrect)
    as (arr & clean & _ & Harr & _ & _ & Hclean & Hout & Hthin & Hblank).
  eexists. split; [by apply Hout|].
  assert (blank gray (binary gray a)) as Hbin.
  { split.
    - apply (like_map2 (λ v, (if v <? a then 1 else 0) * 255)).
      by apply like_refl.
    - intros p Hp. apply binary_nothing_below; [done| |done].
      intros v Hv. destruct (Htwo v Hv); lia. }
  destruct (Hblank (Hclean (Harr Hbin))) as [_ Hz].
  intros p Hp. unfold invert255.
  rewrite (px_map2 (λ v, (1 - v) * 255) gray) by (done || by apply like_map2).
  unfold positive.
  rewrite (px_map2 (λ v, if 0 <? v then 1 else 0) gray) by done.
  by rewrite (Hz p Hp).
Qed.

Lemma remove_interior_lines_two_levels_witness :
  ∃ out,
    remove_interior_lines_with (F := PrimFloat.float)
      min_filter max_filter two_tone = Some out
    ∧ ∀ p, inb (height two_tone) (width two_tone) p → px out p = 255.
Proof.
  apply (remove_interior_lines_two_levels (F := PrimFloat.float) 1020
           min_filter max_filter two_tone 10 200).
  - exact min_filter_laws.
  - exact max_filter_laws.
  - exact two_tone_rect.
  - lia.
  - lia.
  - lia.
  - exact two_tone_levels.
  - cbn. rewrite !elem_of_cons. auto.
  - cbn. rewrite !elem_of_cons. auto.
  - vm_compute. discriminate.
Defined.

(** ** The floor filler on images with little enclosed floor *)

Section empty_floor.
Implicit Types (m : list Z) (mask walls : grid) (out : image).

Lemma select_row_none m : ∀ s : list rgb,
  (∀ v, v ∈ m → v = 0) → select_row m s = [].
Proof.
  induction m as [|mv m IH]; intros s Hm; [done|].
  destruct s as [|sv s]; [done|]. cbn [select_row].
  rewrite (Hm mv) by left. cbn. apply IH. intros v Hv. apply Hm. by right.
Qed.

Lemma select_none mask : ∀ src : image,
  (∀ r v, r ∈ mask → v ∈ r → v = 0) → select mask src = [].
Proof.
  unfold select. induction mask as [|m mask IH]; intros src Hm; [done|].
  destruct src as [|s src]; [done|]. cbn [zip_with concat].
  rewrite select_row_none by (intros v Hv; eapply Hm; [left|done]).
  cbn [app]. apply IH. intros r v Hr Hv. eapply Hm; [by right|done].
Qed.

Lemma place_row_nil m : ∀ o : list rgb, place_row m o [] = (o, []).
Proof.
  induction m as [|mv m IH]; intros o; [done|].
  destruct o as [|ov o]; [done|]. cbn [place_row].
  rewrite IH. cbn [fst snd]. by destruct (mv =? 1).
Qed.

Lemma place_nil mask : ∀ out, place mask out [] = out.
Proof.
  induction mask as [|m mask IH]; intros out; [by destruct out|].
  destruct out as [|o out]; [done|]. cbn [place].
  rewrite place_row_nil. cbn [fst snd]. by rewrite IH.
Qed.

(** An array of zeros, entry by entry. *)
Lemma blank_entries gray g r v : blank gray g → r ∈ g → v ∈ r → v = 0.
Proof.
  intros [(Hh & Hw & Hr) Hz] Hin Hv.
  apply list_elem_of_lookup in Hin as [i Hi].
  apply list_elem_of_lookup in Hv as [j Hj].
  pose proof (lookup_lt_Some _ _ _ Hi) as Hli.
  pose proof (lookup_lt_Some _ _ _ Hj) as Hlj.
  pose proof (width_rows g r Hr (list_elem_of_lookup_2 _ _ _ Hi)) as Hwr.
  assert (px g (Z.of_nat j, Z.of_nat i) = v) as <-.
  { unfold px, get2. cbn [fst snd]. by rewrite !Nat2Z.id, Hi, Hj. }
  apply Hz. unfold inb, height in *. cbn [fst snd]. lia.
Qed.

(** The canvas after [out[walls == 1] = (0, 0, 0)]. *)
Lemma iget_paint_where walls (c : rgb) (x y : Z) :
  rect walls → 0 ≤ x < width walls → 0 ≤ y < height walls →
  iget (paint_where walls c (white_canvas (height walls) (width walls))) y x
  = Some (if get2 walls y x =? 1 then c else (255, 255, 255)).
Proof.
  intros Hw Hx Hy.
  destruct (lookup_row walls y Hy) as [wr Hwr].
  destruct (lookup_cell walls y x wr Hw Hwr Hx) as [wv Hwv].
  unfold iget, paint_where, white_canvas, get2.
  rewrite lookup_zip_with, Hwr, lookup_replicate_2 by lia. cbn.
  rewrite lookup_zip_with, Hwv, lookup_replicate_2 by lia. done.
Qed.

(** With fewer foreground pixels than the minimum, nothing is kept. *)
Lemma drop_small_few (mask : grid) (min_area : Z) :
  rect mask → Z.of_nat (fg_count mask) < min_area →
  ∃ clean, drop_small min_area mask = Some clean ∧ blank mask clean.
Proof.
  intros Hrect Hfew.
  destruct (drop_small_spec mask min_area Hrect)
    as (lbl & sts & seeds & clean & Hcc & Hinv & Hd & Hshape & Hpx).
  exists clean. split; [done|]. split; [done|]. intros p Hp.
  rewrite (Hpx p Hp), decide_False; [done|].
  unfold keep_large. rewrite elem_of_keep_from.
  intros [?%not_elem_of_empty|(i & st & E & Hst & Hge)]; [done|].
  destruct (decide (px mask p = 0)) as [Hm|Hm].
  { pose proof (si_bg _ _ _ _ Hinv p Hp Hm) as Hb. cbn [labels] in Hb. lia. }
  destruct (scan_inv_component mask seeds _ p Hinv Hp Hm)
    as (i' & st' & l & Hi & Hst' & Hnd & Hl & Ha).
  cbn [labels stats] in Hi, Hst'.
  assert (i' = i) as -> by lia. simplify_eq.
  assert (length l ≤ fg_count mask)%nat as Hle; [|lia].
  unfold fg_count. apply submseteq_length, NoDup_submseteq; [done|].
  intros q Hq%Hl.
  assert (fg mask q) as [Hq1 Hq2] by (by apply (path_ok (fg mask) p q)).
  apply list_elem_of_filter. split; [done|]. by apply elem_of_coords.
Qed.

End empty_floor.

(** [generate_floor_mask] on an image whose enclosed floor has fewer than
    [MIN_FLOOR_AREA_PX] pixels in all: no texture is laid, every wall
    pixel (grey value below [WALL_THRESHOLD]) is black and every other
    pixel is white.  This holds with any erosion and dilation that keep
    the shape of an image and leave an image of zeros as it is, and with a
    texture of at least one row and one column. *)
Theorem generate_floor_mask_small_floor (erode dilate : Z → grid → grid)
    (gray : grid) (tex : image) (th tw : Z) :
  filter_laws erode → filter_laws dilate →
  rect gray → image_shape th tw tex → 0 < th → 0 < tw →
  ∃ outside out,
    outside_mask (binarize gray WALL_THRESHOLD) = Some outside
    ∧ generate_floor_mask_with erode dilate gray tex = Some out
    ∧ (Z.of_nat (fg_count (candidate_floor (binarize gray WALL_THRESHOLD)
                             outside)) < MIN_FLOOR_AREA_PX →
       ∀ x y, 0 ≤ x < width gray → 0 ≤ y < height gray →
         iget out y x
         = Some (if get2 gray y x <? WALL_THRESHOLD then (0, 0, 0)
                 else (255, 255, 255))).
Proof.
  intros He Hd Hrect _ _ _.
  destruct smoothing_size_odd as [Hodd Hpos].
  set (walls := binarize gray WALL_THRESHOLD).
  assert (like gray walls) as Hwalls.
  { apply (like_map2 (λ v, if v <? WALL_THRESHOLD then 1 else 0)).
    by apply like_refl. }
  pose proof Hwalls as (Hh & Hw & Hwr).
  destruct (outside_mask_spec walls Hwr) as (outside & Ho & Hs & _).
  exists outside.
  destruct (shape_zip2 (λ a b : Z, if (a =? 0) && (b =? 0) then 1 else 0)
              walls outside Hwr Hs) as (Hfh & Hfw & Hfr).
  fold (candidate_floor walls outside) in Hfh, Hfw, Hfr.
  set (floor := candidate_floor walls outside) in *.
  assert (like gray floor) as Hfloor.
  { split; [congruence|]. split; [congruence|done]. }
  destruct (drop_small_like gray floor MIN_FLOOR_AREA_PX Hfloor)
    as (clean & Hdrop & Hclean & _).
  eexists. split; [done|]. split.
  { unfold generate_floor_mask_with. fold walls. rewrite Ho.
    cbn [mbind option_bind]. fold floor. rewrite Hdrop.
    cbn [mbind option_bind]. done. }
  intros Hfew x y Hx Hy.
  destruct (drop_small_few floor MIN_FLOOR_AREA_PX Hfr Hfew)
    as (clean' & Hdrop' & Hblank).
  rewrite Hdrop in Hdrop'. injection Hdrop' as <-.
  assert (blank gray clean) as Hb.
  { split; [done|]. intros p Hp. apply Hblank. by rewrite Hfh, Hfw, Hh, Hw. }
  change (0 <? SMOOTH_ITERATIONS) with true. cbn match.
  set (smooth := positive _).
  assert (blank gray smooth) as Hsmooth.
  { apply blank_map2; [done|]. apply iter_keeps.
    - intros g' Hg'. apply blank_filter; [done..|]. by apply blank_filter.
    - by apply blank_map2. }
  unfold compose.
  rewrite select_none by (intros r v; by apply (blank_entries gray smooth)).
  rewrite place_nil, iget_paint_where by (done || lia).
  unfold walls, binarize. rewrite get2_map2 by done.
  by destruct (get2 gray y x <? WALL_THRESHOLD).
Qed.

Lemma checker_shape : image_shape 2 2 checker.
Proof.
  split; [reflexivity|]. intros r Hr. unfold checker in Hr.
  rewrite !elem_of_cons, elem_of_nil in Hr.
  destruct Hr as [->|[->|[]]]; reflexivity.
Qed.

Lemma ring_gray_rect : rect ring_gray.
Proof. unfold rect. repeat constructor. Qed.

Lemma generate_floor_mask_small_floor_witness :
  ∃ outside out,
    outside_mask (binarize ring_gray WALL_THRESHOLD) = Some outside
    ∧ generate_floor_mask_with min_filter max_filter ring_gray checker
      = Some out
    ∧ (Z.of_nat (fg_count (candidate_floor (binarize ring_gray WALL_THRESHOLD)
                             outside)) < MIN_FLOOR_AREA_PX →
       ∀ x y, 0 ≤ x < width ring_gray → 0 ≤ y < height ring_gray →
         iget out y x
         = Some (if get2 ring_gray y x <? WALL_THRESHOLD then (0, 0, 0)
                 else (255, 255, 255))).
Proof.
  apply (generate_floor_mask_small_floor min_filter max_filter
           ring_gray checker 2 2).
  - exact min_filter_laws.
  - exact max_filter_laws.
  - exact ring_gray_rect.
  - exact checker_shape.
  - lia.
  - lia.
Defined.

(** ** Images smaller than the minimum component *)

Lemma blank_like (gray g g' : grid) : like gray g → blank g g' → blank gray g'.
Proof.
  intros (Hh & Hw & Hr) [Hl Hz]. split.
  - by apply (like_trans gray g g').
  - intros p Hp. apply Hz. by rewrite Hh, Hw.
Qed.

Lemma fg_count_le_area (mask : grid) :
  Z.of_nat (fg_count mask) ≤ height mask * width mask.
Proof.
  unfold fg_count.
  pose proof (length_filter (λ p, px mask p ≠ 0)
                (coords (height mask) (width mask))) as Hle.
  rewrite length_coords in Hle.
  assert (0 ≤ height mask) by (unfold height; lia).
  assert (0 ≤ width mask) by (destruct mask; cbn [width]; lia).
  nia.
Qed.

(** An image with fewer pixels than [MIN_COMPONENT_AREA_PX] comes out of
    [remove_interior_lines] entirely white, whatever it shows and
    whatever the arithmetic: no component can reach the minimum area, so
    the component filter keeps nothing.  This holds with any erosion and
    dilation that keep the shape of an image and leave an image of zeros
    as it is. *)
Theorem remove_interior_lines_small_image {F : Type} `{!Float64 F}
    (erode dilate : Z → grid → grid) (gray : grid) :
  filter_laws erode → filter_laws dilate → rect gray →
  height gray * width gray < MIN_COMPONENT_AREA_PX →
  ∃ out,
    remove_interior_lines_with erode dilate gray = Some out
    ∧ ∀ p, inb (height gray) (width gray) p → px out p = 255.
Proof.
  intros He Hd Hrect Hsmall.
  destruct (otsu_threshold_total gray) as [t Ht].
  destruct (wall_stages erode dilate He Hd gray t Hrect)
    as (arr & clean & Harr & _ & Hdrop & _ & _ & Hout & Hthin & Hblank).
  eexists. split; [by apply Hout|].
  pose proof Harr as (Hh & Hw & Hr).
  destruct (drop_small_few arr MIN_COMPONENT_AREA_PX Hr) as (clean' & Hd' & Hb).
  { pose proof (fg_count_le_area arr). rewrite Hh, Hw in *. lia. }
  rewrite Hdrop in Hd'. injection Hd' as <-.
  pose proof (blank_like gray arr clean Harr Hb) as Hclean.
  destruct (Hblank Hclean) as [_ Hz].
  intros p Hp. unfold invert255.
  rewrite (px_map2 (λ v, (1 - v) * 255) gray) by (done || by apply like_map2).
  unfold positive.
  rewrite (px_map2 (λ v, if 0 <? v then 1 else 0) gray) by done.
  by rewrite (Hz p Hp).
Qed.

Lemma remove_interior_lines_small_image_witness :
  ∃ out,
    remove_interior_lines_with (F := PrimFloat.float)
      min_filter max_filter plan = Some out
    ∧ ∀ p, inb (height plan) (width plan) p → px out p = 255.
Proof.
  apply (remove_interior_lines_small_image (F := PrimFloat.float)
           min_filter max_filter plan).
  - exact min_filter_laws.
  - exact max_filter_laws.
  - exact plan_rect.
  - vm_compute. reflexivity.
Defined.

(** ** The kernel sizes are odd *)

Lemma kernel_size_script :
  opening_size = kernel_size MIN_WALL_THICKNESS_PX
  ∧ erosion_size = kernel_size (MIN_WALL_THICKNESS_PX / 2).
Proof. done. Qed.

(** [n | 1] sets the lowest bit and leaves the others. *)
Lemma lor_1 (n : Z) : Z.lor n 1 = if Z.odd n then n else n + 1.
Proof.
  apply Z.bits_inj'. intros i Hi. rewrite Z.lor_spec.
  destruct (decide (i = 0)) as [->|Hne].
  - rewrite !Z.bit0_odd. destruct (Z.odd n) eqn:E.
    + by rewrite E.
    + by rewrite Z.add_1_r, Z.odd_succ, <- Z.negb_odd, E.
  - replace i with ((i - 1) + 1) by lia.
    rewrite <- !Z.shiftr_spec by lia. rewrite !Z.shiftr_div_pow2 by lia.
    change (2 ^ 1) with 2. change (1 / 2) with 0.
    rewrite Z.bits_0, orb_false_r.
    destruct (Z.odd n) eqn:E; [done|].
    f_equal.
    assert (n mod 2 = 0) as Hm.
    { rewrite Zmod_odd, E. done. }
    Z.div_mod_to_equations. lia.
Qed.

(** Whatever the wall thickness is set to, the kernel size
    [max(1, n | 1)] handed to the filters is odd and at least 1: it is 1
    for a negative [n], [n] for an odd [n] and [n + 1] for an even one. *)
Theorem kernel_size_odd (n : Z) :
  Z.odd (kernel_size n) = true
  ∧ 1 ≤ kernel_size n
  ∧ kernel_size n = (if n <? 0 then 1 else if Z.odd n then n else n + 1).
Proof.
  unfold kernel_size. rewrite lor_1.
  assert (Z.odd (if Z.odd n then n else n + 1) = true) as Hodd.
  { destruct (Z.odd n) eqn:E; [done|].
    by rewrite Z.add_1_r, Z.odd_succ, <- Z.negb_odd, E. }
  assert (Z.odd n = true → n ≠ 0) as H0 by (by intros E ->).
  destruct (Z.ltb_spec n 0) as [Hneg|Hpos].
  - rewrite Z.max_l; [done|]. destruct (Z.odd n) eqn:E; [lia|].
    assert (n ≠ -1) by (by intros ->). lia.
  - rewrite Z.max_r; [|destruct (Z.odd n); [specialize (H0 eq_refl)|]; lia].
    split; [done|]. split; [|done].
    destruct (Z.odd n); [specialize (H0 eq_refl)|]; lia.
Qed.
